(** * Chain execution engine of the DeepSeek MCP server

    A shallow embedding of [src/cache.ts], [src/tool-chain.ts] and the
    request handler of [src/index.ts]: the TTL cache, the parameter
    validator, the chain executor and the server's tool calls, together
    with the fragment of JavaScript they rely on (dynamic values,
    exceptions, [JSON.stringify] and [JSON.parse]).

    Results are kept as the untyped values they are at run time: what
    [executeStep] returns from the cache is whatever [JSON.parse] built.
    The manager is stepped call by call: one [executeChain] runs to its
    end before the next starts. *)

From Stdlib Require Import ZArith Lia Bool Ascii String List DecimalString.
From Stdlib Require Import DecimalFacts DecimalN.
From stdpp Require Import base option list strings gmap.

Local Open Scope string_scope.
Local Open Scope Z_scope.

(** ** JavaScript values *)

Module JS.

(** The values that travel through the engine: what [JSON.parse] can
    build, plus [undefined].  A number is an integer (a double without
    fraction, written in plain digits), a string is a sequence of code
    units below 256, and an object is the list of its own enumerable
    properties in enumeration order.  What JSON does not carry is left
    out: fractions, [NaN] and the infinities, [BigInt], functions,
    symbols, dates and other class instances, and cyclic structures. *)
#[local] Unset Elimination Schemes.
Inductive value : Type :=
| VUndefined
| VNull
| VBool (b : bool)
| VNum (n : Z)
| VStr (s : string)
| VArr (elems : list value)
| VObj (fields : list (string * value)).
#[local] Set Elimination Schemes.

(** A plain object, [Record<string, any>] in the source. *)
Abbreviation PlainObject := (list (string * value)).

(** What a [throw] carries: an [Error] with its message, or any other
    value. *)
Inductive exn : Type :=
| JsError (message : string)
| JsThrown (v : value).

(** The completion of a computation. *)
Inductive outcome (A : Type) : Type :=
| Normal (a : A)
| Throw (e : exn).
Arguments Normal {A} a.
Arguments Throw {A} e.

(** [error instanceof Error ? error.message : 'Unknown error'] *)
Definition error_message (e : exn) : string :=
  match e with
  | JsError m => m
  | JsThrown _ => "Unknown error"
  end.

(** ToBoolean *)
Definition truthy (v : value) : bool :=
  match v with
  | VUndefined | VNull => false
  | VBool b => b
  | VNum n => negb (n =? 0)
  | VStr s => negb (String.eqb s "")
  | VArr _ | VObj _ => true
  end.

(** [typeof v] *)
Definition typeof (v : value) : string :=
  match v with
  | VUndefined => "undefined"
  | VNull => "object"
  | VBool _ => "boolean"
  | VNum _ => "number"
  | VStr _ => "string"
  | VArr _ | VObj _ => "object"
  end.

(** First binding of [k] among the own properties. *)
Fixpoint own (k : string) (fields : PlainObject) : option value :=
  match fields with
  | [] => None
  | (k', v) :: rest => if String.eqb k k' then Some v else own k rest
  end.

(** [obj[k] = v] on the own properties: an existing property keeps its
    place, a new one goes last. *)
Fixpoint obj_set (k : string) (v : value) (fields : PlainObject) : PlainObject :=
  match fields with
  | [] => [(k, v)]
  | (k', v') :: rest =>
      if String.eqb k k' then (k, v) :: rest else (k', v') :: obj_set k v rest
  end.

(** The properties every plain object inherits from [Object.prototype];
    all are functions, except the accessor [__proto__], which reads as
    the prototype object. *)
Definition prototype_names : list string :=
  [ "constructor"; "hasOwnProperty"; "isPrototypeOf"; "propertyIsEnumerable";
    "toLocaleString"; "toString"; "valueOf"; "__defineGetter__";
    "__defineSetter__"; "__lookupGetter__"; "__lookupSetter__"; "__proto__" ].

Definition inherited (k : string) : bool :=
  existsb (String.eqb k) prototype_names.

(** [k in obj], for a plain object [obj]. *)
Definition has_property (k : string) (obj : PlainObject) : bool :=
  match own k obj with
  | Some _ => true
  | None => inherited k
  end.

(** [typeof obj[k]], for a plain object [obj]. *)
Definition typeof_property (k : string) (obj : PlainObject) : string :=
  match own k obj with
  | Some v => typeof v
  | None =>
      if inherited k
      then (if String.eqb k "__proto__" then "object" else "function")
      else "undefined"
  end.

(** [v.name] for the two property names the engine reads off a result,
    [success] and [metadata]: neither is inherited, nor an index or
    [length], so only an object can have them; reading a property of
    [null] or [undefined] is a [TypeError]. *)
Definition prop (name : string) (v : value) : outcome value :=
  match v with
  | VUndefined =>
      Throw (JsError ("Cannot read properties of undefined (reading '" +:+ name +:+ "')"))
  | VNull =>
      Throw (JsError ("Cannot read properties of null (reading '" +:+ name +:+ "')"))
  | VObj fields => Normal (default VUndefined (own name fields))
  | _ => Normal VUndefined
  end.

End JS.
Export JS.

(** ** Induction on values, through arrays and objects *)

Section value_induction.

Variable P : value -> Prop.
Hypothesis Hundefined : P VUndefined.
Hypothesis Hnull : P VNull.
Hypothesis Hbool : forall b, P (VBool b).
Hypothesis Hnum : forall n, P (VNum n).
Hypothesis Hstr : forall s, P (VStr s).
Hypothesis Harr : forall elems, Forall P elems -> P (VArr elems).
Hypothesis Hobj : forall fields, Forall (fun kx => P (snd kx)) fields -> P (VObj fields).

Fixpoint value_ind (v : value) : P v :=
  match v with
  | VUndefined => Hundefined
  | VNull => Hnull
  | VBool b => Hbool b
  | VNum n => Hnum n
  | VStr s => Hstr s
  | VArr elems =>
      Harr elems
        ((fix go (l : list value) : Forall P l :=
            match l with
            | [] => List.Forall_nil P
            | x :: l' => List.Forall_cons P x l' (value_ind x) (go l')
            end) elems)
  | VObj fields =>
      Hobj fields
        ((fix go (l : PlainObject) : Forall (fun kx => P (snd kx)) l :=
            match l with
            | [] => List.Forall_nil _
            | kx :: l' => List.Forall_cons _ kx l' (value_ind (snd kx)) (go l')
            end) fields)
  end.

End value_induction.

(** ** The JSON codec *)

Module JSON.

Definition dquote : ascii := "034"%char.
Definition backslash : ascii := "092"%char.

Definition hex_digit (n : nat) : ascii :=
  nth n (list_ascii_of_string "0123456789abcdef") "0"%char.

(** QuoteJSONString, one code unit at a time: the two-character escapes,
    [\u00xx] for the other control characters, the character itself
    otherwise. *)
Definition quote_char (c : ascii) : string :=
  if Ascii.eqb c dquote then String backslash (String dquote "")
  else if Ascii.eqb c backslash then String backslash (String backslash "")
  else if Ascii.eqb c "008" then String backslash "b"
  else if Ascii.eqb c "009" then String backslash "t"
  else if Ascii.eqb c "010" then String backslash "n"
  else if Ascii.eqb c "012" then String backslash "f"
  else if Ascii.eqb c "013" then String backslash "r"
  else if (nat_of_ascii c <? 32)%nat
       then String backslash
              (String "u" (String "0" (String "0"
                 (String (hex_digit (nat_of_ascii c / 16))
                    (String (hex_digit (nat_of_ascii c mod 16)) "")))))
       else String c "".

Fixpoint quote_body (s : string) : string :=
  match s with
  | EmptyString => ""
  | String c r => quote_char c +:+ quote_body r
  end.

Definition quote (s : string) : string :=
  String dquote (quote_body s +:+ String dquote "").

Definition digits (n : N) : string := NilEmpty.string_of_uint (N.to_uint n).

(** Number::toString on an integer. *)
Definition number_to_string (n : Z) : string :=
  match n with
  | Zneg p => String "-" (digits (Npos p))
  | _ => digits (Z.to_N n)
  end.

Fixpoint join (sep : string) (l : list string) : string :=
  match l with
  | [] => ""
  | [x] => x
  | x :: rest => x +:+ sep +:+ join sep rest
  end.

(** SerializeJSONProperty: [None] is the result [undefined]. An array
    writes [null] for an element that serializes to [undefined], an
    object leaves such a property out.  On the values above it always
    completes; the [TypeError] it throws on a [BigInt] and on a cyclic
    structure, and the changes it makes to a [NaN], an infinity or a
    date, concern values that are left out. *)
Fixpoint serialize (v : value) : option string :=
  match v with
  | VUndefined => None
  | VNull => Some "null"
  | VBool b => Some (if b then "true" else "false")
  | VNum n => Some (number_to_string n)
  | VStr s => Some (quote s)
  | VArr elems =>
      Some ("[" +:+ join "," (map (fun e => default "null" (serialize e)) elems) +:+ "]")
  | VObj fields =>
      Some ("{" +:+
            join ","
              (omap (fun kx => match serialize (snd kx) with
                               | Some t => Some (quote (fst kx) +:+ ":" +:+ t)
                               | None => None
                               end) fields) +:+ "}")
  end.

(** [JSON.stringify(v)] *)
Definition stringify (v : value) : option string := serialize v.

(** [JSON.stringify] of an array and of a plain object, which is always
    a string. *)
Definition stringify_array (elems : list value) : string :=
  "[" +:+ join "," (map (fun e => default "null" (serialize e)) elems) +:+ "]".

Definition member_text (kx : string * value) : option string :=
  match serialize (snd kx) with
  | Some t => Some (quote (fst kx) +:+ ":" +:+ t)
  | None => None
  end.

Definition stringify_object (fields : PlainObject) : string :=
  "{" +:+ join "," (omap member_text fields) +:+ "}".

(** The text a template literal puts for [JSON.stringify(v)]. *)
Definition template (o : option string) : string := default "undefined" o.

(** *** Parsing *)

Definition is_ws (c : ascii) : bool :=
  Ascii.eqb c " " || Ascii.eqb c "009" || Ascii.eqb c "010" || Ascii.eqb c "013".

Fixpoint skip_ws (s : string) : string :=
  match s with
  | EmptyString => ""
  | String c r => if is_ws c then skip_ws r else s
  end.

Definition is_digit (c : ascii) : bool :=
  (48 <=? nat_of_ascii c)%nat && (nat_of_ascii c <=? 57)%nat.

Definition hex_value (c : ascii) : option nat :=
  let n := nat_of_ascii c in
  if (48 <=? n)%nat && (n <=? 57)%nat then Some (n - 48)%nat
  else if (97 <=? n)%nat && (n <=? 102)%nat then Some (n - 87)%nat
  else if (65 <=? n)%nat && (n <=? 70)%nat then Some (n - 55)%nat
  else None.

Definition hex4 (a b c d : ascii) : option nat :=
  match hex_value a, hex_value b, hex_value c, hex_value d with
  | Some x, Some y, Some z, Some w => Some (((x * 16 + y) * 16 + z) * 16 + w)%nat
  | _, _, _, _ => None
  end.

(** The character a two-character escape stands for. *)
Definition unescape (e : ascii) : option ascii :=
  if Ascii.eqb e dquote then Some dquote
  else if Ascii.eqb e backslash then Some backslash
  else if Ascii.eqb e "/" then Some "/"%char
  else if Ascii.eqb e "b" then Some "008"%char
  else if Ascii.eqb e "t" then Some "009"%char
  else if Ascii.eqb e "n" then Some "010"%char
  else if Ascii.eqb e "f" then Some "012"%char
  else if Ascii.eqb e "r" then Some "013"%char
  else None.

(** The characters of a string literal after its opening quote, up to
    the closing one. A [\u] escape above 255 is outside the modelled
    strings and read as malformed. *)
Fixpoint parse_chars (s : string) : option (string * string) :=
  match s with
  | EmptyString => None
  | String c r =>
      if Ascii.eqb c dquote then Some ("", r)
      else if Ascii.eqb c backslash then
        match r with
        | EmptyString => None
        | String e r1 =>
            if Ascii.eqb e "u" then
              match r1 with
              | String h1 (String h2 (String h3 (String h4 r2))) =>
                  match hex4 h1 h2 h3 h4 with
                  | Some n =>
                      if (n <? 256)%nat then
                        match parse_chars r2 with
                        | Some (t, rest) => Some (String (ascii_of_nat n) t, rest)
                        | None => None
                        end
                      else None
                  | None => None
                  end
              | _ => None
              end
            else
              match unescape e with
              | Some c' =>
                  match parse_chars r1 with
                  | Some (t, rest) => Some (String c' t, rest)
                  | None => None
                  end
              | None => None
              end
        end
      else if (nat_of_ascii c <? 32)%nat then None
      else
        match parse_chars r with
        | Some (t, rest) => Some (String c t, rest)
        | None => None
        end
  end.

Fixpoint span_digits (s : string) : string * string :=
  match s with
  | EmptyString => ("", "")
  | String c r =>
      if is_digit c
      then (String c (fst (span_digits r)), snd (span_digits r))
      else ("", s)
  end.

(** A fraction or an exponent would follow. *)
Definition continues_number (s : string) : bool :=
  match s with
  | EmptyString => false
  | String c _ => Ascii.eqb c "." || Ascii.eqb c "e" || Ascii.eqb c "E"
  end.

(** [0] or a digit sequence without leading zero; numbers with a
    fraction or an exponent are outside the modelled integers and read
    as malformed. *)
Definition parse_natural (s : string) : option (N * string) :=
  let ds := span_digits s in
  match NilEmpty.uint_of_string (fst ds) with
  | Some u =>
      if Decimal.uint_beq (Decimal.unorm u) u && negb (continues_number (snd ds))
      then Some (N.of_uint u, snd ds)
      else None
  | None => None
  end.

Definition parse_number (s : string) : option (value * string) :=
  match s with
  | String c r =>
      if Ascii.eqb c "-"
      then match parse_natural r with
           | Some (n, rest) => Some (VNum (- Z.of_N n), rest)
           | None => None
           end
      else match parse_natural s with
           | Some (n, rest) => Some (VNum (Z.of_N n), rest)
           | None => None
           end
  | EmptyString => None
  end.

Fixpoint strip_prefix (p s : string) : option string :=
  match p, s with
  | EmptyString, _ => Some s
  | String a p', String b s' => if Ascii.eqb a b then strip_prefix p' s' else None
  | String _ _, EmptyString => None
  end.

(** Recursive descent, bounded by [n] nested calls: a value, the
    elements of an array after its first, the members of an object. A
    repeated key overwrites the earlier property in place. *)
Fixpoint parse_value (n : nat) (s : string) {struct n} : option (value * string) :=
  match n with
  | O => None
  | S n =>
      match skip_ws s with
      | EmptyString => None
      | String c r =>
          if Ascii.eqb c "{" then
            match skip_ws r with
            | String c' r' =>
                if Ascii.eqb c' "}" then Some (VObj [], r')
                else parse_members n [] (String c' r')
            | EmptyString => None
            end
          else if Ascii.eqb c "[" then
            match skip_ws r with
            | String c' r' =>
                if Ascii.eqb c' "]" then Some (VArr [], r')
                else match parse_elements n (String c' r') with
                     | Some (l, rest) => Some (VArr l, rest)
                     | None => None
                     end
            | EmptyString => None
            end
          else if Ascii.eqb c dquote then
            match parse_chars r with
            | Some (t, rest) => Some (VStr t, rest)
            | None => None
            end
          else if Ascii.eqb c "n" then
            option_map (pair VNull) (strip_prefix "ull" r)
          else if Ascii.eqb c "t" then
            option_map (pair (VBool true)) (strip_prefix "rue" r)
          else if Ascii.eqb c "f" then
            option_map (pair (VBool false)) (strip_prefix "alse" r)
          else parse_number (String c r)
      end
  end
with parse_elements (n : nat) (s : string) {struct n} : option (list value * string) :=
  match n with
  | O => None
  | S n =>
      match parse_value n s with
      | Some (v, r) =>
          match skip_ws r with
          | String c r' =>
              if Ascii.eqb c "," then
                match parse_elements n r' with
                | Some (l, rest) => Some (v :: l, rest)
                | None => None
                end
              else if Ascii.eqb c "]" then Some ([v], r')
              else None
          | EmptyString => None
          end
      | None => None
      end
  end
with parse_members (n : nat) (acc : PlainObject) (s : string) {struct n} : option (value * string) :=
  match n with
  | O => None
  | S n =>
      match skip_ws s with
      | String q r =>
          if Ascii.eqb q dquote then
            match parse_chars r with
            | Some (k, r1) =>
                match skip_ws r1 with
                | String c r2 =>
                    if Ascii.eqb c ":" then
                      match parse_value n r2 with
                      | Some (v, r3) =>
                          match skip_ws r3 with
                          | String d r4 =>
                              if Ascii.eqb d "," then parse_members n (obj_set k v acc) r4
                              else if Ascii.eqb d "}" then Some (VObj (obj_set k v acc), r4)
                              else None
                          | EmptyString => None
                          end
                      | None => None
                      end
                    else None
                | EmptyString => None
                end
            | None => None
            end
          else None
      | EmptyString => None
      end
  end.

(** [JSON.parse(s)]: [None] is a [SyntaxError]. *)
Definition parse (s : string) : option value :=
  match parse_value (S (String.length s)) s with
  | Some (v, rest) =>
      match skip_ws rest with
      | EmptyString => Some v
      | String _ _ => None
      end
  | None => None
  end.

(** What [JSON.parse(JSON.stringify(v))] makes of [v]. *)
Fixpoint roundtrip (v : value) : value :=
  match v with
  | VArr elems =>
      VArr (map (fun e => match e with
                          | VUndefined => VNull
                          | _ => roundtrip e
                          end) elems)
  | VObj fields =>
      VObj (fold_left (fun acc kx => match snd kx with
                                     | VUndefined => acc
                                     | _ => obj_set (fst kx) (roundtrip (snd kx)) acc
                                     end) fields [])
  | _ => v
  end.

(** *** What the parser owes to the serializer *)

Definition ends_number (rest : string) : bool :=
  match rest with
  | EmptyString => true
  | String c _ => negb (is_digit c) && negb (continues_number rest)
  end.

(** The characters a serialized value can begin with. *)
Definition starts_value (s : string) : Prop :=
  match s with
  | EmptyString => False
  | String c _ =>
      is_ws c = false /\ Ascii.eqb c "]" = false /\ Ascii.eqb c "}" = false
  end.

Definition item (e : value) : string := default "null" (serialize e).

Definition element_roundtrip (e : value) : value :=
  match e with
  | VUndefined => VNull
  | _ => roundtrip e
  end.

Definition member_roundtrip (acc : PlainObject) (kx : string * value) : PlainObject :=
  match snd kx with
  | VUndefined => acc
  | _ => obj_set (fst kx) (roundtrip (snd kx)) acc
  end.

(** What the parser owes to one serialized value. *)
Definition parses_back (v : value) : Prop :=
  forall t, serialize v = Some t ->
  forall n rest, (String.length t < n)%nat -> ends_number rest = true ->
  parse_value n (t +:+ rest) = Some (roundtrip v, rest).


(** *** Writing with indentation *)

Definition newline : string := String "010" "".

(** [JSON.stringify(v, null, 2)], from the indentation [indent] on: an
    array or object that writes nothing is [[]] or [{}]; otherwise each
    item goes on a line of its own, two spaces deeper, and a member has
    a space after its colon. *)
Fixpoint serialize_indented (indent : string) (v : value) : option string :=
  match v with
  | VUndefined => None
  | VNull => Some "null"
  | VBool b => Some (if b then "true" else "false")
  | VNum n => Some (number_to_string n)
  | VStr s => Some (quote s)
  | VArr elems =>
      match map (fun e => default "null" (serialize_indented (indent +:+ "  ") e)) elems with
      | [] => Some "[]"
      | items =>
          Some ("[" +:+ newline +:+ indent +:+ "  "
                +:+ join ("," +:+ newline +:+ indent +:+ "  ") items
                +:+ newline +:+ indent +:+ "]")
      end
  | VObj fields =>
      match omap (fun kx => match serialize_indented (indent +:+ "  ") (snd kx) with
                            | Some t => Some (quote (fst kx) +:+ ": " +:+ t)
                            | None => None
                            end) fields with
      | [] => Some "{}"
      | members =>
          Some ("{" +:+ newline +:+ indent +:+ "  "
                +:+ join ("," +:+ newline +:+ indent +:+ "  ") members
                +:+ newline +:+ indent +:+ "}")
      end
  end.

Definition stringify_indented (v : value) : option string := serialize_indented "" v.

(** An indentation: spaces only. *)
Fixpoint blank (s : string) : bool :=
  match s with
  | EmptyString => true
  | String c r => Ascii.eqb c " " && blank r
  end.

Definition item_indented (indent : string) (e : value) : string :=
  default "null" (serialize_indented indent e).

Definition member_indented (indent : string) (kx : string * value) : option string :=
  match serialize_indented indent (snd kx) with
  | Some t => Some (quote (fst kx) +:+ ": " +:+ t)
  | None => None
  end.

(** What goes between two items written at the indentation [inner]. *)
Definition separator (inner : string) : string := "," +:+ newline +:+ inner.

(** What the parser owes to one value written with indentation. *)
Definition parses_back_indented (v : value) : Prop :=
  forall indent t, blank indent = true -> serialize_indented indent v = Some t ->
  forall n rest, (String.length t < n)%nat -> ends_number rest = true ->
  parse_value n (t +:+ rest) = Some (roundtrip v, rest).

End JSON.

(** ** Data model ([src/types.ts], and the two schema interfaces of
    [src/tool-chain.ts]) *)

Record CacheEntry : Type := {
  result : string;
  timestamp : Z;              (* milliseconds, a reading of [Date.now()] *)
  ttl : Z;                    (* seconds *)
  metadata : option PlainObject
}.

Record SchemaProperty : Type := {
  type : string;
  prop_description : option string
}.

Record ValidationSchema : Type := {
  properties : list (string * SchemaProperty);  (* in [Object.entries] order *)
  required : option (list string)
}.

Record ChainableToolConfig : Type := {
  name : string;
  description : string;
  inputSchema : ValidationSchema;
  chainable : bool;
  requiresPrevious : option bool;
  metadataSchema : option PlainObject
}.

Record ToolChainStep : Type := {
  toolName : string;
  params : PlainObject;
  step_metadata : option PlainObject
}.

Record ToolChainContext : Type := {
  previousResults : list value;
  context_metadata : PlainObject
}.

Record ToolChain : Type := {
  steps : list ToolChainStep;
  context : ToolChainContext
}.

(** What a tool handler does with one invocation. *)
Definition Handler : Type :=
  ChainableToolConfig -> PlainObject -> ToolChainContext -> outcome value.

(** ** The world a [ToolChainManager] runs in

    The manager's two private maps, and around them the environment:
    the clock behind [Date.now()], the tool handlers behind
    [executeTool], and the error console.  [clock w i] is what the
    [i]-th reading of the clock returns, [handlers w i] how the [i]-th
    invocation of a tool behaves. *)
Record World : Type := {
  tools : gmap string ChainableToolConfig;
  store : gmap string CacheEntry;
  ticks : nat;
  calls : list (string * PlainObject);
  console : list string;
  clock : nat -> Z;
  handlers : nat -> Handler
}.

Definition with_store (f : gmap string CacheEntry -> gmap string CacheEntry)
    (w : World) : World :=
  {| tools := tools w; store := f (store w); ticks := ticks w; calls := calls w;
     console := console w; clock := clock w; handlers := handlers w |}.

Definition with_tools (f : gmap string ChainableToolConfig -> gmap string ChainableToolConfig)
    (w : World) : World :=
  {| tools := f (tools w); store := store w; ticks := ticks w; calls := calls w;
     console := console w; clock := clock w; handlers := handlers w |}.

(** Computations: they read and change the world, and complete normally
    or throw. *)
Definition M (A : Type) : Type := World -> outcome A * World.

Definition ret {A} (a : A) : M A := fun w => (Normal a, w).

Definition throw {A} (e : exn) : M A := fun w => (Throw e, w).

Definition bind {A B} (m : M A) (f : A -> M B) : M B :=
  fun w => match m w with
           | (Normal a, w') => f a w'
           | (Throw e, w') => (Throw e, w')
           end.

Definition try_catch {A} (body : M A) (handler : exn -> M A) : M A :=
  fun w => match body w with
           | (Normal a, w') => (Normal a, w')
           | (Throw e, w') => handler e w'
           end.

Definition lift {A} (o : outcome A) : M A := fun w => (o, w).

Notation "'let*' x := m 'in' f" := (bind m (fun x => f))
  (at level 10, x name, m at level 100, f at level 200, only parsing).

(** [Date.now()] *)
Definition Date_now : M Z :=
  fun w => (Normal (clock w (ticks w)),
            {| tools := tools w; store := store w; ticks := S (ticks w);
               calls := calls w; console := console w; clock := clock w;
               handlers := handlers w |}).

(** [console.error(message, error)] *)
Definition console_error (message : string) : M unit :=
  fun w => (Normal tt,
            {| tools := tools w; store := store w; ticks := ticks w;
               calls := calls w; console := console w ++ [message];
               clock := clock w; handlers := handlers w |}).

(** ** [src/cache.ts] *)

Module Cache.

(** [now - entry.timestamp > entry.ttl * 1000] *)
Definition expired (now : Z) (entry : CacheEntry) : bool :=
  now - timestamp entry >? ttl entry * 1000.

(** [get(key)]: [None] is [null]. *)
Definition get (key : string) : M (option string) :=
  fun w =>
    match store w !! key with
    | None => (Normal None, w)
    | Some entry =>
        (let* now := Date_now in
         if expired now entry
         then fun w' => (Normal None, with_store (base.delete key) w')
         else ret (Some (result entry))) w
    end.

Definition set (key : string) (result : string) (ttl : Z) (metadata : option PlainObject)
    : M unit :=
  let* now := Date_now in
  fun w => (Normal tt,
            with_store (base.insert key {| result := result; timestamp := now;
                                           ttl := ttl; metadata := metadata |}) w).

(** [getMetadata(key)]: [entry?.metadata || null]; a record, when there
    is one, is truthy. *)
Definition getMetadata (key : string) : M (option PlainObject) :=
  fun w =>
    match store w !! key with
    | None => (Normal None, w)
    | Some entry => (Normal (metadata entry), w)
    end.

(** [has(key)]: [this.get(key) !== null] *)
Definition has (key : string) : M bool :=
  let* cached := get key in
  ret (match cached with Some _ => true | None => false end).

Definition delete (key : string) : M unit :=
  fun w => (Normal tt, with_store (base.delete key) w).

Definition clear : M unit :=
  fun w => (Normal tt, with_store (fun _ => ∅) w).

(** [generateChainKey(steps)] *)
Definition generateChainKey (steps : list ToolChainStep) : string :=
  JSON.join "|"
    (map (fun step =>
            toolName step +:+ ":" +:+ JSON.template (JSON.stringify (VObj (params step))))
         steps).

Definition cleanup : M unit :=
  let* now := Date_now in
  fun w => (Normal tt,
            with_store (filter (fun kv => expired now (snd kv) = false)) w).

End Cache.

(** ** [src/tool-chain.ts] *)

Module ToolChainManager.

(** A manager fresh from its constructor, in a given environment. *)
Definition new (clock : nat -> Z) (handlers : nat -> Handler) : World :=
  {| tools := ∅; store := ∅; ticks := 0; calls := []; console := [];
     clock := clock; handlers := handlers |}.

Definition registerTool (config : ChainableToolConfig) : M unit :=
  fun w => (Normal tt, with_tools (base.insert (name config) config) w).

(** The body of [executeTool] in the source is a placeholder for the
    specific tool handler. *)
Definition not_implemented : Handler :=
  fun _ _ _ => Throw (JsError "Tool execution not implemented").

(** [executeTool(tool, params, context)]: the next invocation's handler
    runs, and the invocation is on record. *)
Definition executeTool (tool : ChainableToolConfig) (params : PlainObject)
    (context : ToolChainContext) : M value :=
  fun w =>
    (handlers w (length (calls w)) tool params context,
     {| tools := tools w; store := store w; ticks := ticks w;
        calls := calls w ++ [(name tool, params)]; console := console w;
        clock := clock w; handlers := handlers w |}).

Definition missing_message (key : string) : string :=
  "Missing required parameter: " +:+ key.

Definition invalid_message (key expected got : string) : string :=
  "Invalid type for parameter " +:+ key +:+ ": expected " +:+ expected +:+ ", got " +:+ got.

(** [schema.required?.includes(key)] *)
Definition is_required (schema : ValidationSchema) (key : string) : bool :=
  match required schema with
  | Some keys => existsb (String.eqb key) keys
  | None => false
  end.

(** One turn of the loop of [validateParams]. *)
Definition validate_property (params : PlainObject) (schema : ValidationSchema)
    (key : string) (value : SchemaProperty) : outcome unit :=
  if is_required schema key && negb (has_property key params)
  then Throw (JsError (missing_message key))
  else if has_property key params
          && (negb (String.eqb (type value) "")
              && negb (String.eqb (typeof_property key params) (type value)))
  then Throw (JsError (invalid_message key (type value) (typeof_property key params)))
  else Normal tt.

Fixpoint validate_entries (params : PlainObject) (schema : ValidationSchema)
    (entries : list (string * SchemaProperty)) : outcome unit :=
  match entries with
  | [] => Normal tt
  | (key, value) :: rest =>
      match validate_property params schema key value with
      | Normal _ => validate_entries params schema rest
      | Throw e => Throw e
      end
  end.

Definition validateParams (params : PlainObject) (schema : ValidationSchema) : outcome unit :=
  validate_entries params schema (properties schema).

(** The three result literals of the source. *)
Definition metadata_value (step : ToolChainStep) : value :=
  match step_metadata step with
  | Some m => VObj m
  | None => VUndefined
  end.

Definition success_result (r : value) (step : ToolChainStep) : PlainObject :=
  [("success", VBool true); ("result", r); ("metadata", metadata_value step)].

Definition step_failure (error : exn) (step : ToolChainStep) : PlainObject :=
  [("success", VBool false); ("result", VNull);
   ("error", VStr (error_message error)); ("metadata", metadata_value step)].

Definition chain_failure (error : exn) : PlainObject :=
  [("success", VBool false); ("result", VNull); ("error", VStr (error_message error))].

Definition stepKey (step : ToolChainStep) : string :=
  toolName step +:+ ":" +:+ JSON.template (JSON.stringify (VObj (params step))).

(** The cached text, when there is a truthy one that parses; a parse
    error is logged and the lookup counts as a miss. *)
Definition parse_cached (cachedResult : option string) (message : string)
    : M (option value) :=
  match cachedResult with
  | Some text =>
      if negb (String.eqb text "")
      then match JSON.parse text with
           | Some parsed => ret (Some parsed)
           | None => let* _ := console_error message in ret None
           end
      else ret None
  | None => ret None
  end.

Definition executeStep (step : ToolChainStep) (context : ToolChainContext) : M value :=
  fun w =>
    match tools w !! toolName step with
    | None => (Throw (JsError ("Tool not found: " +:+ toolName step)), w)
    | Some tool =>
        (if default false (requiresPrevious tool)
            && (length (previousResults context) =? 0)%nat
         then throw (JsError ("Tool " +:+ toolName step +:+ " requires previous results"))
         else
           let* _ := lift (validateParams (params step) (inputSchema tool)) in
           let* cachedResult := Cache.get (stepKey step) in
           let* cached := parse_cached cachedResult "Error parsing cached step result:" in
           match cached with
           | Some parsed => ret parsed
           | None =>
               try_catch
                 (let* r := executeTool tool (params step) context in
                  let result := success_result r step in
                  let* _ := Cache.set (stepKey step) (JSON.stringify_object result) 3600 None in
                  ret (VObj result))
                 (fun error => ret (VObj (step_failure error step)))
           end) w
    end.

(** The own enumerable properties a spread copies. *)
Definition indexed {A} (f : A -> value) (l : list A) : PlainObject :=
  imap (fun i x => (JSON.digits (N.of_nat i), f x)) l.

Definition spread (v : value) : PlainObject :=
  match v with
  | VObj fields => fields
  | VArr elems => indexed id elems
  | VStr s => indexed (fun c => VStr (String c "")) (list_ascii_of_string s)
  | _ => []
  end.

(** [{ ...a, ...b }] *)
Definition merge (a b : PlainObject) : PlainObject :=
  fold_left (fun acc kx => obj_set (fst kx) (snd kx) acc) (a ++ b) [].

(** The two variables the loop of [executeChain] updates. *)
Record Locals : Type := {
  results : list value;
  loop_context : ToolChainContext
}.

Definition push (r : value) (l : Locals) : Locals :=
  {| results := results l ++ [r]; loop_context := loop_context l |}.

(** The statements of the [try] block after the step's result is in
    [results]: [true] to go on with the next step, [false] on [break]. *)
Definition after_push (result : value) (l : Locals) : outcome (bool * Locals) :=
  match prop "success" result with
  | Throw e => Throw e
  | Normal success =>
      if negb (truthy success) then Normal (false, l)
      else
        match prop "metadata" result with
        | Throw e => Throw e
        | Normal md =>
            Normal
              (true,
               {| results := results l;
                  loop_context :=
                    {| previousResults := previousResults (loop_context l) ++ [result];
                       context_metadata :=
                         if truthy md
                         then merge (context_metadata (loop_context l)) (spread md)
                         else context_metadata (loop_context l) |} |})
        end
  end.

(** One turn of the loop: the [try] block and its [catch]. What was
    pushed before a throw stays pushed. *)
Definition loop_body (step : ToolChainStep) (l : Locals) : M (bool * Locals) :=
  fun w =>
    match executeStep step (loop_context l) w with
    | (Normal result, w') =>
        match after_push result (push result l) with
        | Normal next => (Normal next, w')
        | Throw error => (Normal (false, push (VObj (chain_failure error)) (push result l)), w')
        end
    | (Throw error, w') => (Normal (false, push (VObj (chain_failure error)) l), w')
    end.

Fixpoint loop (steps : list ToolChainStep) (l : Locals) : M Locals :=
  match steps with
  | [] => ret l
  | step :: rest =>
      let* next := loop_body step l in
      if fst next then loop rest (snd next) else ret (snd next)
  end.

(** [results.every(r => r.success)] *)
Fixpoint every_success (results : list value) : outcome bool :=
  match results with
  | [] => Normal true
  | r :: rest =>
      match prop "success" r with
      | Throw e => Throw e
      | Normal success => if truthy success then every_success rest else Normal false
      end
  end.

Definition executeChain (chain : ToolChain) : M value :=
  let chainKey := Cache.generateChainKey (steps chain) in
  let* cachedResult := Cache.get chainKey in
  let* cached := parse_cached cachedResult "Error parsing cached chain result:" in
  match cached with
  | Some parsed => ret parsed
  | None =>
      let* l := loop (steps chain)
                  {| results := [];
                     loop_context := {| previousResults := []; context_metadata := [] |} |} in
      let* ok := lift (every_success (results l)) in
      let* _ := (if ok
                 then Cache.set chainKey (JSON.stringify_array (results l)) 3600 None
                 else ret tt) in
      ret (VArr (results l))
  end.


(** *** The helpers for chain manipulation

    They change the chain they are given; here they return it. *)

(** [addStep(chain, step)]: [chain.steps.push(step)] *)
Definition addStep (chain : ToolChain) (step : ToolChainStep) : ToolChain :=
  {| steps := steps chain ++ [step]; context := context chain |}.

(** What [array.splice(start, deleteCount)] leaves of the array: a
    negative [start] counts from the end, and both numbers are clamped
    to the array. *)
Definition splice {A} (start deleteCount : Z) (l : list A) : list A :=
  let len := Z.of_nat (length l) in
  let actualStart := if start <? 0 then Z.max (len + start) 0 else Z.min start len in
  let actualDeleteCount := Z.min (Z.max deleteCount 0) (len - actualStart) in
  take (Z.to_nat actualStart) l ++ drop (Z.to_nat (actualStart + actualDeleteCount)) l.

(** [removeStep(chain, index)]: [chain.steps.splice(index, 1)] *)
Definition removeStep (chain : ToolChain) (index : Z) : ToolChain :=
  {| steps := splice index 1 (steps chain); context := context chain |}.

Definition clearChain (chain : ToolChain) : ToolChain :=
  {| steps := []; context := {| previousResults := []; context_metadata := [] |} |}.

End ToolChainManager.

Import ToolChainManager.

(** ** [src/index.ts] *)

Module DeepSeekServer.

(** ToString, as a template literal applies it to a substitution.  An
    array joins the strings of its elements with commas, [null] and
    [undefined] counting as empty; a plain object is [[object Object]],
    unless it has an own [toString] property: that shadows the inherited
    method with something that cannot be called, and the conversion is a
    [TypeError]. *)
Fixpoint to_string (v : value) : outcome string :=
  match v with
  | VUndefined => Normal "undefined"
  | VNull => Normal "null"
  | VBool b => Normal (if b then "true" else "false")
  | VNum n => Normal (JSON.number_to_string n)
  | VStr s => Normal s
  | VArr elems =>
      match
        (fix items (l : list value) : outcome (list string) :=
           match l with
           | [] => Normal []
           | e :: rest =>
               match (match e with
                      | VUndefined | VNull => Normal ""
                      | _ => to_string e
                      end) with
               | Throw error => Throw error
               | Normal t =>
                   match items rest with
                   | Throw error => Throw error
                   | Normal ts => Normal (t :: ts)
                   end
               end
           end) elems
      with
      | Throw error => Throw error
      | Normal ts => Normal (JSON.join "," ts)
      end
  | VObj fields =>
      match own "toString" fields with
      | Some _ => Throw (JsError "Cannot convert object to primitive value")
      | None => Normal "[object Object]"
      end
  end.

Definition property (config_type description : string) : SchemaProperty :=
  {| type := config_type; prop_description := Some description |}.

(** The three tool configurations of [setupTools]. *)
Definition generateCodeConfig : ChainableToolConfig :=
  {| name := "generate_code";
     description := "Generate code using DeepSeek API";
     inputSchema :=
       {| properties :=
            [ ("prompt", property "string" "The code generation prompt");
              ("language", property "string" "Target programming language");
              ("temperature", property "number" "Sampling temperature (0-1)") ];
          required := Some ["prompt"] |};
     chainable := true;
     requiresPrevious := None;
     metadataSchema := None |}.

Definition completeCodeConfig : ChainableToolConfig :=
  {| name := "complete_code";
     description := "Get code completions using DeepSeek";
     inputSchema :=
       {| properties :=
            [ ("code", property "string" "Existing code context");
              ("prompt", property "string" "Completion prompt");
              ("temperature", property "number" "Sampling temperature") ];
          required := Some ["code"; "prompt"] |};
     chainable := true;
     requiresPrevious := None;
     metadataSchema := None |}.

Definition optimizeCodeConfig : ChainableToolConfig :=
  {| name := "optimize_code";
     description := "Optimize code using DeepSeek";
     inputSchema :=
       {| properties :=
            [ ("code", property "string" "Code to optimize");
              ("target", property "string"
                 "Optimization target (performance, memory, readability)") ];
          required := Some ["code"] |};
     chainable := true;
     requiresPrevious := Some true;
     metadataSchema := None |}.

(** [params.temperature || 0.7]: the parameter when it is truthy, the
    default otherwise.  The default is not an integer and stays
    symbolic. *)
Inductive Temperature : Type :=
| Given (v : value)
| Default.

(** The body of a request to [/completions]. *)
Record CompletionRequest : Type := {
  prompt : string;
  temperature : Temperature;
  max_tokens : Z
}.

(** How a request ends: with a response, [choices] being the texts of
    [response.data.choices]; with an [AxiosError], of which the handler
    reads [error.response?.data?.error] and [error.message]; or with any
    other exception. *)
Inductive Reply : Type :=
| Response (choices : list string)
| AxiosError (response_error : value) (message : string)
| OtherError (error : exn).

(** The server: its chain manager, and around it the API behind
    [axiosInstance].  [api s i] is how the [i]-th request is answered. *)
Record Server : Type := {
  chainManager : World;
  posted : list CompletionRequest;
  api : nat -> CompletionRequest -> Reply
}.

(** The constructor: the manager is the one of [src/tool-chain.ts],
    whose [executeTool] is the placeholder, with the three tools
    registered. *)
Definition new (clock : nat -> Z) (api : nat -> CompletionRequest -> Reply) : Server :=
  {| chainManager :=
       snd (registerTool optimizeCodeConfig
              (snd (registerTool completeCodeConfig
                      (snd (registerTool generateCodeConfig
                              (ToolChainManager.new clock (fun _ => not_implemented)))))));
     posted := [];
     api := api |}.

Definition line (s : string) : string := s +:+ JSON.newline.

(** [a || fallback] inside a template literal. *)
Definition or_else (a : value) (fallback : string) : outcome string :=
  if truthy a then to_string a else Normal fallback.

Definition and_then {A B} (o : outcome A) (f : A -> outcome B) : outcome B :=
  match o with
  | Normal a => f a
  | Throw error => Throw error
  end.

(** [buildPrompt(toolName, params)]; [params] is [undefined] when the
    request has no arguments. *)
Definition buildPrompt (toolName : string) (params : value) : outcome string :=
  if String.eqb toolName "generate_code" then
    and_then (prop "language" params) (fun language =>
    and_then (or_else language "any") (fun language =>
    and_then (prop "prompt" params) (fun requirements =>
    and_then (to_string requirements) (fun requirements =>
    Normal (line "" +:+ line "### Task: Code Generation"
            +:+ line ("### Language: " +:+ language)
            +:+ line "### Requirements:"
            +:+ line requirements
            +:+ line "### Response:")))))
  else if String.eqb toolName "complete_code" then
    and_then (prop "code" params) (fun code =>
    and_then (to_string code) (fun code =>
    and_then (prop "prompt" params) (fun requirements =>
    and_then (to_string requirements) (fun requirements =>
    Normal (line "" +:+ line "### Task: Code Completion"
            +:+ line "### Context:"
            +:+ line code
            +:+ line "### Requirements:"
            +:+ line requirements
            +:+ line "### Response:")))))
  else if String.eqb toolName "optimize_code" then
    and_then (prop "target" params) (fun target =>
    and_then (or_else target "performance") (fun target =>
    and_then (prop "code" params) (fun code =>
    and_then (to_string code) (fun code =>
    Normal (line "" +:+ line "### Task: Code Optimization"
            +:+ line ("### Target: " +:+ target)
            +:+ line "### Code:"
            +:+ line code
            +:+ line "### Response:")))))
  else Throw (JsError ("Unknown tool: " +:+ toolName)).

(** [axiosInstance.post('/completions', body)] *)
Definition post (body : CompletionRequest) (s : Server) : Reply * Server :=
  (api s (length (posted s)) body,
   {| chainManager := chainManager s; posted := posted s ++ [body]; api := api s |}).

(** [handleToolCall(name, params)] *)
Definition handleToolCall (name : string) (params : value) (s : Server)
    : outcome string * Server :=
  match buildPrompt name params with
  | Throw error => (Throw error, s)
  | Normal text =>
      match prop "temperature" params with
      | Throw error => (Throw error, s)
      | Normal t =>
          match post {| prompt := text;
                        temperature := if truthy t then Given t else Default;
                        max_tokens := 2000 |} s with
          | (Response choices, s') =>
              match choices with
              | first :: _ => (Normal first, s')
              | [] =>
                  (Throw (JsError "Cannot read properties of undefined (reading 'text')"), s')
              end
          | (AxiosError response_error message, s') =>
              match or_else response_error message with
              | Normal detail => (Throw (JsError ("DeepSeek API error: " +:+ detail)), s')
              | Throw error => (Throw error, s')
              end
          | (OtherError error, s') => (Throw error, s')
          end
      end
  end.

(** A [CallToolRequest]: [request.params?.name] and
    [request.params.arguments], [None] where the request has none. *)
Record CallToolRequest : Type := {
  request_name : option string;
  arguments : option PlainObject
}.

(** What the handler returns: the text of its one content item
    ([None] is [undefined]), and whether [isError] is set. *)
Record CallToolResult : Type := {
  text : option string;
  isError : bool
}.

(** The steps of a chain request as the [ChainStep[]] the source takes
    them for: an array of objects with a string [toolName], an object
    [params] and, possibly, an object [metadata].  [None] for anything
    else. *)
Definition as_step (v : value) : option ToolChainStep :=
  match v with
  | VObj fields =>
      match own "toolName" fields, own "params" fields, own "metadata" fields with
      | Some (VStr n), Some (VObj p), None =>
          Some {| toolName := n; params := p; step_metadata := None |}
      | Some (VStr n), Some (VObj p), Some VUndefined =>
          Some {| toolName := n; params := p; step_metadata := None |}
      | Some (VStr n), Some (VObj p), Some (VObj m) =>
          Some {| toolName := n; params := p; step_metadata := Some m |}
      | _, _, _ => None
      end
  | _ => None
  end.

Fixpoint as_steps_list (l : list value) : option (list ToolChainStep) :=
  match l with
  | [] => Some []
  | v :: rest =>
      match as_step v, as_steps_list rest with
      | Some step, Some steps => Some (step :: steps)
      | _, _ => None
      end
  end.

Definition as_steps (v : value) : option (list ToolChainStep) :=
  match v with
  | VArr elems => as_steps_list elems
  | _ => None
  end.

Definition error_result (error : exn) : CallToolResult :=
  {| text := Some ("Error: " +:+ error_message error); isError := true |}.

Definition with_manager (w : World) (s : Server) : Server :=
  {| chainManager := w; posted := posted s; api := api s |}.

(** The handler of [CallToolRequestSchema].  It returns [None] on a
    chain request whose steps are not of the type the source takes them
    for. *)
Definition callTool (request : CallToolRequest) (s : Server)
    : option (CallToolResult * Server) :=
  match request_name request with
  | None => Some (error_result (JsError "Invalid request: missing tool name"), s)
  | Some name =>
      if String.eqb name "" then
        Some (error_result (JsError "Invalid request: missing tool name"), s)
      else if String.eqb name "execute_chain" then
        let given := match arguments request with
                     | Some args => default VUndefined (own "steps" args)
                     | None => VUndefined
                     end in
        if negb (truthy given) then
          Some (error_result (JsError "Invalid chain request: missing steps"), s)
        else
          match as_steps given with
          | None => None
          | Some typed =>
              match executeChain {| steps := typed;
                                    context := {| previousResults := [];
                                                  context_metadata := [] |} |}
                      (chainManager s) with
              | (Normal results, w') =>
                  Some ({| text := JSON.stringify_indented results; isError := false |},
                        with_manager w' s)
              | (Throw error, w') => Some (error_result error, with_manager w' s)
              end
          end
      else
        match handleToolCall name
                (match arguments request with
                 | Some args => VObj args
                 | None => VUndefined
                 end) s with
        | (Normal result, s') => Some ({| text := Some result; isError := false |}, s')
        | (Throw error, s') => Some (error_result error, s')
        end
  end.

(** A temperature the server sends: the default, or a truthy
    parameter. *)
Definition sendable (t : Temperature) : Prop :=
  match t with
  | Default => True
  | Given v => truthy v = true
  end.

(** The states of a running server: fresh from its constructor, then
    after any sequence of tool calls. *)
Inductive serving : Server -> Prop :=
| serving_new clock api : serving (new clock api)
| serving_callTool s request result s' :
    serving s -> callTool request s = Some (result, s') -> serving s'.

(** The tool names [callTool] knows. *)
Definition known_names : list string :=
  ["execute_chain"; "generate_code"; "complete_code"; "optimize_code"].

Definition tool_request (name : string) (args : option PlainObject) : CallToolRequest :=
  {| request_name := Some name; arguments := args |}.

Definition chain_request (given : list value) : CallToolRequest :=
  {| request_name := Some "execute_chain"; arguments := Some [("steps", VArr given)] |}.

End DeepSeekServer.

(** * Specification

    The notions the properties below are stated with. *)

(** What [validateParams] checks of one declared property: a required
    one is present, and a present one whose declared type tag is not
    empty has that tag as its [typeof]. *)
Definition property_ok (params : PlainObject) (schema : ValidationSchema)
    (key : string) (value : SchemaProperty) : Prop :=
  (is_required schema key = true -> has_property key params = true)
  /\ (has_property key params = true -> type value <> "" ->
      typeof_property key params = type value).

Fixpoint contains (c : ascii) (s : string) : bool :=
  match s with
  | EmptyString => false
  | String x r => Ascii.eqb x c || contains c r
  end.

(** The pair a step contributes to the chain key. *)
Definition rendered (step : ToolChainStep) : string * string :=
  (toolName step, JSON.stringify_object (params step)).

(** An entry written by [executeStep], or one written by
    [executeChain]. *)
Definition entry_ok (key : string) (entry : CacheEntry) : Prop :=
  metadata entry = None
  /\ ((exists step r, key = stepKey step
                      /\ result entry = JSON.stringify_object (success_result r step))
      \/ (exists steps rs, key = Cache.generateChainKey steps
                           /\ result entry = JSON.stringify_array rs
                           /\ length rs = length steps)).

Definition cache_ok (w : World) : Prop :=
  forall key entry, store w !! key = Some entry -> entry_ok key entry.

(** The worlds a manager can be in: fresh from its constructor, then
    after any sequence of [registerTool] and [executeChain] calls. *)
Inductive reachable : World -> Prop :=
| reachable_new clock handlers : reachable (new clock handlers)
| reachable_registerTool w config :
    reachable w -> reachable (snd (registerTool config w))
| reachable_executeChain w chain :
    reachable w -> reachable (snd (executeChain chain w)).

(** The environment and the registry are the same in both worlds. *)
Definition same_setting (w w' : World) : Prop :=
  tools w' = tools w /\ clock w' = clock w /\ handlers w' = handlers w.

(** A result whose [success] reads [true]. *)
Definition succeeded (v : value) : Prop := prop "success" v = Normal (VBool true).

(** A result at which the loop stops: [success] reads falsy. *)
Definition stops (v : value) : Prop :=
  exists s, prop "success" v = Normal s /\ truthy s = false.

(** A failed result: [{success: false, result: null, error: message}],
    with or without [metadata]. *)
Definition failure_record (v : value) : Prop :=
  exists fields message,
    v = VObj fields
    /\ own "success" fields = Some (VBool false)
    /\ own "result" fields = Some VNull
    /\ own "error" fields = Some (VStr message).

(** The entries the loop stops at: a failed result, or a cached chain
    list replayed where a step result was expected. *)
Definition halting (v : value) : Prop :=
  failure_record v \/ exists elems, v = VArr elems.

(** What a cached text parses to: a step result that succeeded, or the
    result list of a chain. *)
Definition replayed (v : value) : Prop :=
  (exists fields, v = VObj fields /\ own "success" fields = Some (VBool true))
  \/ (exists elems, v = VArr elems).

(** The world after one reading of the clock. *)
Definition tick (w : World) : World := snd (Date_now w).

(** How [executeStep] can complete: it throws before touching anything;
    it replays a cached result; or it invokes the tool, which returns
    or throws. *)
Inductive step_outcome (step : ToolChainStep) (context : ToolChainContext) (w : World)
  : outcome value -> World -> Prop :=
| step_throws e :
    step_outcome step context w (Throw e) w
| step_replays v :
    replayed v ->
    step_outcome step context w (Normal v) (tick w)
| step_succeeds tool r w' :
    tools w !! toolName step = Some tool ->
    calls w' = (calls w ++ [(name tool, params step)])%list ->
    (forall key, key <> stepKey step -> store w' !! key = store w !! key) ->
    (exists entry, store w' !! stepKey step = Some entry
                   /\ result entry = JSON.stringify_object (success_result r step)) ->
    same_setting w w' ->
    step_outcome step context w (Normal (VObj (success_result r step))) w'
| step_fails tool e w' :
    tools w !! toolName step = Some tool ->
    calls w' = (calls w ++ [(name tool, params step)])%list ->
    store w' = base.delete (stepKey step) (store w) ->
    same_setting w w' ->
    step_outcome step context w (Normal (VObj (step_failure e step))) w'.

(** What a run of the loop adds to [results]: one success per step, or
    successes up to an entry at which the loop stopped. *)
Definition run_shape (steps : list ToolChainStep) (new : list value) : Prop :=
  (Forall succeeded new /\ length new = length steps)
  \/ (exists init last, new = (init ++ [last])%list /\ Forall succeeded init /\ halting last
                        /\ (length new <= length steps)%nat).

(** The entry [executeChain] writes for a result list. *)
Definition chain_entry (rs : list value) (now : Z) : CacheEntry :=
  {| result := JSON.stringify_array rs; timestamp := now; ttl := 3600; metadata := None |}.

(** How [executeChain] completes from a world whose cache it has
    written itself: with the cached value, when the chain key has a
    live entry; otherwise with the list the loop collected, stored under
    the chain key exactly if every entry is a success. *)
Inductive chain_outcome (chain : ToolChain) (w : World) : outcome value -> World -> Prop :=
| chain_hit entry v :
    store w !! Cache.generateChainKey (steps chain) = Some entry ->
    Cache.expired (clock w (ticks w)) entry = false ->
    JSON.parse (result entry) = Some v ->
    chain_outcome chain w (Normal v) (tick w)
| chain_cached rs w' now :
    fst (Cache.get (Cache.generateChainKey (steps chain)) w) = Normal None ->
    Forall succeeded rs ->
    length rs = length (steps chain) ->
    store w' !! Cache.generateChainKey (steps chain) = Some (chain_entry rs now) ->
    (exists invoked, calls w' = (calls w ++ invoked)%list
                     /\ (length invoked <= length rs)%nat) ->
    chain_outcome chain w (Normal (VArr rs)) w'
| chain_failed rs w' :
    fst (Cache.get (Cache.generateChainKey (steps chain)) w) = Normal None ->
    run_shape (steps chain) rs ->
    ~ Forall succeeded rs ->
    store w' !! Cache.generateChainKey (steps chain) = None ->
    (exists invoked, calls w' = (calls w ++ invoked)%list
                     /\ (length invoked <= length rs)%nat) ->
    chain_outcome chain w (Normal (VArr rs)) w'.

(** The context and the result list the loop starts from. *)
Definition initial_context : ToolChainContext :=
  {| previousResults := []; context_metadata := [] |}.

Definition initial_locals : Locals :=
  {| results := []; loop_context := initial_context |}.

(** What [executeChain] does once the lookup of the chain key has
    missed. *)
Definition compute_chain (chain : ToolChain) : M value :=
  let* l := loop (steps chain) initial_locals in
  let* ok := lift (every_success (results l)) in
  let* _ := (if ok
             then Cache.set (Cache.generateChainKey (steps chain))
                    (JSON.stringify_array (results l)) 3600 None
             else ret tt) in
  ret (VArr (results l)).

Fixpoint distinct (keys : list string) : bool :=
  match keys with
  | [] => true
  | k :: rest => negb (existsb (String.eqb k) rest) && distinct rest
  end.

(** [tool.requiresPrevious && context.previousResults.length === 0] *)
Definition lacks_previous (tool : ChainableToolConfig) (context : ToolChainContext) : bool :=
  default false (requiresPrevious tool) && (length (previousResults context) =? 0)%nat.

(** What [executeStep] throws before it looks at the cache, if
    anything: the tool is not registered, it requires previous results
    and there are none, or the parameters fail validation. *)
Definition rejection (w : World) (step : ToolChainStep) (context : ToolChainContext)
    : option exn :=
  match tools w !! toolName step with
  | None => Some (JsError ("Tool not found: " +:+ toolName step))
  | Some tool =>
      if lacks_previous tool context
      then Some (JsError ("Tool " +:+ toolName step +:+ " requires previous results"))
      else match validateParams (params step) (inputSchema tool) with
           | Normal _ => None
           | Throw e => Some e
           end
  end.

(** The manager as the source has it: every invocation runs the
    placeholder body of [executeTool]. *)
Definition shipped (w : World) : Prop :=
  forall i, handlers w i = not_implemented.

(** A cache with no entry but the one of the empty chain. *)
Definition bare (w : World) : Prop :=
  forall key entry, store w !! key = Some entry -> key = "".

(** The world after [executeTool]: the invocation is on record. *)
Definition invoked (tool : ChainableToolConfig) (params : PlainObject) (w : World) : World :=
  snd (executeTool tool params initial_context w).

(** The result [executeChain] records for the first step of a chain on
    a manager whose [executeTool] is the placeholder. *)
Definition shipped_failure (w : World) (step : ToolChainStep) : PlainObject :=
  match rejection w step initial_context with
  | Some error => chain_failure error
  | None => step_failure (JsError "Tool execution not implemented") step
  end.

(** What a successful result adds to [context.metadata]: its own
    [metadata], when truthy, spread over what is there. *)
Definition absorb (md : PlainObject) (r : value) : PlainObject :=
  match prop "metadata" r with
  | Normal m => if truthy m then merge md (spread m) else md
  | Throw _ => md
  end.

(** * Examples

    Schemas, steps and worlds the properties are tried on. *)

Definition stale_entry : CacheEntry :=
  {| result := "payload"; timestamp := 0; ttl := 1;
     metadata := Some [("source", VStr "test")] |}.

(** A cache holding one entry with a TTL of one second, written at time
    0, five seconds later. *)
Definition stale_world : World :=
  {| tools := ∅; store := {[ "k" := stale_entry ]}; ticks := 0; calls := [];
     console := []; clock := fun _ => 5000;
     handlers := fun _ => ToolChainManager.not_implemented |}.

(** The same cache one second after the entry was written, to the
    millisecond. *)
Definition boundary_world : World :=
  {| tools := ∅; store := {[ "k" := stale_entry ]}; ticks := 0; calls := [];
     console := []; clock := fun _ => 1000;
     handlers := fun _ => ToolChainManager.not_implemented |}.

Definition untyped_schema : ValidationSchema :=
  {| properties := [("x", {| type := ""; prop_description := None |})];
     required := None |}.

Definition echo_schema : ValidationSchema :=
  {| properties := [("msg", {| type := "string"; prop_description := None |})];
     required := Some ["msg"] |}.

Definition step_t : ToolChainStep :=
  {| toolName := "t"; params := []; step_metadata := None |}.

(** A step whose name reads like two steps. *)
Definition step_tt : ToolChainStep :=
  {| toolName := "t:{}|t"; params := []; step_metadata := None |}.

Definition step_u : ToolChainStep :=
  {| toolName := "u"; params := [("n", VNum 1)]; step_metadata := None |}.

(** A tool without declared parameters. *)
Definition plain_tool (tool_name : string) : ChainableToolConfig :=
  {| name := tool_name; description := "";
     inputSchema := {| properties := []; required := None |};
     chainable := true; requiresPrevious := None; metadataSchema := None |}.

(** A manager as the source has it, with the placeholder for every
    handler, after registering the tool [t]; the clock stands still. *)
Definition stub_world : World :=
  snd (registerTool (plain_tool "t") (new (fun _ => 0) (fun _ => not_implemented))).

Definition chain_of (l : list ToolChainStep) : ToolChain :=
  {| steps := l; context := initial_context |}.

(** The tool of the specification's example: [echo] returns its [msg]
    parameter. *)
Definition echo_tool : ChainableToolConfig :=
  {| name := "echo"; description := "Echo the message";
     inputSchema := echo_schema;
     chainable := true; requiresPrevious := None; metadataSchema := None |}.

Definition echo_handler : Handler :=
  fun _ params _ => Normal (default VUndefined (own "msg" params)).

Definition echo_world : World :=
  snd (registerTool echo_tool (new (fun _ => 0) (fun _ => echo_handler))).

Definition echo_step : ToolChainStep :=
  {| toolName := "echo"; params := [("msg", VStr "hi")]; step_metadata := None |}.

Definition tagged_echo_step : ToolChainStep :=
  {| toolName := "echo"; params := [("msg", VStr "hi")];
     step_metadata := Some [("tag", VNum 1)] |}.

Definition tagged_missing_step : ToolChainStep :=
  {| toolName := "missing_tool"; params := [];
     step_metadata := Some [("tag", VNum 1)] |}.

Definition tagged_t_step : ToolChainStep :=
  {| toolName := "t"; params := []; step_metadata := Some [("tag", VNum 1)] |}.

Definition second_echo_step : ToolChainStep :=
  {| toolName := "echo"; params := [("msg", VStr "ho")]; step_metadata := None |}.

(** A cache no manager writes: the text [null] under the key of the
    step [t]. *)
Definition corrupt_world : World :=
  {| tools := {[ "t" := plain_tool "t" ]};
     store := {[ "t:{}" := {| result := "null"; timestamp := 0; ttl := 3600;
                              metadata := None |} ]};
     ticks := 0; calls := []; console := []; clock := fun _ => 0;
     handlers := fun _ => not_implemented |}.

(** The clock reads 5000, then 500: it has been set back. *)
Definition rewound_world : World :=
  {| tools := ∅; store := {[ "k" := stale_entry ]}; ticks := 0; calls := [];
     console := []; clock := fun i => match i with O => 5000 | _ => 500 end;
     handlers := fun _ => ToolChainManager.not_implemented |}.

(** The echo world after a chain that failed at its second step, [t]
    not being registered there: the result of the first step is in the
    cache. *)
Definition warm_world : World :=
  snd (executeChain (chain_of [echo_step; step_t]) echo_world).

(** The echo world after a one-step chain that succeeded. *)
Definition cached_world : World :=
  snd (executeChain (chain_of [echo_step]) echo_world).

Definition echo_entry : CacheEntry :=
  {| result := JSON.stringify_object (success_result (VStr "hi") echo_step);
     timestamp := 0; ttl := 3600; metadata := None |}.

Definition echo_chain_entry : CacheEntry :=
  {| result := JSON.stringify_array [VObj (success_result (VStr "hi") echo_step)];
     timestamp := 0; ttl := 3600; metadata := None |}.

(** A schema that requires a parameter named like a method every
    object inherits. *)
Definition method_schema : ValidationSchema :=
  {| properties := [("toString", {| type := "string"; prop_description := None |})];
     required := Some ["toString"] |}.

Definition optimize_step : ToolChainStep :=
  {| toolName := "optimize_code"; params := [("code", VStr "x")]; step_metadata := None |}.

(** A server whose API answers every request with the one text
    [done]. *)
Definition demo_server : DeepSeekServer.Server :=
  DeepSeekServer.new (fun _ => 0) (fun _ _ => DeepSeekServer.Response ["done"]).

(** A chain request with the one step [optimize_code]. *)
Definition optimize_request : DeepSeekServer.CallToolRequest :=
  DeepSeekServer.chain_request
    [VObj [("toolName", VStr "optimize_code"); ("params", VObj [("code", VStr "x")])]].

Definition zero_temperature_request : DeepSeekServer.CallToolRequest :=
  DeepSeekServer.tool_request "generate_code"
    (Some [("prompt", VStr "sort"); ("temperature", VNum 0)]).

(** The demo server after the request with temperature 0. *)
Definition served_once : DeepSeekServer.Server :=
  match DeepSeekServer.callTool zero_temperature_request demo_server with
  | Some (_, s') => s'
  | None => demo_server
  end.

(** A server whose endpoint answers every post with the status 402 and
    an error object in the body. *)
Definition failing_server : DeepSeekServer.Server :=
  DeepSeekServer.new (fun _ => 0)
    (fun _ _ => DeepSeekServer.AxiosError
                  (VObj [("message", VStr "Insufficient Balance"); ("code", VNum 402)])
                  "Request failed with status code 402").

(** * Properties *)

(** ** Strings *)

#[local] Arguments String.append !s1 s2 : simpl nomatch.

Lemma append_assoc (a b c : string) : (a +:+ b) +:+ c = a +:+ (b +:+ c).
Proof. induction a as [|x a IH]; simpl; [reflexivity | now rewrite IH]. Qed.

Lemma append_nil_r (a : string) : a +:+ "" = a.
Proof. induction a as [|x a IH]; simpl; [reflexivity | now rewrite IH]. Qed.

Lemma length_append (a b : string) :
  String.length (a +:+ b) = (String.length a + String.length b)%nat.
Proof. induction a as [|x a IH]; simpl; [reflexivity | now rewrite IH]. Qed.

(** ** The parser reads back what the serializer writes *)

Module JSONFacts.
Import JSON.

Ltac each_char c := destruct c as [[] [] [] [] [] [] [] []].

Lemma parse_chars_quote_char (c : ascii) (s : string) :
  parse_chars (quote_char c +:+ s) =
  match parse_chars s with
  | Some (t, rest) => Some (String c t, rest)
  | None => None
  end.
Proof. each_char c; reflexivity. Qed.

Lemma parse_chars_quote_body (s rest : string) :
  parse_chars (quote_body s +:+ String dquote rest) = Some (s, rest).
Proof.
  induction s as [|c s IH]; [reflexivity|].
  simpl quote_body. rewrite append_assoc, parse_chars_quote_char, IH. reflexivity.
Qed.

Lemma digit_string (u : Decimal.uint) (rest : string) :
  span_digits (NilEmpty.string_of_uint u +:+ rest) =
  (NilEmpty.string_of_uint u +:+ fst (span_digits rest), snd (span_digits rest)).
Proof.
  induction u; simpl; rewrite ?IHu; try reflexivity.
  destruct (span_digits rest); reflexivity.
Qed.

Lemma span_digits_stop (rest : string) :
  ends_number rest = true -> span_digits rest = ("", rest).
Proof.
  destruct rest as [|c r]; [reflexivity|]. simpl.
  destruct (is_digit c); [discriminate | reflexivity].
Qed.

Lemma uint_beq_refl (u : Decimal.uint) : Decimal.uint_beq u u = true.
Proof. induction u; simpl; auto. Qed.

Lemma unorm_to_uint (n : N) : Decimal.unorm (N.to_uint n) = N.to_uint n.
Proof. rewrite <- (DecimalN.Unsigned.to_of (N.to_uint n)), DecimalN.Unsigned.of_to. reflexivity. Qed.

Lemma parse_natural_digits (n : N) (rest : string) :
  ends_number rest = true ->
  parse_natural (digits n +:+ rest) = Some (n, rest).
Proof.
  intros Hrest. unfold parse_natural, digits.
  rewrite digit_string, (span_digits_stop _ Hrest). simpl fst; simpl snd.
  rewrite append_nil_r, NilEmpty.usu, unorm_to_uint, uint_beq_refl.
  rewrite DecimalN.Unsigned.of_to.
  destruct rest as [|c r]; [reflexivity|].
  unfold ends_number in Hrest. apply andb_true_iff in Hrest as [_ Hc].
  rewrite Hc. reflexivity.
Qed.

Lemma digits_head (n : N) :
  exists c r, digits n = String c r /\ is_digit c = true.
Proof.
  unfold digits.
  assert (N.to_uint n <> Decimal.Nil) as Hnil.
  { destruct n; simpl; [discriminate | apply DecimalPos.Unsigned.to_uint_nonnil]. }
  destruct (N.to_uint n); try congruence; simpl; eauto.
Qed.

Lemma parse_number_text (z : Z) (rest : string) :
  ends_number rest = true ->
  parse_number (number_to_string z +:+ rest) = Some (VNum z, rest).
Proof.
  intros Hrest. destruct z as [|p|p]; unfold number_to_string.
  - simpl Z.to_N. destruct (digits_head 0) as (c & r & Hd & Hc).
    pose proof (parse_natural_digits 0 rest Hrest) as Hp. rewrite Hd in *.
    cbn [String.append] in *. unfold parse_number. rewrite Hp.
    replace (Ascii.eqb c "-") with false; [reflexivity|].
    revert Hc. clear. destruct c as [[] [] [] [] [] [] [] []]; try reflexivity; discriminate.
  - simpl Z.to_N. destruct (digits_head (N.pos p)) as (c & r & Hd & Hc).
    pose proof (parse_natural_digits (N.pos p) rest Hrest) as Hp. rewrite Hd in *.
    cbn [String.append] in *. unfold parse_number. rewrite Hp.
    replace (Ascii.eqb c "-") with false; [reflexivity|].
    revert Hc. clear. destruct c as [[] [] [] [] [] [] [] []]; try reflexivity; discriminate.
  - simpl. rewrite (parse_natural_digits (N.pos p) rest Hrest). reflexivity.
Qed.

Lemma starts_value_append (a b : string) : starts_value a -> starts_value (a +:+ b).
Proof. destruct a; simpl; [tauto | auto]. Qed.

Lemma skip_ws_starts (s : string) : starts_value s -> skip_ws s = s.
Proof. destruct s as [|c r]; simpl; [tauto|]. intros (-> & _). reflexivity. Qed.

Lemma serialize_none (v : value) : serialize v = None <-> v = VUndefined.
Proof. destruct v; simpl; split; intros; congruence. Qed.

Lemma number_head (z : Z) :
  exists c r, number_to_string z = String c r /\ (is_digit c = true \/ c = "-"%char).
Proof.
  destruct z as [|p|p]; unfold number_to_string.
  - destruct (digits_head (Z.to_N 0)) as (c & r & -> & H). eauto.
  - destruct (digits_head (Z.to_N (Z.pos p))) as (c & r & -> & H). eauto.
  - eauto.
Qed.

Lemma number_dispatch (c : ascii) :
  is_digit c = true \/ c = "-"%char ->
  is_ws c = false /\ Ascii.eqb c "]" = false /\ Ascii.eqb c "}" = false /\
  Ascii.eqb c "{" = false /\ Ascii.eqb c "[" = false /\ Ascii.eqb c dquote = false /\
  Ascii.eqb c "n" = false /\ Ascii.eqb c "t" = false /\ Ascii.eqb c "f" = false.
Proof.
  intros [H| ->]; [|repeat split; reflexivity].
  revert H. each_char c; intros H; try discriminate H; repeat split; reflexivity.
Qed.

Lemma serialize_starts (v : value) (t : string) :
  serialize v = Some t -> starts_value t.
Proof.
  destruct v as [| |[]|z|s|l|fs]; simpl; intros H; try discriminate; inversion H; subst;
    try (simpl; repeat split; reflexivity).
  destruct (number_head z) as (c & r & -> & Hc).
  apply number_dispatch in Hc. simpl. tauto.
Qed.

Lemma item_starts (e : value) : starts_value (item e).
Proof.
  unfold item. destruct (serialize e) eqn:E; simpl.
  - eapply serialize_starts; eauto.
  - repeat split; reflexivity.
Qed.

Lemma array_open (n : nat) (s : string) :
  starts_value s ->
  parse_value (S n) (String "[" s) =
  match parse_elements n s with
  | Some (l, rest) => Some (VArr l, rest)
  | None => None
  end.
Proof.
  destruct s as [|c r]; simpl; [tauto|]. intros (Hws & Hb & _).
  rewrite Hws, Hb. reflexivity.
Qed.

Lemma object_open (n : nat) (s : string) :
  parse_value (S n) (String "{" (String dquote s)) = parse_members n [] (String dquote s).
Proof. reflexivity. Qed.

Lemma elements_step (n : nat) (s : string) :
  parse_elements (S n) s =
  match parse_value n s with
  | Some (v, r) =>
      match skip_ws r with
      | String c r' =>
          if Ascii.eqb c "," then
            match parse_elements n r' with
            | Some (l, rest) => Some (v :: l, rest)
            | None => None
            end
          else if Ascii.eqb c "]" then Some ([v], r')
          else None
      | EmptyString => None
      end
  | None => None
  end.
Proof. reflexivity. Qed.

Lemma members_step (n : nat) (acc : PlainObject) (k s : string) :
  parse_members (S n) acc (quote k +:+ String ":" s) =
  match parse_value n s with
  | Some (v, r3) =>
      match skip_ws r3 with
      | String d r4 =>
          if Ascii.eqb d "," then parse_members n (obj_set k v acc) r4
          else if Ascii.eqb d "}" then Some (VObj (obj_set k v acc), r4)
          else None
      | EmptyString => None
      end
  | None => None
  end.
Proof.
  unfold quote. cbn [String.append]. rewrite append_assoc. cbn [String.append].
  cbn [parse_members skip_ws is_ws]. 
  change (is_ws dquote) with false. cbn iota.
  change (Ascii.eqb dquote dquote) with true. cbn iota.
  rewrite parse_chars_quote_body. reflexivity.
Qed.

Lemma parse_item (e : value) :
  parses_back e ->
  forall n rest, (String.length (item e) < n)%nat -> ends_number rest = true ->
  parse_value n (item e +:+ rest) = Some (element_roundtrip e, rest).
Proof.
  intros He n rest Hn Hrest. unfold item in *.
  destruct (serialize e) as [t|] eqn:E.
  - simpl in *. rewrite (He t E n rest Hn Hrest).
    destruct e; try reflexivity. discriminate.
  - apply serialize_none in E. subst e. simpl in *.
    destruct n as [|n]; [lia|]. reflexivity.
Qed.

Lemma parse_elements_text (l : list value) :
  Forall parses_back l -> l <> [] ->
  forall n rest, (String.length (join "," (map item l)) + 2 <= n)%nat ->
  parse_elements n (join "," (map item l) +:+ String "]" rest)
  = Some (map element_roundtrip l, rest).
Proof.
  induction 1 as [|e l He Hl IH]; [congruence|]. intros _ n rest Hn.
  destruct n as [|n]; [lia|]. rewrite elements_step.
  destruct l as [|e' l'].
  - simpl in *. rewrite (parse_item e He); [|lia|reflexivity]. reflexivity.
  - change (join "," (map item (e :: e' :: l')))
      with (item e +:+ "," +:+ join "," (map item (e' :: l'))) in *.
    rewrite length_append in Hn. cbn [String.append String.length] in Hn.
    rewrite !append_assoc. cbn [String.append].
    rewrite (parse_item e He); [|lia|reflexivity].
    cbn [skip_ws is_ws]. change (is_ws ",") with false. cbn iota.
    change (Ascii.eqb "," ",") with true. cbn iota.
    rewrite IH; [reflexivity | congruence | lia].
Qed.

Lemma omap_member_cons (k : string) (x : value) (fs : PlainObject) :
  omap member_text ((k, x) :: fs) =
  match serialize x with
  | Some t => (quote k +:+ ":" +:+ t) :: omap member_text fs
  | None => omap member_text fs
  end.
Proof. cbn [omap list_omap]. unfold member_text at 1. cbn [fst snd]. destruct (serialize x); reflexivity. Qed.

Lemma members_all_undefined (fs : PlainObject) (acc : PlainObject) :
  omap member_text fs = [] -> fold_left member_roundtrip fs acc = acc.
Proof.
  induction fs as [|[k x] fs IH]; [reflexivity|]. rewrite omap_member_cons. simpl.
  destruct (serialize x) eqn:E; [discriminate|].
  apply serialize_none in E. subst x. exact IH.
Qed.

Lemma parse_members_text (fs : PlainObject) :
  Forall (fun kx => parses_back (snd kx)) fs ->
  forall acc n rest, omap member_text fs <> [] ->
  (String.length (join "," (omap member_text fs)) + 2 <= n)%nat ->
  parse_members n acc (join "," (omap member_text fs) +:+ String "}" rest)
  = Some (VObj (fold_left member_roundtrip fs acc), rest).
Proof.
  induction 1 as [|[k x] fs Hx Hfs IH]; [simpl; congruence|].
  intros acc n rest Hne Hn. simpl in Hx.
  rewrite omap_member_cons in *. cbn [fold_left].
  destruct (serialize x) as [t|] eqn:E.
  2:{ apply serialize_none in E. subst x. apply IH; assumption. }
  assert (member_roundtrip acc (k, x) = obj_set k (roundtrip x) acc) as ->.
  { destruct x; try reflexivity. discriminate. }
  destruct n as [|n]; [lia|].
  destruct (omap member_text fs) as [|m ms] eqn:Ems.
  - cbn [join] in *. rewrite !length_append in Hn. cbn [String.length] in Hn.
    rewrite !append_assoc. cbn [String.append]. rewrite members_step.
    rewrite (Hx t E); [|lia|reflexivity].
    cbn [skip_ws is_ws]. change (is_ws "}") with false. cbn iota.
    change (Ascii.eqb "}" ",") with false. change (Ascii.eqb "}" "}") with true. cbn iota.
    rewrite members_all_undefined by assumption. reflexivity.
  - change (join "," ((quote k +:+ ":" +:+ t) :: m :: ms))
      with ((quote k +:+ ":" +:+ t) +:+ "," +:+ join "," (m :: ms)) in *.
    rewrite !length_append in Hn. cbn [String.length String.append] in Hn.
    rewrite !append_assoc. cbn [String.append]. rewrite members_step.
    rewrite (Hx t E); [|lia|reflexivity].
    cbn [skip_ws is_ws]. change (is_ws ",") with false. cbn iota.
    change (Ascii.eqb "," ",") with true. cbn iota.
    apply IH; [congruence | lia].
Qed.

Lemma member_text_starts (fs : PlainObject) (m : string) (ms : list string) :
  omap member_text fs = m :: ms -> exists r, m = String dquote r.
Proof.
  induction fs as [|[k x] fs IH]; [discriminate|].
  rewrite omap_member_cons.
  destruct (serialize x); [|exact IH].
  intros [= <- _]. unfold quote. cbn [String.append]. eauto.
Qed.

Lemma join_head (m : string) (ms : list string) (r : string) :
  m = String dquote r -> exists r', join "," (m :: ms) = String dquote r'.
Proof. intros ->. destruct ms; cbn [join String.append]; eauto. Qed.

Theorem parse_serialize (v : value) : parses_back v.
Proof.
  induction v as [| |b|z|s|l IH|fs IH] using value_ind; intros t Ht n rest Hn Hrest;
    [ discriminate
    | change (Some "null" = Some t) in Ht
    | change (Some (if b then "true" else "false") = Some t) in Ht
    | change (Some (number_to_string z) = Some t) in Ht
    | change (Some (quote s) = Some t) in Ht
    | change (Some (stringify_array l) = Some t) in Ht; unfold stringify_array in Ht
    | change (Some (stringify_object fs) = Some t) in Ht; unfold stringify_object in Ht ];
    injection Ht as <-; (destruct n as [|n]; [lia|]).
  - reflexivity.
  - destruct b; reflexivity.
  - destruct (number_head z) as (c & r & Hz & Hc).
    pose proof (parse_number_text z rest Hrest) as Hp. rewrite Hz in *.
    apply number_dispatch in Hc as (Hws & _ & _ & H1 & H2 & H3 & H4 & H5 & H6).
    cbn [String.append parse_value skip_ws] in *.
    rewrite Hws, H1, H2, H3, H4, H5, H6. exact Hp.
  - unfold quote. cbn [String.append]. rewrite append_assoc. cbn [String.append].
    cbn [parse_value skip_ws]. change (is_ws dquote) with false. cbn iota.
    change (Ascii.eqb dquote "{") with false. change (Ascii.eqb dquote "[") with false.
    change (Ascii.eqb dquote dquote) with true. cbn iota.
    rewrite parse_chars_quote_body. reflexivity.
  - fold item in *. cbn [String.append String.length] in *.
    rewrite length_append in Hn. cbn [String.length] in Hn.
    rewrite append_assoc. cbn [String.append].
    destruct l as [|e l].
    + reflexivity.
    + rewrite array_open.
      * rewrite parse_elements_text; [reflexivity | assumption | congruence | lia].
      * destruct l; [apply starts_value_append, item_starts|].
        change (join "," (map item (e :: v :: l)))
          with (item e +:+ "," +:+ join "," (map item (v :: l))).
        rewrite append_assoc. apply starts_value_append, item_starts.
  - fold member_text in *. cbn [String.append String.length] in *.
    rewrite length_append in Hn. cbn [String.length] in Hn.
    rewrite append_assoc. cbn [String.append].
    change (roundtrip (VObj fs)) with (VObj (fold_left member_roundtrip fs [])).
    destruct (omap member_text fs) as [|m ms] eqn:Ems.
    + rewrite members_all_undefined by assumption. reflexivity.
    + destruct (member_text_starts _ _ _ Ems) as (r & Hm).
      destruct (join_head m ms r Hm) as (r' & Hj).
      pose proof (parse_members_text fs IH [] n rest) as Hp.
      rewrite Ems in Hp. rewrite Hj in *. cbn [String.append] in *.
      rewrite object_open. apply Hp; [congruence | lia].
Qed.

Theorem parse_stringify (v : value) (t : string) :
  stringify v = Some t -> parse t = Some (roundtrip v).
Proof.
  intros Ht. unfold parse.
  pose proof (parse_serialize v t Ht (S (String.length t)) "" (Nat.lt_succ_diag_r _) eq_refl) as H.
  rewrite append_nil_r in H. rewrite H. reflexivity.
Qed.

End JSONFacts.
Import JSONFacts.

(** ** The cache *)

(** C8. [get] returns the stored payload exactly when the key has an
    entry that is not expired, where an entry is expired when
    [now - timestamp > ttl * 1000]: more than [ttl] seconds lie between
    the reading of the clock that [get] makes and the one the entry was
    written at. At [now - timestamp = ttl * 1000] the entry is still
    returned. [get] returns [null] exactly when the key has no entry or
    an expired one. It leaves a live entry in place; an expired one it
    deletes, and [has] on the key is false afterwards. *)
Theorem C8_get_returns_live_entries (w : World) (key : string) :
  (forall payload,
      fst (Cache.get key w) = Normal (Some payload) <->
      exists entry, store w !! key = Some entry
                    /\ clock w (ticks w) - timestamp entry <= ttl entry * 1000
                    /\ result entry = payload)
  /\ (fst (Cache.get key w) = Normal None <->
      store w !! key = None
      \/ exists entry, store w !! key = Some entry
                       /\ clock w (ticks w) - timestamp entry > ttl entry * 1000)
  /\ (forall entry,
        store w !! key = Some entry ->
        clock w (ticks w) - timestamp entry <= ttl entry * 1000 ->
        store (snd (Cache.get key w)) = store w)
  /\ (forall entry,
        store w !! key = Some entry ->
        clock w (ticks w) - timestamp entry > ttl entry * 1000 ->
        fst (Cache.get key w) = Normal None
        /\ store (snd (Cache.get key w)) = base.delete key (store w)
        /\ fst (Cache.has key (snd (Cache.get key w))) = Normal false)
  /\ (store w !! key = None -> Cache.get key w = (Normal None, w)).
Proof.
  assert (Hget : forall entry,
             store w !! key = Some entry ->
             Cache.get key w
             = if clock w (ticks w) - timestamp entry >? ttl entry * 1000
               then (Normal None, with_store (base.delete key) (snd (Date_now w)))
               else (Normal (Some (result entry)), snd (Date_now w))).
  { intros entry E. unfold Cache.get, bind, ret, Cache.expired. rewrite E. cbn.
    destruct (_ >? _); reflexivity. }
  split_and!.
  - intros payload. split.
    + destruct (store w !! key) as [entry|] eqn:E.
      * rewrite (Hget entry eq_refl).
        destruct (Z.gtb_spec (clock w (ticks w) - timestamp entry) (ttl entry * 1000));
          cbn; intros [= <-]. exists entry. split_and!; [reflexivity | lia | reflexivity].
      * unfold Cache.get. rewrite E. discriminate.
    + intros (entry & E & Hlive & <-). rewrite (Hget entry E).
      destruct (Z.gtb_spec (clock w (ticks w) - timestamp entry) (ttl entry * 1000));
        [lia | reflexivity].
  - split.
    + destruct (store w !! key) as [entry|] eqn:E; [|auto].
      rewrite (Hget entry eq_refl).
      destruct (Z.gtb_spec (clock w (ticks w) - timestamp entry) (ttl entry * 1000));
        cbn; [|discriminate].
      intros _. right. exists entry. split; [reflexivity | lia].
    + intros [E|(entry & E & Hexp)].
      * unfold Cache.get. rewrite E. reflexivity.
      * rewrite (Hget entry E).
        destruct (Z.gtb_spec (clock w (ticks w) - timestamp entry) (ttl entry * 1000));
          [reflexivity | lia].
  - intros entry E Hlive. rewrite (Hget entry E).
    destruct (Z.gtb_spec (clock w (ticks w) - timestamp entry) (ttl entry * 1000));
      [lia | reflexivity].
  - intros entry E Hexp. unfold Cache.has, bind, ret. rewrite (Hget entry E).
    destruct (Z.gtb_spec (clock w (ticks w) - timestamp entry) (ttl entry * 1000));
      [|lia].
    cbn [fst snd]. split_and!; [reflexivity | reflexivity |].
    unfold Cache.get. cbn [store with_store]. rewrite lookup_delete_eq. reflexivity.
  - intros E. unfold Cache.get. rewrite E. reflexivity.
Qed.

(** C9. [getMetadata] returns the metadata of whatever entry the store
    holds under the key, without reading the clock and without changing
    anything: also for an entry that has expired and is still in the
    store, for which [get] returns [null]. *)
Theorem C9_getMetadata_ignores_expiry (w : World) (key : string) (entry : CacheEntry) :
  store w !! key = Some entry ->
  Cache.getMetadata key w = (Normal (metadata entry), w)
  /\ (Cache.expired (clock w (ticks w)) entry = true ->
      fst (Cache.get key w) = Normal None
      /\ store (snd (Cache.get key w)) !! key = None).
Proof.
  intros E. split.
  - unfold Cache.getMetadata. rewrite E. reflexivity.
  - intros X. unfold Cache.get, bind, Date_now. rewrite E. simpl. rewrite X. simpl.
    split; [reflexivity | apply lookup_delete_eq].
Qed.

Lemma C9_witness :
  Cache.getMetadata "k" stale_world = (Normal (Some [("source", VStr "test")]), stale_world)
  /\ fst (Cache.get "k" stale_world) = Normal None.
Proof.
  pose proof (C9_getMetadata_ignores_expiry stale_world "k" stale_entry eq_refl) as [H1 H2].
  split; [exact H1 | exact (proj1 (H2 eq_refl))].
Defined.

Lemma C8_witness :
  fst (Cache.get "k" boundary_world) = Normal (Some "payload")
  /\ store (snd (Cache.get "k" boundary_world)) = store boundary_world
  /\ fst (Cache.get "k" stale_world) = Normal None
  /\ fst (Cache.has "k" (snd (Cache.get "k" stale_world))) = Normal false.
Proof.
  destruct (C8_get_returns_live_entries boundary_world "k") as (Hlive & _ & Hkeep & _).
  destruct (C8_get_returns_live_entries stale_world "k") as (_ & _ & _ & Hexpired & _).
  assert (Hnow : 1000 - 0 <= 1 * 1000) by lia.
  assert (Hlater : 5000 - 0 > 1 * 1000) by lia.
  destruct (Hexpired stale_entry eq_refl Hlater) as (Hnull & _ & Hhas).
  split_and!.
  - apply Hlive. exists stale_entry. split_and!; [reflexivity | exact Hnow | reflexivity].
  - exact (Hkeep stale_entry eq_refl Hnow).
  - exact Hnull.
  - exact Hhas.
Defined.

(** ** The parameter validator *)

Lemma validate_property_ok params schema key value :
  validate_property params schema key value = Normal tt <->
  property_ok params schema key value.
Proof.
  unfold validate_property, property_ok.
  destruct (is_required schema key), (has_property key params); simpl;
    destruct (String.eqb_spec (type value) ""); simpl;
    try destruct (String.eqb_spec (typeof_property key params) (type value)); simpl;
    intuition (try congruence).
Qed.

Lemma validate_property_error params schema key value e :
  validate_property params schema key value = Throw e ->
  (is_required schema key = true /\ has_property key params = false
   /\ e = JsError (missing_message key))
  \/ (has_property key params = true /\ type value <> ""
      /\ typeof_property key params <> type value
      /\ e = JsError (invalid_message key (type value) (typeof_property key params))).
Proof.
  unfold validate_property.
  destruct (is_required schema key), (has_property key params); simpl;
    destruct (String.eqb_spec (type value) ""); simpl;
    try destruct (String.eqb_spec (typeof_property key params) (type value)); simpl;
    intros H; try discriminate H; injection H as <-; auto 6.
Qed.

Lemma validate_entries_ok params schema entries :
  validate_entries params schema entries = Normal tt <->
  forall key value, In (key, value) entries -> property_ok params schema key value.
Proof.
  induction entries as [|[k v] entries IH]; simpl.
  - split; [intros _ ? ? [] | reflexivity].
  - destruct (validate_property params schema k v) as [[]|e] eqn:E.
    + apply validate_property_ok in E. rewrite IH. split.
      * intros H key value [[= <- <-]|Hin]; auto.
      * intros H key value Hin. apply H. auto.
    + split; [discriminate|]. intros H.
      assert (validate_property params schema k v = Normal tt) as E'
        by (apply validate_property_ok, H; auto).
      congruence.
Qed.

Lemma validate_entries_error params schema entries e :
  validate_entries params schema entries = Throw e ->
  exists key value, In (key, value) entries /\
    validate_property params schema key value = Throw e.
Proof.
  induction entries as [|[k v] entries IH]; simpl; [discriminate|].
  destruct (validate_property params schema k v) as [[]|e'] eqn:E.
  - intros H. destruct (IH H) as (key & value & Hin & Hv). eauto 6.
  - intros [= <-]. eauto 6.
Qed.

Lemma validate_entries_agree params params' schema entries :
  (forall key value, In (key, value) entries ->
     has_property key params' = has_property key params
     /\ typeof_property key params' = typeof_property key params) ->
  validate_entries params' schema entries = validate_entries params schema entries.
Proof.
  induction entries as [|[k v] entries IH]; simpl; [reflexivity|]. intros H.
  assert (validate_property params' schema k v = validate_property params schema k v) as ->.
  { unfold validate_property. destruct (H k v) as [-> ->]; [left|]; reflexivity. }
  rewrite IH; [reflexivity|]. intros key value Hin. apply (H key value). right. exact Hin.
Qed.

(** C7, as the code has it. [validateParams] succeeds if and only if
    every declared property passes: a required one is present in
    [params], and a present one whose declared type tag is not the
    empty string has it as [typeof]. A failure reports a declared
    property, as a missing required parameter or as an invalid type.
    Whatever [params] holds under other keys is not looked at. *)
Theorem C7_validateParams (params : PlainObject) (schema : ValidationSchema) :
  (validateParams params schema = Normal tt <->
   forall key value, In (key, value) (properties schema) ->
                     property_ok params schema key value)
  /\ (forall e, validateParams params schema = Throw e ->
        exists key value, In (key, value) (properties schema) /\
          ((is_required schema key = true /\ has_property key params = false
            /\ e = JsError (missing_message key))
           \/ (has_property key params = true /\ type value <> ""
               /\ typeof_property key params <> type value
               /\ e = JsError (invalid_message key (type value)
                                 (typeof_property key params)))))
  /\ (forall params',
        (forall key value, In (key, value) (properties schema) ->
           has_property key params' = has_property key params
           /\ typeof_property key params' = typeof_property key params) ->
        validateParams params' schema = validateParams params schema).
Proof.
  unfold validateParams. split; [|split].
  - apply validate_entries_ok.
  - intros e H. destruct (validate_entries_error _ _ _ _ H) as (key & value & Hin & Hv).
    exists key, value. split; [assumption|]. eapply validate_property_error; eauto.
  - intros params' H. apply validate_entries_agree. exact H.
Qed.

(** C7 as claimed fails: a property declared with an empty type tag is
    not type-checked, so [{x: 1}] passes although [typeof 1] is not the
    declared tag. *)
Lemma C7_counterexample :
  ~ (validateParams [("x", VNum 1)] untyped_schema = Normal tt <->
     forall key value, In (key, value) (properties untyped_schema) ->
       (is_required untyped_schema key = true ->
        has_property key [("x", VNum 1)] = true)
       /\ (has_property key [("x", VNum 1)] = true ->
           typeof_property key [("x", VNum 1)] = type value)).
Proof.
  intros [H _]. specialize (H eq_refl "x" _ (or_introl eq_refl)) as [_ H].
  specialize (H eq_refl). discriminate H.
Qed.

Lemma C7_witness :
  validateParams [("msg", VStr "hi"); ("extra", VNum 1)] echo_schema = Normal tt
  /\ validateParams [("msg", VStr "hi"); ("extra", VNum 1)] echo_schema
     = validateParams [("msg", VStr "hi")] echo_schema.
Proof.
  split.
  - apply (proj1 (C7_validateParams _ echo_schema)).
    intros key value [[= <- <-]|[]]. split; [reflexivity|]. intros _ _. reflexivity.
  - apply (proj2 (proj2 (C7_validateParams [("msg", VStr "hi")] echo_schema))).
    intros key value [[= <- <-]|[]]. split; reflexivity.
Defined.

(** ** Chain keys *)

Lemma stepKey_rendered (step : ToolChainStep) :
  stepKey step = fst (rendered step) +:+ ":" +:+ snd (rendered step).
Proof. reflexivity. Qed.

Lemma generateChainKey_stepKeys (steps : list ToolChainStep) :
  Cache.generateChainKey steps = JSON.join "|" (map stepKey steps).
Proof. reflexivity. Qed.

Lemma append_cancel_r (a b r : string) : a +:+ r = b +:+ r -> a = b.
Proof.
  intros H.
  assert (String.length a = String.length b) as Hlen.
  { apply (f_equal String.length) in H. rewrite !length_append in H. lia. }
  revert b H Hlen. induction a as [|x a IH]; intros [|y b] H Hlen; try discriminate.
  - reflexivity.
  - cbn [String.append] in H. injection H as -> H. f_equal. apply IH; auto.
Qed.

Lemma colon_split (a a' b b' : string) :
  contains ":" a = false -> contains ":" a' = false ->
  a +:+ String ":" b = a' +:+ String ":" b' -> a = a' /\ b = b'.
Proof.
  revert a'. induction a as [|x a IH]; intros [|y a'] Ha Ha' H; cbn [String.append] in H.
  - injection H as ->. auto.
  - injection H as <- _. simpl in Ha'. discriminate.
  - injection H as -> _. simpl in Ha. discriminate.
  - injection H as -> H. simpl in Ha, Ha'.
    apply orb_false_iff in Ha as [_ Ha]. apply orb_false_iff in Ha' as [_ Ha'].
    destruct (IH a' Ha Ha' H) as [-> ->]. auto.
Qed.

(** A serialized object is self-delimiting. *)
Lemma object_text_prefix (p1 p2 : PlainObject) (t1 t2 : string) :
  JSON.ends_number t1 = true -> JSON.ends_number t2 = true ->
  JSON.stringify_object p1 +:+ t1 = JSON.stringify_object p2 +:+ t2 ->
  JSON.stringify_object p1 = JSON.stringify_object p2 /\ t1 = t2.
Proof.
  intros H1 H2 H.
  set (n := S (String.length (JSON.stringify_object p1)
              + String.length (JSON.stringify_object p2))).
  assert (String.length (JSON.stringify_object p1) < n)%nat as L1 by (unfold n; lia).
  assert (String.length (JSON.stringify_object p2) < n)%nat as L2 by (unfold n; lia).
  pose proof (parse_serialize (VObj p1) (JSON.stringify_object p1) eq_refl n t1 L1 H1) as P1.
  pose proof (parse_serialize (VObj p2) (JSON.stringify_object p2) eq_refl n t2 L2 H2) as P2.
  rewrite H, P2 in P1. injection P1 as _ <-.
  split; [|reflexivity]. eapply append_cancel_r; eauto.
Qed.

Lemma stepKey_not_empty (step : ToolChainStep) (t : string) : stepKey step +:+ t <> "".
Proof.
  rewrite stepKey_rendered. destruct (fst (rendered step)); discriminate.
Qed.

Lemma join_cons (x : string) (l : list string) :
  JSON.join "|" (x :: l) = x +:+ match l with [] => "" | _ => String "|" (JSON.join "|" l) end.
Proof. destruct l; cbn [JSON.join String.append]; [rewrite append_nil_r|]; reflexivity. Qed.

Lemma chain_key_injective (s1 s2 : list ToolChainStep) :
  (forall step, In step (s1 ++ s2) -> contains ":" (toolName step) = false) ->
  Cache.generateChainKey s1 = Cache.generateChainKey s2 ->
  map rendered s1 = map rendered s2.
Proof.
  rewrite !generateChainKey_stepKeys.
  revert s2. induction s1 as [|x s1 IH]; intros [|y s2] Hnames H.
  - reflexivity.
  - cbn [map] in H. rewrite join_cons in H. symmetry in H. now apply stepKey_not_empty in H.
  - cbn [map] in H. rewrite join_cons in H. now apply stepKey_not_empty in H.
  - cbn [map] in H |- *. rewrite !join_cons, !stepKey_rendered in H.
    rewrite !append_assoc in H. cbn [String.append] in H.
    apply colon_split in H as [Hname H].
    2:{ apply Hnames. left. reflexivity. }
    2:{ apply Hnames. apply in_or_app. right. left. reflexivity. }
    apply object_text_prefix in H as [Htext Htail].
    2:{ destruct s1; reflexivity. }
    2:{ destruct s2; reflexivity. }
    assert (rendered x = rendered y) as -> by (unfold rendered in *; simpl in *; congruence).
    f_equal. apply IH.
    + intros step Hin. apply Hnames. apply in_app_or in Hin as [Hin|Hin].
      * right. apply in_or_app. auto.
      * apply in_or_app. right. right. exact Hin.
    + destruct s1, s2; try discriminate; [reflexivity|].
      injection Htail as Htail. exact Htail.
Qed.

(** C6, as the code has it. The chain key is determined by the sequence
    of (toolName, serialized params) pairs of the steps; and when no
    tool name contains a colon, chains with the same key have the same
    sequence, so that steps in a different order give a different key. *)
Theorem C6_generateChainKey (s1 s2 : list ToolChainStep) :
  (map rendered s1 = map rendered s2 ->
   Cache.generateChainKey s1 = Cache.generateChainKey s2)
  /\ ((forall step, In step (s1 ++ s2) -> contains ":" (toolName step) = false) ->
      map rendered s1 <> map rendered s2 ->
      Cache.generateChainKey s1 <> Cache.generateChainKey s2).
Proof.
  split.
  - intros H. rewrite !generateChainKey_stepKeys.
    assert (map stepKey s1 = map stepKey s2) as ->; [|reflexivity].
    revert s2 H. induction s1 as [|x s1 IH]; intros [|y s2] H; try discriminate; [reflexivity|].
    cbn [map] in *.
    assert (rendered x = rendered y /\ map rendered s1 = map rendered s2) as [Hxy Ht]
      by (split; congruence).
    rewrite (IH _ Ht), !stepKey_rendered, Hxy. reflexivity.
  - intros Hnames Hne Hkey. apply Hne, chain_key_injective; assumption.
Qed.

(** C6 as claimed fails: the two orders of two different steps can have
    the same key, here [t:{}|t:{}|t:{}]. *)
Lemma C6_counterexample :
  ~ (map rendered [step_tt; step_t] <> map rendered [step_t; step_tt] ->
     Cache.generateChainKey [step_tt; step_t] <> Cache.generateChainKey [step_t; step_tt]).
Proof. intros H. apply H; [discriminate | reflexivity]. Qed.

Lemma C6_witness :
  Cache.generateChainKey [step_t; step_u] <> Cache.generateChainKey [step_u; step_t].
Proof.
  apply (proj2 (C6_generateChainKey [step_t; step_u] [step_u; step_t])).
  - intros step [<-|[<-|[<-|[<-|[]]]]]; reflexivity.
  - discriminate.
Defined.

(** ** The chain executor *)

(** *** What the cache holds *)

Lemma same_setting_refl w : same_setting w w.
Proof. repeat split. Qed.

Lemma same_setting_trans w1 w2 w3 :
  same_setting w1 w2 -> same_setting w2 w3 -> same_setting w1 w3.
Proof. unfold same_setting. intuition congruence. Qed.

Lemma halting_stops v : halting v -> stops v.
Proof.
  intros [(fs & m & -> & H & _)|(l & ->)].
  - exists (VBool false). simpl. rewrite H. auto.
  - exists VUndefined. auto.
Qed.

Lemma replayed_shape v : replayed v -> succeeded v \/ halting v.
Proof.
  intros [(fs & -> & H)|(l & ->)].
  - left. unfold succeeded. simpl. rewrite H. reflexivity.
  - right. right. eauto.
Qed.

Lemma own_obj_set_ne k k' v fields :
  k <> k' -> own k (obj_set k' v fields) = own k fields.
Proof.
  intros Hne. induction fields as [|[k0 v0] fields IH]; simpl.
  - destruct (String.eqb_spec k k'); congruence.
  - destruct (String.eqb_spec k' k0) as [->|]; simpl.
    + destruct (String.eqb_spec k k0); congruence.
    + destruct (String.eqb_spec k k0); [reflexivity | exact IH].
Qed.

Lemma parse_stringify_object (fields : PlainObject) :
  JSON.parse (JSON.stringify_object fields)
  = Some (VObj (fold_left JSON.member_roundtrip fields [])).
Proof. apply (parse_stringify (VObj fields)). reflexivity. Qed.

Lemma parse_stringify_array (elems : list value) :
  JSON.parse (JSON.stringify_array elems) = Some (VArr (map JSON.element_roundtrip elems)).
Proof. apply (parse_stringify (VArr elems)). reflexivity. Qed.

Lemma success_result_replayed r step :
  exists fields,
    JSON.parse (JSON.stringify_object (success_result r step)) = Some (VObj fields)
    /\ own "success" fields = Some (VBool true).
Proof.
  rewrite parse_stringify_object. eexists. split; [reflexivity|].
  unfold success_result. cbn [fold_left]. unfold JSON.member_roundtrip at 3. cbn [fst snd obj_set].
  unfold JSON.member_roundtrip. cbn [fst snd].
  destruct r, (metadata_value step); cbn [obj_set];
    rewrite ?own_obj_set_ne by discriminate; reflexivity.
Qed.

Lemma entry_ok_parse key entry :
  entry_ok key entry ->
  String.eqb (result entry) "" = false
  /\ exists v, JSON.parse (result entry) = Some v /\ replayed v.
Proof.
  intros [_ [(step & r & _ & ->)|(steps & rs & _ & -> & _)]].
  - split; [reflexivity|].
    destruct (success_result_replayed r step) as (fs & -> & H).
    eexists. split; [reflexivity|]. left. eauto.
  - split; [reflexivity|]. rewrite parse_stringify_array.
    eexists. split; [reflexivity|]. right. eauto.
Qed.

(** *** The cache operations *)

Lemma get_cases key w :
  (store w !! key = None /\ Cache.get key w = (Normal None, w))
  \/ (exists entry, store w !! key = Some entry
        /\ Cache.expired (clock w (ticks w)) entry = true
        /\ Cache.get key w = (Normal None, with_store (base.delete key) (tick w)))
  \/ (exists entry, store w !! key = Some entry
        /\ Cache.expired (clock w (ticks w)) entry = false
        /\ Cache.get key w = (Normal (Some (result entry)), tick w)).
Proof.
  unfold Cache.get, bind, Date_now, ret, tick.
  destruct (store w !! key) as [entry|]; [|auto]. simpl.
  destruct (Cache.expired _ entry) eqn:X; simpl; eauto 8.
Qed.

Lemma cache_ok_delete key w : cache_ok w -> cache_ok (with_store (base.delete key) w).
Proof.
  intros H k entry. simpl. destruct (decide (key = k)) as [->|Hne].
  - rewrite lookup_delete_eq. discriminate.
  - rewrite lookup_delete_ne by assumption. apply H.
Qed.

Lemma cache_ok_insert key entry w :
  entry_ok key entry -> cache_ok w -> cache_ok (with_store (base.insert key entry) w).
Proof.
  intros He H k entry'. simpl. destruct (decide (key = k)) as [->|Hne].
  - rewrite lookup_insert_eq. intros [= <-]. exact He.
  - rewrite lookup_insert_ne by assumption. apply H.
Qed.

Lemma parse_cached_miss message w :
  parse_cached None message w = (Normal None, w).
Proof. reflexivity. Qed.

Lemma parse_cached_entry key entry message w :
  entry_ok key entry ->
  exists v, parse_cached (Some (result entry)) message w = (Normal (Some v), w)
            /\ JSON.parse (result entry) = Some v /\ replayed v.
Proof.
  intros He. destruct (entry_ok_parse _ _ He) as (Hne & v & Hv & Hr).
  exists v. unfold parse_cached. rewrite Hne, Hv. auto.
Qed.

(** *** One step *)

Lemma executeStep_outcome step context w o w' :
  cache_ok w ->
  executeStep step context w = (o, w') ->
  step_outcome step context w o w' /\ cache_ok w'.
Proof.
  intros Hok H. unfold executeStep in H.
  destruct (tools w !! toolName step) as [tool|] eqn:Htool;
    [|injection H as <- <-; split; [constructor | assumption]].
  destruct (default false (requiresPrevious tool)
            && (length (previousResults context) =? 0)%nat);
    [injection H as <- <-; split; [constructor | assumption]|].
  unfold bind, lift, try_catch, executeTool in H.
  destruct (validateParams (params step) (inputSchema tool)) as [[]|e];
    [|injection H as <- <-; split; [constructor | assumption]].
  destruct (get_cases (stepKey step) w)
    as [(Hnone & Hget)|[(entry & He & Hx & Hget)|(entry & He & Hx & Hget)]];
    rewrite Hget in H; clear Hget.
  - (* no entry *)
    rewrite parse_cached_miss in H.
    destruct (handlers w (length (calls w)) tool (params step) context) as [r|e];
      simpl in H; injection H as <- <-.
    + split.
      * eapply step_succeeds; simpl; eauto.
        -- intros key Hne. rewrite lookup_insert_ne; auto.
        -- rewrite lookup_insert_eq. eauto.
        -- repeat split.
      * apply cache_ok_insert; [|exact Hok]. split; [reflexivity|]. left. eauto.
    + split; [|exact Hok].
      eapply step_fails; simpl; eauto.
      * symmetry. apply delete_id, Hnone.
      * repeat split.
  - (* an expired entry *)
    rewrite parse_cached_miss in H.
    destruct (handlers _ _ tool (params step) context) as [r|e];
      simpl in H; injection H as <- <-.
    + split.
      * eapply step_succeeds; simpl; eauto.
        -- intros key Hne. rewrite lookup_insert_ne, lookup_delete_ne; auto.
        -- rewrite lookup_insert_eq. eauto.
        -- repeat split.
      * apply cache_ok_insert; [split; [reflexivity|]; left; eauto|]. apply cache_ok_delete, Hok.
    + split; [|apply cache_ok_delete, Hok].
      eapply step_fails; simpl; eauto. repeat split.
  - (* a live entry *)
    destruct (parse_cached_entry _ _ "Error parsing cached step result:" (tick w) (Hok _ _ He))
      as (v & Hp & _ & Hv).
    rewrite Hp in H. injection H as <- <-.
    split; [|exact Hok]. apply step_replays, Hv.
Qed.

Lemma step_outcome_setting step context w o w' :
  step_outcome step context w o w' ->
  same_setting w w'
  /\ (forall key, key <> stepKey step -> store w' !! key = store w !! key)
  /\ (calls w' = calls w \/ exists tool, calls w' = (calls w ++ [(name tool, params step)])%list).
Proof.
  destruct 1 as [e|v Hv|tool r w' Htool Hcalls Hframe Hentry Hsame|tool e w' Htool Hcalls Hstore Hsame];
    (split; [|split]); eauto using same_setting_refl.
  - repeat split.
  - intros key Hne. rewrite Hstore. apply lookup_delete_ne. congruence.
Qed.

(** *** The loop *)

Lemma succeeded_success_result r step : succeeded (VObj (success_result r step)).
Proof. reflexivity. Qed.

Lemma halting_step_failure e step : halting (VObj (step_failure e step)).
Proof. left. exists (step_failure e step), (error_message e). auto. Qed.

Lemma halting_chain_failure e : halting (VObj (chain_failure e)).
Proof. left. exists (chain_failure e), (error_message e). auto. Qed.

(** With a readable [success], the statements after the push go
    through: on to the next step when it is truthy, [break] when not. *)
Lemma after_push_succeeded v l :
  succeeded v ->
  exists l', after_push v l = Normal (true, l') /\ results l' = results l.
Proof.
  unfold succeeded, after_push. intros H. rewrite H. simpl.
  destruct v; simpl in *; try discriminate; eexists; split; reflexivity.
Qed.

Lemma after_push_stops v l : stops v -> after_push v l = Normal (false, l).
Proof. unfold after_push. intros (s & -> & ->). reflexivity. Qed.

(** One turn of the loop pushes exactly one entry: a success, and the
    loop goes on, or an entry at which it stops. *)
Lemma loop_body_spec step l w o w' :
  cache_ok w ->
  loop_body step l w = (o, w') ->
  exists go l' entry,
    o = Normal (go, l')
    /\ results l' = (results l ++ [entry])%list
    /\ (if go then succeeded entry else halting entry)
    /\ cache_ok w'
    /\ step_outcome step (loop_context l) w (fst (executeStep step (loop_context l) w)) w'
    /\ match fst (executeStep step (loop_context l) w) with
       | Normal result => entry = result
       | Throw error => entry = VObj (chain_failure error)
       end.
Proof.
  intros Hok H. unfold loop_body in H.
  destruct (executeStep step (loop_context l) w) as [o1 w1] eqn:E.
  destruct (executeStep_outcome _ _ _ _ _ Hok E) as [Hout Hok1]. simpl.
  destruct Hout as [e|v Hv|tool r w1 Htool Hcalls Hframe Hentry Hsame|tool e w1 Htool Hcalls Hstore Hsame].
  - injection H as <- <-. exists false, (push (VObj (chain_failure e)) l), (VObj (chain_failure e)).
    split_and!; simpl; auto using halting_chain_failure. constructor.
  - destruct (replayed_shape v Hv) as [Hs|Hs].
    + destruct (after_push_succeeded v (push v l) Hs) as (l' & Ha & Hl').
      rewrite Ha in H. injection H as <- <-. exists true, l', v.
      split_and!; simpl; auto; constructor; exact Hv.
    + rewrite (after_push_stops v _ (halting_stops _ Hs)) in H. injection H as <- <-.
      exists false, (push v l), v. split_and!; simpl; auto; constructor; exact Hv.
  - destruct (after_push_succeeded _ (push (VObj (success_result r step)) l)
                (succeeded_success_result r step)) as (l' & Ha & Hl').
    rewrite Ha in H. injection H as <- <-. exists true, l', (VObj (success_result r step)).
    split_and!; simpl; auto; econstructor; eauto.
  - rewrite (after_push_stops _ _ (halting_stops _ (halting_step_failure e step))) in H. injection H as <- <-.
    exists false, (push (VObj (step_failure e step)) l), (VObj (step_failure e step)).
    split_and!; simpl; auto using halting_step_failure; econstructor; eauto.
Qed.

Lemma loop_spec steps : forall l w o w',
  cache_ok w ->
  loop steps l w = (o, w') ->
  exists l' new,
    o = Normal l'
    /\ results l' = (results l ++ new)%list
    /\ run_shape steps new
    /\ cache_ok w'
    /\ same_setting w w'
    /\ (forall key, (forall step, In step steps -> key <> stepKey step) ->
                    store w' !! key = store w !! key)
    /\ (exists invoked, calls w' = (calls w ++ invoked)%list
                        /\ (length invoked <= length new)%nat).
Proof.
  induction steps as [|step steps IH]; intros l w o w' Hok H; simpl in H.
  - injection H as <- <-. exists l, []. rewrite app_nil_r.
    split_and!; auto using same_setting_refl.
    + left. split; [constructor | reflexivity].
    + exists []. rewrite app_nil_r. auto.
  - unfold bind in H. destruct (loop_body step l w) as [o1 w1] eqn:E.
    destruct (loop_body_spec _ _ _ _ _ Hok E) as (go & l1 & entry & -> & Hl1 & Hentry & Hok1 & Hout & _).
    apply step_outcome_setting in Hout as (Hsame & Hframe & Hcalls).
    simpl in H. destruct go.
    + destruct (IH _ _ _ _ Hok1 H) as (l' & new & -> & Hl' & Hshape & Hok' & Hsame' & Hframe' & inv & Hinv & Hlen).
      exists l', (entry :: new). split_and!; auto.
      * rewrite Hl', Hl1, <- app_assoc. reflexivity.
      * destruct Hshape as [[Hall Hn]|(init & last & -> & Hinit & Hlast & Hn)].
        -- left. split; [constructor; assumption | simpl; congruence].
        -- right. exists (entry :: init), last. split_and!; auto.
           simpl in *. lia.
      * eapply same_setting_trans; eauto.
      * intros key Hkey. rewrite Hframe', Hframe; auto.
        -- apply Hkey. left. reflexivity.
        -- intros s Hs. apply Hkey. right. exact Hs.
      * destruct Hcalls as [Hc|(tool & Hc)].
        -- exists inv. rewrite Hinv, Hc. split; [reflexivity | simpl; lia].
        -- exists ((name tool, params step) :: inv). rewrite Hinv, Hc, <- app_assoc.
           split; [reflexivity | simpl; lia].
    + injection H as <- <-. exists l1, [entry]. split_and!; auto.
      * right. exists [], entry. split_and!; auto. simpl. lia.
      * intros key Hkey. apply Hframe. apply Hkey. left. reflexivity.
      * destruct Hcalls as [Hc|(tool & Hc)].
        -- exists []. rewrite Hc, app_nil_r. split; [reflexivity | simpl; lia].
        -- exists [(name tool, params step)]. rewrite Hc. split; [reflexivity | simpl; lia].
Qed.

(** *** The whole chain *)

Lemma every_success_all rs : Forall succeeded rs -> every_success rs = Normal true.
Proof.
  induction 1 as [|r rs Hr _ IH]; [reflexivity|]. simpl.
  unfold succeeded in Hr. rewrite Hr. exact IH.
Qed.

Lemma every_success_stopped init last :
  Forall succeeded init -> stops last ->
  every_success (init ++ [last]) = Normal false.
Proof.
  intros Hinit (s & Hs & Hf). induction Hinit as [|r rs Hr _ IH]; simpl.
  - rewrite Hs, Hf. reflexivity.
  - unfold succeeded in Hr. rewrite Hr. exact IH.
Qed.

Lemma stops_not_succeeded v : stops v -> ~ succeeded v.
Proof. intros (s & Hs & Hf) H. unfold succeeded in H. rewrite H in Hs. injection Hs as <-. discriminate. Qed.

Lemma run_shape_every steps rs :
  run_shape steps rs ->
  (Forall succeeded rs /\ length rs = length steps /\ every_success rs = Normal true)
  \/ (~ Forall succeeded rs /\ every_success rs = Normal false).
Proof.
  intros [[Hall Hlen]|(init & last & -> & Hinit & Hlast & _)].
  - left. auto using every_success_all.
  - right. apply halting_stops in Hlast.
    split; [|apply every_success_stopped; assumption].
    intros H. apply Forall_app in H as [_ H]. inversion H; subst.
    eapply stops_not_succeeded; eauto.
Qed.

Lemma length_join_cons x y l :
  (String.length x < String.length (JSON.join "|" (x :: y :: l)))%nat.
Proof.
  change (JSON.join "|" (x :: y :: l)) with (x +:+ "|" +:+ JSON.join "|" (y :: l)).
  rewrite length_append. simpl. lia.
Qed.

Lemma length_join_elem z l :
  (2 <= length l)%nat -> In z l ->
  (String.length z < String.length (JSON.join "|" l))%nat.
Proof.
  induction l as [|x l IH]; [simpl; lia|]. intros Hlen [->|Hin].
  - destruct l as [|y l]; [simpl in Hlen; lia|]. apply length_join_cons.
  - destruct l as [|y l]; [destruct Hin|].
    change (JSON.join "|" (x :: y :: l)) with (x +:+ "|" +:+ JSON.join "|" (y :: l)).
    rewrite length_append. cbn [String.append String.length].
    destruct l as [|y' l].
    + destruct Hin as [->|[]]. simpl. lia.
    + specialize (IH ltac:(simpl; lia) Hin). lia.
Qed.

Lemma chain_key_not_step_key steps step :
  (2 <= length steps)%nat -> In step steps ->
  Cache.generateChainKey steps <> stepKey step.
Proof.
  intros Hlen Hin Heq. rewrite generateChainKey_stepKeys in Heq.
  assert (In (stepKey step) (map stepKey steps)) as Hin' by (apply in_map; exact Hin).
  pose proof (length_join_elem _ _ ltac:(rewrite length_map; exact Hlen) Hin') as Hlt.
  rewrite Heq in Hlt. lia.
Qed.

(** A run that does not end in success on every step leaves no entry
    under the chain key, when there was none. *)
Lemma loop_chain_key_absent steps l w l' w' new :
  cache_ok w ->
  store w !! Cache.generateChainKey steps = None ->
  loop steps l w = (Normal l', w') ->
  results l' = (results l ++ new)%list ->
  ~ Forall succeeded new ->
  store w' !! Cache.generateChainKey steps = None.
Proof.
  intros Hok Hnone Hloop Hnew Hfail.
  destruct steps as [|A [|B rest]].
  - simpl in Hloop. injection Hloop as <- <-.
    rewrite <- (app_nil_r (results l)) in Hnew at 1. apply app_inv_head in Hnew as <-.
    exfalso. apply Hfail. constructor.
  - change (Cache.generateChainKey [A]) with (stepKey A) in *.
    simpl in Hloop. unfold bind in Hloop.
    destruct (loop_body A l w) as [o1 w1] eqn:E.
    destruct (loop_body_spec _ _ _ _ _ Hok E)
      as (go & l1 & entry & -> & Hl1 & Hentry & Hok1 & Hout & Hlink).
    simpl in Hloop.
    assert (l' = l1 /\ w' = w1) as [-> ->] by (destruct go; injection Hloop as <- <-; auto).
    rewrite Hl1 in Hnew. apply app_inv_head in Hnew as <-.
    destruct go; [exfalso; apply Hfail; constructor; [assumption | constructor]|].
    destruct Hout as [e|v Hv|tool r w1 Htool Hcalls Hframe Hen Hsame|tool e w1 Htool Hcalls Hstore Hsame].
    + exact Hnone.
    + exact Hnone.
    + simpl in Hlink. subst entry. exfalso.
      eapply stops_not_succeeded; [exact (halting_stops _ Hentry) | apply succeeded_success_result].
    + rewrite Hstore. apply lookup_delete_eq.
  - destruct (loop_spec _ _ _ _ _ Hok Hloop)
      as (l2 & new2 & [= <-] & _ & _ & _ & _ & Hframe & _).
    rewrite Hframe; [exact Hnone|].
    intros step Hin. apply chain_key_not_step_key; [simpl; lia | exact Hin].
Qed.

Lemma executeChain_miss chain w w1 o w' :
  cache_ok w1 -> same_setting w w1 -> calls w1 = calls w ->
  fst (Cache.get (Cache.generateChainKey (steps chain)) w) = Normal None ->
  store w1 !! Cache.generateChainKey (steps chain) = None ->
  (let* l := loop (steps chain)
               {| results := [];
                  loop_context := {| previousResults := []; context_metadata := [] |} |} in
   let* ok := lift (every_success (results l)) in
   let* _ := (if ok
              then Cache.set (Cache.generateChainKey (steps chain))
                     (JSON.stringify_array (results l)) 3600 None
              else ret tt) in
   ret (VArr (results l))) w1 = (o, w') ->
  chain_outcome chain w o w' /\ cache_ok w' /\ same_setting w w'.
Proof.
  intros Hok Hsame Hcalls Hmiss Hnone H. unfold bind at 1 in H.
  destruct (loop (steps chain) _ w1) as [o2 w2] eqn:Hloop.
  destruct (loop_spec _ _ _ _ _ Hok Hloop)
    as (l & new & -> & Hres & Hshape & Hok2 & Hsame2 & _ & inv & Hinv & Hlen).
  simpl in Hres. subst new. rewrite Hcalls in Hinv.
  unfold bind, lift, ret in H.
  destruct (run_shape_every _ _ Hshape) as [(Hall & Hn & Hev)|(Hfail & Hev)];
    rewrite Hev in H.
  - unfold Cache.set, bind, Date_now in H. simpl in H. injection H as <- <-.
    split; [|split].
    + eapply chain_cached with (now := clock w2 (ticks w2)); eauto.
      simpl. apply lookup_insert_eq.
    + apply cache_ok_insert; [|exact Hok2]. split; [reflexivity|].
      right. exists (steps chain), (results l). auto.
    + eapply same_setting_trans; [exact Hsame|]. apply Hsame2.
  - injection H as <- <-. split; [|split].
    + eapply chain_failed; eauto.
      exact (loop_chain_key_absent _ _ w1 l w2 (results l) Hok Hnone Hloop eq_refl Hfail).
    + exact Hok2.
    + eapply same_setting_trans; eauto.
Qed.

Theorem executeChain_spec chain w o w' :
  cache_ok w ->
  executeChain chain w = (o, w') ->
  chain_outcome chain w o w' /\ cache_ok w' /\ same_setting w w'.
Proof.
  intros Hok H. unfold executeChain in H. unfold bind at 1 in H.
  destruct (get_cases (Cache.generateChainKey (steps chain)) w)
    as [(Hnone & Hget)|[(entry & He & Hx & Hget)|(entry & He & Hx & Hget)]].
  - rewrite Hget in H. unfold bind at 1 in H. rewrite parse_cached_miss in H.
    eapply executeChain_miss; eauto using same_setting_refl.
    rewrite Hget. reflexivity.
  - rewrite Hget in H. unfold bind at 1 in H. rewrite parse_cached_miss in H.
    eapply executeChain_miss; [| | | | |exact H].
    + apply cache_ok_delete, Hok.
    + repeat split.
    + reflexivity.
    + rewrite Hget. reflexivity.
    + simpl. apply lookup_delete_eq.
  - rewrite Hget in H. unfold bind at 1 in H.
    destruct (parse_cached_entry _ _ "Error parsing cached chain result:" (tick w) (Hok _ _ He))
      as (v & Hp & Hv & _).
    rewrite Hp in H. injection H as <- <-.
    split; [|split; [exact Hok | repeat split]].
    eapply chain_hit; eauto.
Qed.

Lemma reachable_cache_ok w : reachable w -> cache_ok w.
Proof.
  induction 1 as [clock handlers|w config _ IH|w chain _ IH].
  - intros key entry. simpl. rewrite lookup_empty. discriminate.
  - exact IH.
  - destruct (executeChain chain w) as [o w'] eqn:E.
    apply (executeChain_spec _ _ _ _ IH E).
Qed.

(** *** [executeChain] from a reachable world *)

Lemma executeChain_on_miss chain w :
  fst (Cache.get (Cache.generateChainKey (steps chain)) w) = Normal None ->
  executeChain chain w
  = compute_chain chain (snd (Cache.get (Cache.generateChainKey (steps chain)) w)).
Proof.
  intros Hmiss. unfold executeChain. unfold bind at 1.
  destruct (Cache.get (Cache.generateChainKey (steps chain)) w) as [o w1].
  simpl in Hmiss. subst o. reflexivity.
Qed.

Lemma get_miss_world key w :
  fst (Cache.get key w) = Normal None ->
  cache_ok w ->
  cache_ok (snd (Cache.get key w))
  /\ calls (snd (Cache.get key w)) = calls w
  /\ same_setting w (snd (Cache.get key w))
  /\ store (snd (Cache.get key w)) !! key = None.
Proof.
  intros Hmiss Hok.
  destruct (get_cases key w) as [(Hnone & Hget)|[(entry & He & Hx & Hget)|(entry & He & Hx & Hget)]];
    rewrite Hget in *; simpl in *; try discriminate.
  - split_and!; auto using same_setting_refl.
  - split_and!; auto.
    + apply cache_ok_delete, Hok.
    + repeat split.
    + apply lookup_delete_eq.
Qed.

Lemma run_shape_entries steps rs :
  run_shape steps rs ->
  (length rs <= length steps)%nat
  /\ (forall (i : nat) r, rs !! i = Some r -> (S i < length rs)%nat -> succeeded r)
  /\ (forall r, In r rs -> succeeded r \/ halting r).
Proof.
  intros [[Hall Hlen]|(init & last & -> & Hinit & Hlast & Hlen)]; split_and!.
  - lia.
  - intros i r Hi _. rewrite Forall_forall in Hall. apply Hall.
    apply list_elem_of_lookup. eauto.
  - intros r Hin. left. rewrite Forall_forall in Hall. apply Hall, list_elem_of_In, Hin.
  - exact Hlen.
  - intros i r Hi Hlt. rewrite length_app in Hlt. simpl in Hlt.
    rewrite lookup_app_l in Hi by lia.
    rewrite Forall_forall in Hinit. apply Hinit. apply list_elem_of_lookup. eauto.
  - intros r Hin. apply in_app_or in Hin as [Hin|[<-|[]]]; [left|right; exact Hlast].
    rewrite Forall_forall in Hinit. apply Hinit, list_elem_of_In, Hin.
Qed.

(** From a cache no manager writes, [executeChain] can throw: on a
    cached text [null], the loop catches the failed read of [success]
    on it, but the final [every] reads it again, outside any [try]. *)
Remark corrupt_cache_throws :
  fst (executeChain (chain_of [step_t; step_u]) corrupt_world)
  = Throw (JsError "Cannot read properties of null (reading 'success')").
Proof. vm_compute. reflexivity. Qed.

(** An entry can be a list: step keys and chain keys share the
    cache, and the key of a one-step chain is the key of its step. Once
    the chain [[echo]] is cached, a chain that begins with the same step
    finds the cached list where it expects the step's result, and stops
    there without invoking anything. *)
Remark replayed_list_stops_the_loop :
  fst (executeChain (chain_of [echo_step; second_echo_step])
         (snd (executeChain (chain_of [echo_step]) echo_world)))
  = Normal (VArr [VArr [VObj [("success", VBool true); ("result", VStr "hi")]]])
  /\ calls (snd (executeChain (chain_of [echo_step; second_echo_step])
                   (snd (executeChain (chain_of [echo_step]) echo_world))))
     = calls (snd (executeChain (chain_of [echo_step]) echo_world)).
Proof. split; vm_compute; reflexivity. Qed.

Lemma loop_body_throw step l w e w1 :
  executeStep step (loop_context l) w = (Throw e, w1) ->
  loop_body step l w = (Normal (false, push (VObj (chain_failure e)) l), w1).
Proof. intros H. unfold loop_body. rewrite H. reflexivity. Qed.

Lemma loop_body_failure step l w e w1 :
  executeStep step (loop_context l) w = (Normal (VObj (step_failure e step)), w1) ->
  loop_body step l w = (Normal (false, push (VObj (step_failure e step)) l), w1).
Proof. intros H. unfold loop_body. rewrite H. reflexivity. Qed.

(** C2. When the chain key has no live entry, [executeChain] returns a
    list that is no longer than the chain and in which every entry
    before the last has [success: true]. For a chain [[A; B]] whose
    step [A] fails (it throws, or its tool does), the list is the one
    entry of [A], with [success: false], and the world is left as [A]
    left it: nothing is looked up, invoked or stored for [B], and the
    only invocation there can be is that of the tool of [A]. *)
Theorem C2_stops_at_first_failure (w : World) (chain : ToolChain) :
  reachable w ->
  fst (Cache.get (Cache.generateChainKey (steps chain)) w) = Normal None ->
  exists rs w',
    executeChain chain w = (Normal (VArr rs), w')
    /\ (length rs <= length (steps chain))%nat
    /\ (forall (i : nat) r, rs !! i = Some r -> (S i < length rs)%nat -> succeeded r)
    /\ (forall A B e,
          steps chain = [A; B] ->
          let w1 := snd (Cache.get (Cache.generateChainKey (steps chain)) w) in
          fst (executeStep A initial_context w1) = Throw e
          \/ fst (executeStep A initial_context w1) = Normal (VObj (step_failure e A)) ->
          (exists r, rs = [r] /\ prop "success" r = Normal (VBool false))
          /\ w' = snd (executeStep A initial_context w1)
          /\ (calls w' = calls w
              \/ exists tool, tools w !! toolName A = Some tool
                              /\ calls w' = (calls w ++ [(name tool, params A)])%list)).
Proof.
  intros Hw Hmiss. apply reachable_cache_ok in Hw.
  destruct (executeChain chain w) as [o w'] eqn:E.
  destruct (executeChain_spec _ _ _ _ Hw E) as (Hout & _ & _).
  assert (exists rs, o = Normal (VArr rs) /\ run_shape (steps chain) rs) as (rs & -> & Hshape).
  { destruct Hout as [entry v He Hx Hv|rs w' now _ Hall Hlen Hst Hcalls|rs w' _ Hshape Hfail Hst Hcalls].
    - exfalso.
      destruct (get_cases (Cache.generateChainKey (steps chain)) w)
        as [(Hnone & Hget)|[(entry' & He' & Hx' & Hget)|(entry' & He' & Hx' & Hget)]];
        rewrite Hget in Hmiss; simpl in Hmiss; congruence.
    - exists rs. split; [reflexivity|]. left. auto.
    - exists rs. auto. }
  exists rs, w'. destruct (run_shape_entries _ _ Hshape) as (Hlen & Hinit & _).
  split_and!; auto.
  intros A B e Hsteps w1 HA.
  rewrite (executeChain_on_miss _ _ Hmiss) in E. fold w1 in E.
  destruct (get_miss_world _ _ Hmiss Hw) as (Hok1 & Hcalls1 & Hsame1 & _). fold w1 in Hok1, Hcalls1, Hsame1.
  unfold compute_chain in E. rewrite Hsteps in E.
  destruct (executeStep A initial_context w1) as [oA wA] eqn:EA.
  destruct (executeStep_outcome _ _ _ _ _ Hok1 EA) as (HoutA & _).
  apply step_outcome_setting in HoutA as (_ & _ & HcallsA).
  simpl in HA. cbn [loop] in E. unfold bind at 1 2 in E.
  assert (loop_body A initial_locals w1
          = (Normal (false, push (match oA with
                                  | Normal r => r
                                  | Throw e => VObj (chain_failure e)
                                  end) initial_locals), wA)) as Hbody.
  { destruct HA as [->| ->].
    - apply loop_body_throw. exact EA.
    - apply loop_body_failure. exact EA. }
  rewrite Hbody in E. cbn [fst snd] in E. unfold ret at 1 in E.
  assert (match oA with
          | Normal r => r
          | Throw e => VObj (chain_failure e)
          end = VObj (chain_failure e)
          \/ match oA with
             | Normal r => r
             | Throw e => VObj (chain_failure e)
             end = VObj (step_failure e A)) as Hentry
    by (destruct HA as [->| ->]; auto).
  assert (rs = [match oA with
                | Normal r => r
                | Throw e => VObj (chain_failure e)
                end] /\ w' = wA) as [-> ->].
  { destruct Hentry as [Hr|Hr]; rewrite Hr in E |- *;
      unfold bind, lift, ret in E; simpl in E; injection E as <- <-; auto. }
  split_and!.
  - eexists. split; [reflexivity|]. destruct Hentry as [-> | ->]; reflexivity.
  - reflexivity.
  - rewrite Hcalls1 in HcallsA. destruct HcallsA as [H|(tool & H)]; [left; exact H|].
    right.
    assert (tools w1 !! toolName A = tools w !! toolName A) as Htools
      by (destruct Hsame1 as (-> & _); reflexivity).
    unfold executeStep in EA. rewrite Htools in EA.
    destruct (tools w !! toolName A) as [tool'|] eqn:Ht.
    + exists tool'. split; [reflexivity|].
      destruct (default false (requiresPrevious tool')
                && (length (previousResults initial_context) =? 0)%nat);
        [injection EA as <- <-; rewrite Hcalls1 in H;
         apply (f_equal (@length _)) in H; rewrite length_app in H; simpl in H; lia|].
      revert EA. unfold bind, lift, try_catch, executeTool.
      destruct (validateParams (params A) (inputSchema tool')) as [[]|e'];
        [|intros [= <- <-]; rewrite Hcalls1 in H;
          apply (f_equal (@length _)) in H; rewrite length_app in H; simpl in H; lia].
      destruct (get_cases (stepKey A) w1)
        as [(Hnone & Hget)|[(entry & He & Hx & Hget)|(entry & He & Hx & Hget)]];
        rewrite Hget; clear Hget.
      * rewrite parse_cached_miss.
        destruct (handlers w1 (length (calls w1)) tool' (params A) initial_context);
          simpl; intros [= <- <-]; simpl; rewrite Hcalls1; reflexivity.
      * rewrite parse_cached_miss.
        destruct (handlers _ _ tool' (params A) initial_context);
          simpl; intros [= <- <-]; simpl; rewrite Hcalls1; reflexivity.
      * destruct (parse_cached_entry _ _ "Error parsing cached step result:" (tick w1) (Hok1 _ _ He))
          as (v & Hp & _ & Hv).
        rewrite Hp. intros [= <- <-]. simpl in H. rewrite Hcalls1 in H.
        apply (f_equal (@length _)) in H; rewrite length_app in H; simpl in H; lia.
    + injection EA as <- <-. rewrite Hcalls1 in H.
      apply (f_equal (@length _)) in H; rewrite length_app in H; simpl in H; lia.
Qed.

Lemma reachable_stub_world : reachable stub_world.
Proof. apply reachable_registerTool, reachable_new. Qed.

Lemma C2_witness :
  exists rs w',
    executeChain (chain_of [step_t; step_u]) stub_world = (Normal (VArr rs), w')
    /\ (exists r, rs = [r] /\ prop "success" r = Normal (VBool false))
    /\ (calls w' = calls stub_world
        \/ exists tool, tools stub_world !! "t" = Some tool
                        /\ calls w' = (calls stub_world ++ [(name tool, params step_t)])%list).
Proof.
  destruct (C2_stops_at_first_failure stub_world (chain_of [step_t; step_u])
              reachable_stub_world eq_refl) as (rs & w' & H & _ & _ & HAB).
  destruct (HAB step_t step_u (JsError "Tool execution not implemented") eq_refl
              (or_intror eq_refl)) as (Hr & _ & Hcalls).
  exists rs, w'. split_and!; assumption.
Defined.

(** *** Replaying a cached chain *)

Lemma obj_set_defined k v (acc : PlainObject) k' :
  v <> VUndefined ->
  (forall k0, ~ In (k0, VUndefined) acc) ->
  ~ In (k', VUndefined) (obj_set k v acc).
Proof.
  intros Hv. induction acc as [|[k1 v1] acc IH]; intros Hacc; simpl.
  - intros [[= _ Hx]|[]]. congruence.
  - destruct (String.eqb k k1).
    + intros [[= _ Hx]|Hin]; [congruence|]. apply (Hacc k'). right. exact Hin.
    + intros [[= Hk1 Hx]|Hin].
      * apply (Hacc k1). left. congruence.
      * revert Hin. apply IH. intros k0 Hin. apply (Hacc k0). right. exact Hin.
Qed.

Lemma fold_members_defined (fields acc : PlainObject) :
  (forall k, ~ In (k, VUndefined) acc) ->
  forall k, ~ In (k, VUndefined) (fold_left JSON.member_roundtrip fields acc).
Proof.
  revert acc. induction fields as [|[k x] fields IH]; intros acc Hacc; [exact Hacc|].
  cbn [fold_left]. apply IH. unfold JSON.member_roundtrip. cbn [fst snd].
  destruct x; try exact Hacc;
    intros k'; apply obj_set_defined; try exact Hacc; discriminate.
Qed.

(** What JSON reads back has no property whose value is [undefined]:
    a list with such a property in one of its entries does not come
    back as it was. *)
Lemma roundtrip_drops_undefined (rs : list value) (fields : PlainObject) (k : string) :
  In (VObj fields) rs -> In (k, VUndefined) fields ->
  JSON.roundtrip (VArr rs) <> VArr rs.
Proof.
  intros Hin Hk Heq.
  change (JSON.roundtrip (VArr rs)) with (VArr (map JSON.element_roundtrip rs)) in Heq.
  injection Heq as Heq.
  assert (JSON.element_roundtrip (VObj fields) = VObj fields) as Hfix.
  { clear Hk. induction rs as [|r rs IH]; [destruct Hin|].
    cbn [map] in Heq. injection Heq as Hr Hrs.
    destruct Hin as [->|Hin]; [exact Hr | exact (IH Hin Hrs)]. }
  change (JSON.element_roundtrip (VObj fields))
    with (VObj (fold_left JSON.member_roundtrip fields [])) in Hfix.
  injection Hfix as Hfix.
  apply (fold_members_defined fields [] (fun _ H => H) k). rewrite Hfix. exact Hk.
Qed.

(** C3, as the code has it. After a call that ran the steps and got a
    success from each, a second call with the same steps, made no more
    than 3600 seconds after the list was stored, reads the clock and
    does nothing else: no tool is invoked and the cache is as it was. It
    returns what [JSON.parse] makes of the text [JSON.stringify] wrote
    for the first list. That is not the first list wherever JSON does
    not keep a value: when an entry of the first list has a property
    whose value is [undefined], as the result of every step without
    metadata has, the replayed list differs from it. *)
Theorem C3_second_call_replays (w : World) (chain : ToolChain)
    (rs : list value) (w1 : World) :
  reachable w ->
  fst (Cache.get (Cache.generateChainKey (steps chain)) w) = Normal None ->
  executeChain chain w = (Normal (VArr rs), w1) ->
  Forall succeeded rs ->
  (forall entry, store w1 !! Cache.generateChainKey (steps chain) = Some entry ->
                 clock w1 (ticks w1) - timestamp entry <= 3600 * 1000) ->
  exists text replay,
    JSON.stringify (VArr rs) = Some text
    /\ JSON.parse text = Some replay
    /\ executeChain chain w1 = (Normal replay, tick w1)
    /\ calls (tick w1) = calls w1
    /\ store (tick w1) = store w1
    /\ replay = JSON.roundtrip (VArr rs)
    /\ (forall fields k,
          In (VObj fields) rs -> In (k, VUndefined) fields -> replay <> VArr rs).
Proof.
  intros Hw Hmiss E Hall Hlive. apply reachable_cache_ok in Hw.
  destruct (executeChain_spec _ _ _ _ Hw E) as (Hout & Hok1 & _).
  assert (exists now, store w1 !! Cache.generateChainKey (steps chain)
                      = Some (chain_entry rs now)) as (now & Hst).
  { inversion Hout as [entry v He Hx Hv|rs' w' now' _ _ Hlen Hst Hcalls|rs' w' _ Hshape Hfail Hst Hcalls]; subst.
    - exfalso.
      destruct (get_cases (Cache.generateChainKey (steps chain)) w)
        as [(Hnone & Hget)|[(entry' & He' & Hx' & Hget)|(entry' & He' & Hx' & Hget)]];
        rewrite Hget in Hmiss; simpl in Hmiss; congruence.
    - eauto.
    - contradiction. }
  specialize (Hlive _ Hst). cbn [timestamp chain_entry] in Hlive.
  assert (Hx : Cache.expired (clock w1 (ticks w1)) (chain_entry rs now) = false).
  { unfold Cache.expired. cbn [timestamp ttl chain_entry].
    destruct (Z.gtb_spec (clock w1 (ticks w1) - now) (3600 * 1000)); [lia | reflexivity]. }
  exists (JSON.stringify_array rs), (JSON.roundtrip (VArr rs)).
  split_and!; try reflexivity.
  - apply parse_stringify_array.
  - unfold executeChain, bind.
    destruct (get_cases (Cache.generateChainKey (steps chain)) w1)
      as [(Hnone & Hget)|[(entry' & He' & Hx' & Hget)|(entry' & He' & Hx' & Hget)]];
      try congruence; rewrite Hget.
    assert (entry' = chain_entry rs now) as -> by congruence.
    unfold parse_cached. cbn [result chain_entry].
    change (String.eqb (JSON.stringify_array rs) "") with false. cbn [negb].
    rewrite parse_stringify_array. reflexivity.
  - intros fields k. apply roundtrip_drops_undefined.
Qed.

Lemma reachable_echo_world : reachable echo_world.
Proof. apply reachable_registerTool, reachable_new. Qed.

(** C3 as claimed fails on the specification's own example: the first
    call returns [[{success: true, result: 'hi', metadata: undefined}]],
    the second, served from the cache, [[{success: true, result: 'hi'}]]. *)
Lemma C3_counterexample :
  fst (executeChain (chain_of [echo_step]) echo_world)
  = Normal (VArr [VObj [("success", VBool true); ("result", VStr "hi");
                        ("metadata", VUndefined)]])
  /\ fst (executeChain (chain_of [echo_step])
            (snd (executeChain (chain_of [echo_step]) echo_world)))
     = Normal (VArr [VObj [("success", VBool true); ("result", VStr "hi")]])
  /\ fst (executeChain (chain_of [echo_step])
            (snd (executeChain (chain_of [echo_step]) echo_world)))
     <> fst (executeChain (chain_of [echo_step]) echo_world).
Proof.
  assert (fst (executeChain (chain_of [echo_step]) echo_world)
          = Normal (VArr [VObj [("success", VBool true); ("result", VStr "hi");
                                ("metadata", VUndefined)]])) as H1
    by (vm_compute; reflexivity).
  assert (fst (executeChain (chain_of [echo_step])
                 (snd (executeChain (chain_of [echo_step]) echo_world)))
          = Normal (VArr [VObj [("success", VBool true); ("result", VStr "hi")]])) as H2
    by (vm_compute; reflexivity).
  split; [exact H1|]. split; [exact H2|]. rewrite H1, H2. discriminate.
Qed.

Lemma C3_witness :
  executeChain (chain_of [tagged_echo_step])
    (snd (executeChain (chain_of [tagged_echo_step]) echo_world))
  = (Normal (VArr [VObj (success_result (VStr "hi") tagged_echo_step)]),
     tick (snd (executeChain (chain_of [tagged_echo_step]) echo_world)))
  /\ calls (tick (snd (executeChain (chain_of [tagged_echo_step]) echo_world)))
     = calls (snd (executeChain (chain_of [tagged_echo_step]) echo_world)).
Proof.
  assert (executeChain (chain_of [tagged_echo_step]) echo_world
          = (Normal (VArr [VObj (success_result (VStr "hi") tagged_echo_step)]),
             snd (executeChain (chain_of [tagged_echo_step]) echo_world))) as E.
  { rewrite (surjective_pairing (executeChain (chain_of [tagged_echo_step]) echo_world)) at 1.
    f_equal; vm_compute; reflexivity. }
  destruct (C3_second_call_replays echo_world (chain_of [tagged_echo_step]) _ _
              reachable_echo_world eq_refl E)
    as (text & replay & _ & _ & H & Hcalls & _ & Hreplay & _).
  - repeat constructor.
  - intros entry Hentry. vm_compute in Hentry. injection Hentry as <-.
    vm_compute. discriminate.
  - rewrite Hreplay in H. split; [exact H | exact Hcalls].
Defined.

(** *** Caching the chain result *)

Lemma miss_not_live key w entry :
  fst (Cache.get key w) = Normal None ->
  store w !! key = Some entry ->
  Cache.expired (clock w (ticks w)) entry = true.
Proof.
  intros Hmiss He.
  destruct (get_cases key w) as [(Hnone & Hget)|[(e' & He' & Hx & Hget)|(e' & He' & Hx & Hget)]];
    rewrite Hget in Hmiss; simpl in Hmiss; congruence.
Qed.

(** C4. A call that finds a live entry under the chain key returns
    without storing anything (the world only sees the clock read). A
    call that runs the steps stores its result list under the chain key
    if and only if every entry of the list has [success: true], with a
    TTL of 3600 seconds. When some entry has not, the chain key has no
    entry afterwards, and what the cache answers for the key is what it
    answered before: [get] returns [null] and [getMetadata] returns
    [null], as before the call, when the key had no entry or one that
    the lookup found expired and deleted. *)
Theorem C4_chain_cached_iff_all_succeeded (w : World) (chain : ToolChain) :
  reachable w ->
  (forall entry,
      store w !! Cache.generateChainKey (steps chain) = Some entry ->
      Cache.expired (clock w (ticks w)) entry = false ->
      exists v, executeChain chain w = (Normal v, tick w))
  /\ (fst (Cache.get (Cache.generateChainKey (steps chain)) w) = Normal None ->
      exists rs w',
        executeChain chain w = (Normal (VArr rs), w')
        /\ (Forall succeeded rs <->
            exists now, store w' !! Cache.generateChainKey (steps chain)
                        = Some (chain_entry rs now))
        /\ (~ Forall succeeded rs ->
            store w' !! Cache.generateChainKey (steps chain) = None
            /\ (store w !! Cache.generateChainKey (steps chain) = None ->
                store w' !! Cache.generateChainKey (steps chain)
                = store w !! Cache.generateChainKey (steps chain))
            /\ fst (Cache.get (Cache.generateChainKey (steps chain)) w')
               = fst (Cache.get (Cache.generateChainKey (steps chain)) w)
            /\ fst (Cache.getMetadata (Cache.generateChainKey (steps chain)) w')
               = fst (Cache.getMetadata (Cache.generateChainKey (steps chain)) w))).
Proof.
  intros Hw. apply reachable_cache_ok in Hw.
  destruct (executeChain chain w) as [o w'] eqn:E.
  destruct (executeChain_spec _ _ _ _ Hw E) as (Hout & _ & _).
  split.
  - intros entry He Hx.
    destruct Hout as [entry' v He' Hx' Hv|rs w' now Hmiss Hall Hlen Hst Hcalls|rs w' Hmiss Hshape Hfail Hst Hcalls].
    + eauto.
    + pose proof (miss_not_live _ _ _ Hmiss He). congruence.
    + pose proof (miss_not_live _ _ _ Hmiss He). congruence.
  - intros Hmiss.
    destruct Hout as [entry' v He' Hx' Hv|rs w' now _ Hall Hlen Hst Hcalls|rs w' _ Hshape Hfail Hst Hcalls].
    + pose proof (miss_not_live _ _ _ Hmiss He'). congruence.
    + exists rs, w'. split_and!; [reflexivity | split; eauto | contradiction].
    + exists rs, w'. split_and!; [reflexivity | split | ].
      * contradiction.
      * intros (now & Hnow). congruence.
      * intros _. split_and!.
        -- exact Hst.
        -- intros ->. exact Hst.
        -- rewrite Hmiss. unfold Cache.get. rewrite Hst. reflexivity.
        -- unfold Cache.getMetadata. rewrite Hst.
           destruct (store w !! Cache.generateChainKey (steps chain)) as [entry|] eqn:He;
             [|reflexivity].
           simpl. destruct (Hw _ _ He) as [-> _]. reflexivity.
Qed.

Lemma C4_witness :
  exists rs w',
    executeChain (chain_of [echo_step; step_t]) echo_world = (Normal (VArr rs), w')
    /\ store w' !! Cache.generateChainKey [echo_step; step_t] = None
    /\ is_Some (store w' !! stepKey echo_step).
Proof.
  destruct (proj2 (C4_chain_cached_iff_all_succeeded echo_world
                     (chain_of [echo_step; step_t]) reachable_echo_world) eq_refl)
    as (rs & w' & E & _ & Hfail).
  exists rs, w'. split; [exact E|].
  assert (rs = [VObj (success_result (VStr "hi") echo_step);
                VObj (chain_failure (JsError "Tool not found: t"))]
          /\ is_Some (store w' !! stepKey echo_step)) as [-> Hstep].
  { assert (fst (executeChain (chain_of [echo_step; step_t]) echo_world)
            = Normal (VArr [VObj (success_result (VStr "hi") echo_step);
                            VObj (chain_failure (JsError "Tool not found: t"))])) as H1
      by (vm_compute; reflexivity).
    assert (is_Some (store (snd (executeChain (chain_of [echo_step; step_t]) echo_world))
                       !! stepKey echo_step)) as H2
      by (vm_compute; eauto).
    rewrite E in H1, H2. simpl in H1, H2. injection H1 as ->. auto. }
  split; [|exact Hstep].
  assert (~ Forall succeeded
              [VObj (success_result (VStr "hi") echo_step);
               VObj (chain_failure (JsError "Tool not found: t"))]) as Hnot.
  { intros Hall. inversion Hall as [|? ? _ Hrest]; subst.
    inversion Hrest as [|? ? Hbad _]; subst. discriminate Hbad. }
  exact (proj1 (Hfail Hnot)).
Defined.

(** *** Failed results *)

(** C5, as the code has it. A step whose tool is invoked and throws
    yields [{success: false, result: null, error: message, metadata:
    step.metadata}]. A step that throws before the invocation (its tool
    is not registered, it requires previous results and there are none,
    or its parameters do not validate) is caught by the loop of
    [executeChain], and the entry recorded for it is
    [{success: false, result: null, error: message}], without
    [metadata]. In each case the loop stops. *)
Theorem C5_failed_results (step : ToolChainStep) (l : Locals) (w : World) :
  (tools w !! toolName step = None ->
   loop_body step l w
   = (Normal (false, push (VObj (chain_failure
                                   (JsError ("Tool not found: " +:+ toolName step)))) l), w))
  /\ (forall tool,
        tools w !! toolName step = Some tool ->
        lacks_previous tool (loop_context l) = true ->
        loop_body step l w
        = (Normal (false, push (VObj (chain_failure
                                        (JsError ("Tool " +:+ toolName step
                                                  +:+ " requires previous results")))) l), w))
  /\ (forall tool e,
        tools w !! toolName step = Some tool ->
        lacks_previous tool (loop_context l) = false ->
        validateParams (params step) (inputSchema tool) = Throw e ->
        loop_body step l w = (Normal (false, push (VObj (chain_failure e)) l), w))
  /\ (forall tool e w1,
        tools w !! toolName step = Some tool ->
        lacks_previous tool (loop_context l) = false ->
        validateParams (params step) (inputSchema tool) = Normal tt ->
        Cache.get (stepKey step) w = (Normal None, w1) ->
        handlers w (length (calls w)) tool (params step) (loop_context l) = Throw e ->
        exists w2,
          loop_body step l w = (Normal (false, push (VObj (step_failure e step)) l), w2)
          /\ calls w2 = (calls w ++ [(name tool, params step)])%list)
  /\ (forall e, own "metadata" (chain_failure e) = None
                /\ own "metadata" (step_failure e step) = Some (metadata_value step)).
Proof.
  split_and!.
  - intros Htool. apply loop_body_throw. unfold executeStep. rewrite Htool. reflexivity.
  - intros tool Htool Hprev. apply loop_body_throw. unfold executeStep. rewrite Htool.
    unfold lacks_previous in Hprev. rewrite Hprev. reflexivity.
  - intros tool e Htool Hprev Hv. apply loop_body_throw. unfold executeStep. rewrite Htool.
    unfold lacks_previous in Hprev. rewrite Hprev. unfold bind, lift. rewrite Hv. reflexivity.
  - intros tool e w1 Htool Hprev Hv Hget Hthrow.
    assert (calls w1 = calls w /\ handlers w1 = handlers w) as [Hc Hh].
    { destruct (get_cases (stepKey step) w)
        as [(Hnone & Hg)|[(en & He & Hx & Hg)|(en & He & Hx & Hg)]];
        rewrite Hg in Hget; try discriminate Hget; injection Hget as <-; auto. }
    eexists. split.
    + apply loop_body_failure. unfold executeStep. rewrite Htool.
      unfold lacks_previous in Hprev. rewrite Hprev.
      unfold bind, lift, try_catch, executeTool. rewrite Hv, Hget, parse_cached_miss.
      cbv beta.
      assert (handlers w1 (length (calls w1)) tool (params step) (loop_context l) = Throw e)
        as -> by (rewrite Hc, Hh; exact Hthrow).
      reflexivity.
    + simpl. rewrite Hc. reflexivity.
  - intros e. split; reflexivity.
Qed.

(** C5 as claimed fails: for a step with metadata that names an
    unregistered tool, the list holds
    [{success: false, result: null, error: 'Tool not found:
    missing_tool'}], not the record with the metadata of the step. *)
Lemma C5_counterexample :
  fst (executeChain (chain_of [tagged_missing_step]) stub_world)
  = Normal (VArr [VObj [("success", VBool false); ("result", VNull);
                        ("error", VStr "Tool not found: missing_tool")]])
  /\ fst (executeChain (chain_of [tagged_missing_step]) stub_world)
     <> Normal (VArr [VObj [("success", VBool false); ("result", VNull);
                            ("error", VStr "Tool not found: missing_tool");
                            ("metadata", VObj [("tag", VNum 1)])]]).
Proof.
  assert (fst (executeChain (chain_of [tagged_missing_step]) stub_world)
          = Normal (VArr [VObj [("success", VBool false); ("result", VNull);
                                ("error", VStr "Tool not found: missing_tool")]])) as H
    by (vm_compute; reflexivity).
  split; [exact H|]. rewrite H. discriminate.
Qed.

Lemma C5_witness :
  (exists w2,
     loop_body tagged_t_step initial_locals stub_world
     = (Normal (false, push (VObj (step_failure (JsError "Tool execution not implemented")
                                     tagged_t_step)) initial_locals), w2)
     /\ calls w2 = [("t", [])])
  /\ loop_body tagged_missing_step initial_locals stub_world
     = (Normal (false, push (VObj (chain_failure (JsError "Tool not found: missing_tool")))
                         initial_locals), stub_world).
Proof.
  destruct (C5_failed_results tagged_t_step initial_locals stub_world)
    as (_ & _ & _ & Hinvoke & _).
  destruct (C5_failed_results tagged_missing_step initial_locals stub_world)
    as (Hmissing & _).
  split.
  - exact (Hinvoke (plain_tool "t") (JsError "Tool execution not implemented") stub_world
             eq_refl eq_refl eq_refl eq_refl eq_refl).
  - exact (Hmissing eq_refl).
Defined.

(** *** The empty chain *)

Lemma entry_ok_empty_key entry : entry_ok "" entry -> result entry = "[]".
Proof.
  intros [_ [(step & r & Hkey & _)|(steps & rs & Hkey & -> & Hlen)]].
  - exfalso. symmetry in Hkey. rewrite <- (append_nil_r (stepKey step)) in Hkey.
    exact (stepKey_not_empty _ _ Hkey).
  - destruct steps as [|x steps].
    + destruct rs; [reflexivity | discriminate].
    + exfalso. rewrite generateChainKey_stepKeys in Hkey. cbn [map] in Hkey.
      rewrite join_cons in Hkey. symmetry in Hkey. exact (stepKey_not_empty _ _ Hkey).
Qed.

(** C10. On a chain without steps, [executeChain] returns the empty
    list and invokes no tool, and afterwards the cache holds the text
    [[]] under the chain key of the empty step sequence, the empty
    string: written by this call (with a TTL of 3600 seconds) when the
    key had no live entry, and still there from an earlier call
    otherwise. *)
Theorem C10_empty_chain (w : World) (chain : ToolChain) :
  reachable w ->
  steps chain = [] ->
  Cache.generateChainKey (steps chain) = ""
  /\ exists w',
       executeChain chain w = (Normal (VArr []), w')
       /\ calls w' = calls w
       /\ (exists entry, store w' !! "" = Some entry /\ result entry = "[]")
       /\ (fst (Cache.get "" w) = Normal None ->
           exists now, store w' !! "" = Some (chain_entry [] now)).
Proof.
  intros Hw Hsteps. apply reachable_cache_ok in Hw.
  split; [rewrite Hsteps; reflexivity|].
  destruct (executeChain chain w) as [o w'] eqn:E.
  destruct (executeChain_spec _ _ _ _ Hw E) as (Hout & _ & _).
  destruct Hout as [entry v He Hx Hv|rs w' now Hmiss Hall Hlen Hst (inv & Hinv & Hn)|rs w' Hmiss Hshape Hfail Hst Hcalls];
    rewrite Hsteps in *; change (Cache.generateChainKey []) with "" in *.
  - exists (tick w). pose proof (entry_ok_empty_key _ (Hw _ _ He)) as Hr.
    rewrite Hr in Hv. vm_compute in Hv. injection Hv as <-.
    split_and!; eauto.
    intros Hmiss. pose proof (miss_not_live _ _ _ Hmiss He). congruence.
  - destruct rs; [|discriminate]. destruct inv; [|simpl in Hn; lia].
    rewrite app_nil_r in Hinv. exists w'. split_and!; eauto.
  - exfalso. destruct Hshape as [[Hall _]|(init & last & -> & _ & _ & Hlen)]; [auto|].
    rewrite length_app in Hlen. simpl in Hlen. lia.
Qed.

Lemma C10_witness :
  exists w',
    executeChain (chain_of []) stub_world = (Normal (VArr []), w')
    /\ calls w' = calls stub_world
    /\ exists now, store w' !! "" = Some (chain_entry [] now).
Proof.
  destruct (C10_empty_chain stub_world (chain_of []) reachable_stub_world eq_refl)
    as (_ & w' & E & Hcalls & _ & Hfresh).
  exists w'. split_and!; [exact E | exact Hcalls | exact (Hfresh eq_refl)].
Defined.

(** * The cache, operation by operation *)

(** ** [set], then [get] *)

Lemma set_world key r t md w :
  Cache.set key r t md w
  = (Normal tt,
     with_store (base.insert key {| result := r; timestamp := clock w (ticks w);
                                    ttl := t; metadata := md |}) (tick w)).
Proof. reflexivity. Qed.

(** X1. After [set(key, result, ttl, metadata)], whatever the key held
    before, the next [get(key)] returns [result] exactly when the clock
    has advanced by at most [ttl * 1000] milliseconds between the two
    readings, and [null] exactly when it has advanced by more;
    [getMetadata(key)] returns the metadata given, without reading the
    clock; and the entries of the other keys are as before. *)
Theorem set_then_get (w : World) (key r : string) (t : Z) (md : option PlainObject) :
  (fst (Cache.get key (snd (Cache.set key r t md w))) = Normal (Some r)
   <-> clock w (S (ticks w)) - clock w (ticks w) <= t * 1000)
  /\ (fst (Cache.get key (snd (Cache.set key r t md w))) = Normal None
      <-> clock w (S (ticks w)) - clock w (ticks w) > t * 1000)
  /\ Cache.getMetadata key (snd (Cache.set key r t md w))
     = (Normal md, snd (Cache.set key r t md w))
  /\ (forall k, k <> key ->
        store (snd (Cache.set key r t md w)) !! k = store w !! k).
Proof.
  rewrite set_world. cbn [snd].
  set (entry := {| result := r; timestamp := clock w (ticks w); ttl := t; metadata := md |}).
  assert (Hk : store (with_store (base.insert key entry) (tick w)) !! key = Some entry)
    by apply lookup_insert_eq.
  assert (Hget : fst (Cache.get key (with_store (base.insert key entry) (tick w)))
                 = if Cache.expired (clock w (S (ticks w))) entry
                   then Normal None else Normal (Some r)).
  { unfold Cache.get. rewrite Hk. unfold bind, Date_now, ret. cbn.
    destruct (Cache.expired _ entry); reflexivity. }
  rewrite Hget. unfold Cache.expired. cbn [timestamp ttl entry].
  split_and!.
  - destruct (Z.gtb_spec (clock w (S (ticks w)) - clock w (ticks w)) (t * 1000));
      split; intros; try discriminate; try reflexivity; lia.
  - destruct (Z.gtb_spec (clock w (S (ticks w)) - clock w (ticks w)) (t * 1000));
      split; intros; try discriminate; try reflexivity; lia.
  - unfold Cache.getMetadata. rewrite Hk. reflexivity.
  - intros k Hne. cbn. apply lookup_insert_ne. congruence.
Qed.

(** ** [has] *)

(** X2. [has(key)] is [true] exactly when the key has an entry that is
    not expired at the reading of the clock, whatever its payload; it
    leaves the cache as [get(key)] does, so it evicts an expired entry;
    and once it has answered [false] the key has no entry, and asking
    again answers [false] without reading the clock. *)
Theorem has_reads_like_get (w : World) (key : string) :
  (fst (Cache.has key w) = Normal true
   <-> exists entry, store w !! key = Some entry
                     /\ Cache.expired (clock w (ticks w)) entry = false)
  /\ snd (Cache.has key w) = snd (Cache.get key w)
  /\ (fst (Cache.has key w) = Normal false ->
      store (snd (Cache.has key w)) !! key = None
      /\ Cache.has key (snd (Cache.has key w)) = (Normal false, snd (Cache.has key w))).
Proof.
  assert (Hhas : Cache.has key w
                 = (match fst (Cache.get key w) with
                    | Normal (Some _) => Normal true
                    | Normal None => Normal false
                    | Throw e => Throw e
                    end, snd (Cache.get key w))).
  { unfold Cache.has, bind, ret. destruct (Cache.get key w) as [[[p|]|e] w1]; reflexivity. }
  rewrite Hhas. cbn [fst snd].
  destruct (get_cases key w) as [[Hnone E]|[(entry & He & Hx & E)|(entry & He & Hx & E)]];
    rewrite E; cbn [fst snd].
  - split_and!.
    + split; [discriminate|]. intros (entry & He & _). congruence.
    + reflexivity.
    + intros _. split; [exact Hnone|].
      unfold Cache.has, bind, ret, Cache.get. rewrite Hnone. reflexivity.
  - assert (Hgone : store (with_store (base.delete key) (tick w)) !! key = None)
      by apply lookup_delete_eq.
    split_and!.
    + split; [discriminate|]. intros (entry' & He' & Hx'). congruence.
    + reflexivity.
    + intros _. split; [exact Hgone|].
      unfold Cache.has, bind, ret, Cache.get. rewrite Hgone. reflexivity.
  - split_and!.
    + split; [eauto|reflexivity].
    + reflexivity.
    + discriminate.
Qed.

(** ** [delete] and [clear] *)

Lemma get_absent key w : store w !! key = None -> Cache.get key w = (Normal None, w).
Proof. intros H. unfold Cache.get. rewrite H. reflexivity. Qed.

Lemma has_absent key w : store w !! key = None -> Cache.has key w = (Normal false, w).
Proof. intros H. unfold Cache.has, bind, ret. rewrite (get_absent _ _ H). reflexivity. Qed.

Lemma getMetadata_absent key w :
  store w !! key = None -> Cache.getMetadata key w = (Normal None, w).
Proof. intros H. unfold Cache.getMetadata. rewrite H. reflexivity. Qed.

(** X3. After [delete(key)] the key reads as absent: [get] returns
    [null], [has] answers [false] and [getMetadata] returns [null], none
    of them reading the clock; the other keys keep their entries;
    deleting an absent key changes nothing, and deleting a key just
    set, absent before, restores the store.  After [clear()] every key
    reads as absent, and the registry of tools is as before. *)
Theorem delete_and_clear_forget (w : World) (key : string) :
  (Cache.get key (snd (Cache.delete key w)) = (Normal None, snd (Cache.delete key w))
   /\ Cache.has key (snd (Cache.delete key w)) = (Normal false, snd (Cache.delete key w))
   /\ Cache.getMetadata key (snd (Cache.delete key w))
      = (Normal None, snd (Cache.delete key w))
   /\ (forall k, k <> key -> store (snd (Cache.delete key w)) !! k = store w !! k)
   /\ (store w !! key = None -> snd (Cache.delete key w) = w)
   /\ (forall r t md,
         store w !! key = None ->
         store (snd (Cache.delete key (snd (Cache.set key r t md w)))) = store w))
  /\ (Cache.get key (snd (Cache.clear w)) = (Normal None, snd (Cache.clear w))
      /\ Cache.has key (snd (Cache.clear w)) = (Normal false, snd (Cache.clear w))
      /\ Cache.getMetadata key (snd (Cache.clear w)) = (Normal None, snd (Cache.clear w))
      /\ tools (snd (Cache.clear w)) = tools w).
Proof.
  assert (Hgone : store (snd (Cache.delete key w)) !! key = None)
    by apply lookup_delete_eq.
  assert (Hempty : store (snd (Cache.clear w)) !! key = None) by apply lookup_empty.
  split; split_and!.
  - exact (get_absent _ _ Hgone).
  - exact (has_absent _ _ Hgone).
  - exact (getMetadata_absent _ _ Hgone).
  - intros k Hne. cbn. apply lookup_delete_ne. congruence.
  - intros Hnone. destruct w. cbn in *. unfold with_store. cbn.
    f_equal. apply delete_id. exact Hnone.
  - intros r t md Hnone. cbn. rewrite delete_insert_eq. apply delete_id. exact Hnone.
  - exact (get_absent _ _ Hempty).
  - exact (has_absent _ _ Hempty).
  - exact (getMetadata_absent _ _ Hempty).
  - reflexivity.
Qed.

(** ** [cleanup] *)

Lemma cleanup_world w :
  Cache.cleanup w
  = (Normal tt,
     with_store (filter (fun kv => Cache.expired (clock w (ticks w)) (snd kv) = false))
       (tick w)).
Proof. reflexivity. Qed.

Lemma cleanup_lookup w key :
  store (snd (Cache.cleanup w)) !! key
  = match store w !! key with
    | Some entry => if Cache.expired (clock w (ticks w)) entry then None else Some entry
    | None => None
    end.
Proof.
  rewrite cleanup_world. cbn.
  destruct (store w !! key) as [entry|] eqn:He.
  - destruct (Cache.expired (clock w (ticks w)) entry) eqn:Hx.
    + apply map_lookup_filter_None. right. intros x Hx' Hp. cbn in Hp. congruence.
    + apply map_lookup_filter_Some. split; [exact He | exact Hx].
  - apply map_lookup_filter_None. left. exact He.
Qed.

(** X4. [cleanup()] reads the clock once and keeps exactly the entries
    that are not expired at that reading, each as it was.  What it
    removes was still visible to [getMetadata], which does not look at
    the expiry: for an expired entry [getMetadata] returns the stored
    metadata before the cleanup and [null] after it. *)
Theorem cleanup_keeps_the_live_entries (w : World) (key : string) :
  (forall entry,
      store (snd (Cache.cleanup w)) !! key = Some entry
      <-> store w !! key = Some entry
          /\ clock w (ticks w) - timestamp entry <= ttl entry * 1000)
  /\ (forall entry,
        store w !! key = Some entry ->
        Cache.expired (clock w (ticks w)) entry = true ->
        Cache.getMetadata key w = (Normal (metadata entry), w)
        /\ fst (Cache.getMetadata key (snd (Cache.cleanup w))) = Normal None)
  /\ ticks (snd (Cache.cleanup w)) = S (ticks w)
  /\ tools (snd (Cache.cleanup w)) = tools w.
Proof.
  split_and!.
  - intros entry. rewrite cleanup_lookup.
    destruct (store w !! key) as [e|]; [|split; [discriminate | intros [? _]; discriminate]].
    unfold Cache.expired.
    destruct (Z.gtb_spec (clock w (ticks w) - timestamp e) (ttl e * 1000)).
    + split; [discriminate|]. intros [[= ->] ?]. lia.
    + split; [intros [= ->]; split; [reflexivity | lia] | intros [? _]; assumption].
  - intros entry He Hx. split.
    + unfold Cache.getMetadata. rewrite He. reflexivity.
    + unfold Cache.getMetadata. rewrite cleanup_lookup, He, Hx. reflexivity.
  - reflexivity.
  - reflexivity.
Qed.

Lemma get_answer key w :
  fst (Cache.get key w)
  = match store w !! key with
    | Some entry =>
        if Cache.expired (clock w (ticks w)) entry then Normal None
        else Normal (Some (result entry))
    | None => Normal None
    end
  /\ store (snd (Cache.get key w)) !! key
     = match store w !! key with
       | Some entry => if Cache.expired (clock w (ticks w)) entry then None else Some entry
       | None => None
       end.
Proof.
  destruct (get_cases key w) as [[Hnone E]|[(e & He & Hx & E)|(e & He & Hx & E)]];
    rewrite E; cbn [fst snd].
  - rewrite Hnone. split; reflexivity.
  - rewrite He, Hx. split; [reflexivity | apply lookup_delete_eq].
  - rewrite He, Hx. split; [reflexivity | exact He].
Qed.

Lemma expired_later now now' entry :
  now <= now' -> Cache.expired now entry = true -> Cache.expired now' entry = true.
Proof. unfold Cache.expired. rewrite !Z.gtb_ltb, !Z.ltb_lt. lia. Qed.

(** X5. When the clock does not run backwards between the two
    readings, a [cleanup()] makes no difference to the [get] that
    follows it: the same answer as without the cleanup, and the same
    entry, or none, under the key afterwards. *)
Theorem cleanup_is_transparent_to_get (w : World) (key : string) :
  clock w (ticks w) <= clock w (S (ticks w)) ->
  fst (Cache.get key (snd (Cache.cleanup w))) = fst (Cache.get key (tick w))
  /\ store (snd (Cache.get key (snd (Cache.cleanup w)))) !! key
     = store (snd (Cache.get key (tick w))) !! key.
Proof.
  intros Hmono.
  destruct (get_answer key (snd (Cache.cleanup w))) as [-> ->].
  destruct (get_answer key (tick w)) as [-> ->].
  rewrite cleanup_lookup.
  change (store (tick w) !! key) with (store w !! key).
  change (clock (snd (Cache.cleanup w)) (ticks (snd (Cache.cleanup w))))
    with (clock w (S (ticks w))).
  change (clock (tick w) (ticks (tick w))) with (clock w (S (ticks w))).
  destruct (store w !! key) as [entry|]; [|split; reflexivity].
  destruct (Cache.expired (clock w (ticks w)) entry) eqn:Hx; [|split; reflexivity].
  rewrite (expired_later _ _ _ Hmono Hx). split; reflexivity.
Qed.

(** The clock has to behave for this: set back from 5000 to 500, it
    makes the entry that the cleanup removed at 5000 live again. *)
Remark cleanup_shows_on_a_rewound_clock :
  fst (Cache.get "k" (snd (Cache.cleanup rewound_world))) = Normal None
  /\ fst (Cache.get "k" (tick rewound_world)) = Normal (Some "payload").
Proof. split; reflexivity. Qed.

Lemma cleanup_witness :
  fst (Cache.get "k" (snd (Cache.cleanup stale_world)))
  = fst (Cache.get "k" (tick stale_world)).
Proof.
  exact (proj1 (cleanup_is_transparent_to_get stale_world "k" ltac:(cbn; lia))).
Defined.

(** ** Chain keys of concatenated chains *)

Lemma join_app (a b : list string) :
  JSON.join "|" (a ++ b)
  = match a, b with
    | [], _ => JSON.join "|" b
    | _, [] => JSON.join "|" a
    | _, _ => JSON.join "|" a +:+ "|" +:+ JSON.join "|" b
    end.
Proof.
  induction a as [|x a IH]; [reflexivity|].
  destruct b as [|y b]; [rewrite app_nil_r; reflexivity|].
  change ((x :: a) ++ y :: b)%list with (x :: (a ++ y :: b))%list.
  rewrite join_cons, IH.
  destruct a as [|x' a].
  - cbn [app]. rewrite join_cons. cbn [JSON.join]. reflexivity.
  - cbn [app]. rewrite (join_cons x (x' :: a)). rewrite !append_assoc. reflexivity.
Qed.

(** X6. The key of a concatenation of two chains is the two keys
    joined by a bar, and the key of the other chain when one of them is
    empty; only the empty chain has the empty key; and the key of a
    one-step chain is the cache key of its step. *)
Theorem generateChainKey_of_concatenation (s1 s2 : list ToolChainStep) :
  Cache.generateChainKey (s1 ++ s2)
  = match s1, s2 with
    | [], _ => Cache.generateChainKey s2
    | _, [] => Cache.generateChainKey s1
    | _, _ => Cache.generateChainKey s1 +:+ "|" +:+ Cache.generateChainKey s2
    end
  /\ (Cache.generateChainKey s1 = "" <-> s1 = [])
  /\ (forall step, Cache.generateChainKey [step] = stepKey step).
Proof.
  split_and!.
  - rewrite !generateChainKey_stepKeys, map_app, join_app.
    destruct s1, s2; reflexivity.
  - split; [|intros ->; reflexivity].
    destruct s1 as [|x s1]; [reflexivity|]. intros H. exfalso.
    rewrite generateChainKey_stepKeys in H. cbn [map] in H. rewrite join_cons in H.
    exact (stepKey_not_empty _ _ H).
  - reflexivity.
Qed.

(** * More on the validator *)

Lemma validate_entries_app params schema pre post :
  validate_entries params schema (pre ++ post)
  = match validate_entries params schema pre with
    | Normal _ => validate_entries params schema post
    | Throw e => Throw e
    end.
Proof.
  induction pre as [|[k v] pre IH]; [reflexivity|]. cbn [app validate_entries].
  destruct (validate_property params schema k v); [exact IH | reflexivity].
Qed.

(** X7. Validation reports the first declared property, in the order
    of the schema, that does not check out: as a missing required
    parameter when [params] does not have it, as an invalid type when
    it does. *)
Theorem validateParams_reports_the_first_failure
    (params : PlainObject) (schema : ValidationSchema)
    (pre post : list (string * SchemaProperty)) (key : string) (value : SchemaProperty) :
  properties schema = (pre ++ (key, value) :: post)%list ->
  (forall k v, In (k, v) pre -> property_ok params schema k v) ->
  ~ property_ok params schema key value ->
  validateParams params schema
  = Throw (JsError (if has_property key params
                    then invalid_message key (type value) (typeof_property key params)
                    else missing_message key)).
Proof.
  intros Hprops Hpre Hbad. unfold validateParams. rewrite Hprops, validate_entries_app.
  rewrite (proj2 (validate_entries_ok params schema pre) Hpre). cbn [validate_entries].
  destruct (validate_property params schema key value) as [[]|e] eqn:E.
  - elim Hbad. apply validate_property_ok. exact E.
  - destruct (validate_property_error _ _ _ _ _ E)
      as [(_ & -> & ->)|(-> & _ & _ & ->)]; reflexivity.
Qed.

Lemma first_failure_witness :
  validateParams [("language", VNum 3)] (inputSchema DeepSeekServer.generateCodeConfig)
  = Throw (JsError "Missing required parameter: prompt").
Proof.
  refine (validateParams_reports_the_first_failure
            [("language", VNum 3)] (inputSchema DeepSeekServer.generateCodeConfig)
            [] [("language", DeepSeekServer.property "string" "Target programming language");
                ("temperature", DeepSeekServer.property "number" "Sampling temperature (0-1)")]
            "prompt" (DeepSeekServer.property "string" "The code generation prompt")
            eq_refl _ _).
  - intros k v [].
  - intros [H _]. discriminate (H eq_refl).
Defined.

(** X8. [key in params] also holds for the names every object inherits.
    A parameter declared under such a name, and not given, is never
    reported missing, required or not; it is read as the inherited
    member, a function (an object for [__proto__]), and fails validation
    unless its declared type is empty or says just that. *)
Theorem inherited_names_count_as_present
    (params : PlainObject) (schema : ValidationSchema) (key : string)
    (value : SchemaProperty) :
  inherited key = true ->
  own key params = None ->
  In (key, value) (properties schema) ->
  (forall e, validateParams params schema = Throw e -> e <> JsError (missing_message key))
  /\ typeof_property key params
     = (if String.eqb key "__proto__" then "object" else "function")
  /\ (type value <> "" -> type value <> typeof_property key params ->
      exists e, validateParams params schema = Throw e).
Proof.
  intros Hin Hown Hdecl.
  assert (Hhas : has_property key params = true)
    by (unfold has_property; rewrite Hown; exact Hin).
  split_and!.
  - intros e He. unfold validateParams in He.
    destruct (validate_entries_error _ _ _ _ He) as (k & v & _ & Hk).
    destruct (validate_property_error _ _ _ _ _ Hk)
      as [(_ & Hmissing & ->)|(_ & _ & _ & ->)].
    + intros [= Heq]. congruence.
    + unfold invalid_message, missing_message. intros [=].
  - unfold typeof_property. rewrite Hown, Hin. reflexivity.
  - intros Htyped Hdiffers.
    destruct (validateParams params schema) as [[]|e] eqn:E; [|eauto].
    exfalso. apply Hdiffers. symmetry.
    exact (proj2 (proj1 (validate_entries_ok _ _ _) E _ _ Hdecl) Hhas Htyped).
Qed.

Lemma inherited_names_witness :
  validateParams [] method_schema
  = Throw (JsError "Invalid type for parameter toString: expected string, got function")
  /\ typeof_property "toString" [] = "function".
Proof.
  destruct (inherited_names_count_as_present [] method_schema "toString"
              {| type := "string"; prop_description := None |}
              eq_refl eq_refl (or_introl eq_refl)) as (_ & Htype & _).
  split; [reflexivity | exact Htype].
Defined.

(** * The registry *)

(** X9. Registering a tool under a name that is taken replaces the
    earlier configuration, registrations under different names commute,
    and the cache is not touched: results cached for the earlier
    configuration stay.  From then on a step that names the tool is
    checked against this configuration, its prerequisite and its
    schema, and the steps that name other tools are checked as
    before. *)
Theorem registerTool_last_wins (w : World) (c c' : ChainableToolConfig) :
  (name c' = name c ->
   snd (registerTool c (snd (registerTool c' w))) = snd (registerTool c w))
  /\ (name c' <> name c ->
      snd (registerTool c (snd (registerTool c' w)))
      = snd (registerTool c' (snd (registerTool c w))))
  /\ store (snd (registerTool c w)) = store w
  /\ (forall step context,
        toolName step = name c ->
        rejection (snd (registerTool c w)) step context
        = if lacks_previous c context
          then Some (JsError ("Tool " +:+ toolName step +:+ " requires previous results"))
          else match validateParams (params step) (inputSchema c) with
               | Normal _ => None
               | Throw e => Some e
               end)
  /\ (forall step context,
        toolName step <> name c ->
        rejection (snd (registerTool c w)) step context = rejection w step context).
Proof.
  unfold registerTool, with_tools. cbn [snd tools store ticks calls console clock handlers].
  split_and!.
  - intros ->. f_equal. apply insert_insert_eq.
  - intros Hne. f_equal. apply insert_insert_ne. congruence.
  - reflexivity.
  - intros step context Hname. unfold rejection. cbn [tools].
    rewrite Hname, lookup_insert_eq, <- Hname. reflexivity.
  - intros step context Hname. unfold rejection. cbn [tools].
    rewrite lookup_insert_ne by congruence. reflexivity.
Qed.

(** * Steps and the cache *)

(** ** The checks before the cache *)

Lemma executeStep_rejects step context w e :
  rejection w step context = Some e ->
  executeStep step context w = (Throw e, w).
Proof.
  unfold rejection, executeStep, lacks_previous.
  destruct (tools w !! toolName step) as [tool|]; [|intros [= <-]; reflexivity].
  destruct (default false (requiresPrevious tool)
            && (length (previousResults context) =? 0)%nat);
    [intros [= <-]; reflexivity|].
  unfold bind, lift.
  destruct (validateParams (params step) (inputSchema tool)) as [[]|e'];
    [discriminate | intros [= <-]; reflexivity].
Qed.

Lemma executeStep_passes step context w :
  rejection w step context = None ->
  exists tool,
    tools w !! toolName step = Some tool
    /\ executeStep step context w
       = (let* cachedResult := Cache.get (stepKey step) in
          let* cached := parse_cached cachedResult "Error parsing cached step result:" in
          match cached with
          | Some parsed => ret parsed
          | None =>
              try_catch
                (let* r := executeTool tool (params step) context in
                 let result := success_result r step in
                 let* _ := Cache.set (stepKey step) (JSON.stringify_object result) 3600 None in
                 ret (VObj result))
                (fun error => ret (VObj (step_failure error step)))
          end) w.
Proof.
  unfold rejection, executeStep, lacks_previous.
  destruct (tools w !! toolName step) as [tool|]; [|discriminate].
  destruct (default false (requiresPrevious tool)
            && (length (previousResults context) =? 0)%nat); [discriminate|].
  destruct (validateParams (params step) (inputSchema tool)) as [[]|e'] eqn:Hv;
    [|discriminate].
  intros _. exists tool. split; [reflexivity|].
  unfold bind at 1, lift. reflexivity.
Qed.

Lemma executeStep_normal_passes step context w v w' :
  executeStep step context w = (Normal v, w') -> rejection w step context = None.
Proof.
  intros H. destruct (rejection w step context) as [e|] eqn:R; [|reflexivity].
  rewrite (executeStep_rejects _ _ _ _ R) in H. discriminate.
Qed.

Lemma rejection_same_setting w w' step context :
  tools w' = tools w -> rejection w' step context = rejection w step context.
Proof. intros H. unfold rejection. rewrite H. reflexivity. Qed.

(** ** A step served from the cache *)

(** A live entry under the step key is replayed. *)
Lemma executeStep_hit step context w entry :
  cache_ok w ->
  rejection w step context = None ->
  store w !! stepKey step = Some entry ->
  Cache.expired (clock w (ticks w)) entry = false ->
  exists v, JSON.parse (result entry) = Some v
            /\ executeStep step context w = (Normal v, tick w).
Proof.
  intros Hok Hr He Hx.
  destruct (executeStep_passes _ _ _ Hr) as (tool & _ & ->).
  destruct (get_cases (stepKey step) w)
    as [(Hnone & _)|[(e & He' & Hx' & _)|(e & He' & Hx' & Hget)]]; try congruence.
  assert (e = entry) as -> by congruence.
  destruct (parse_cached_entry _ _ "Error parsing cached step result:" (tick w) (Hok _ _ He))
    as (v & Hp & Hv & _).
  exists v. split; [exact Hv|].
  unfold bind. rewrite Hget, Hp. reflexivity.
Qed.

(** X10. A step that passes the checks of [executeStep] and whose key
    has a live entry is served from the cache: the result is what the
    stored text parses to, no tool is invoked, and the cache is as
    before.  The key is made of the tool name and the parameters only:
    any step with the same two gets the same result, whatever its
    metadata and whatever the context of the chain. *)
Theorem executeStep_replays_a_live_entry
    (w : World) (step : ToolChainStep) (context : ToolChainContext) (entry : CacheEntry) :
  reachable w ->
  rejection w step context = None ->
  store w !! stepKey step = Some entry ->
  Cache.expired (clock w (ticks w)) entry = false ->
  exists v,
    JSON.parse (result entry) = Some v
    /\ executeStep step context w = (Normal v, tick w)
    /\ calls (tick w) = calls w
    /\ store (tick w) = store w
    /\ (forall step' context',
          toolName step' = toolName step -> params step' = params step ->
          rejection w step' context' = None ->
          executeStep step' context' w = (Normal v, tick w)).
Proof.
  intros Hw Hr He Hx. apply reachable_cache_ok in Hw.
  destruct (executeStep_hit _ _ _ _ Hw Hr He Hx) as (v & Hv & E).
  exists v. split_and!; try assumption; try reflexivity.
  intros step' context' Hname Hparams Hr'.
  assert (Hkey : stepKey step' = stepKey step)
    by (unfold stepKey; rewrite Hname, Hparams; reflexivity).
  rewrite <- Hkey in He.
  destruct (executeStep_hit _ _ _ _ Hw Hr' He Hx) as (v' & Hv' & E').
  rewrite E'. congruence.
Qed.

Lemma reachable_warm_world : reachable warm_world.
Proof. apply reachable_executeChain, reachable_echo_world. Qed.

Lemma reachable_cached_world : reachable cached_world.
Proof. apply reachable_executeChain, reachable_echo_world. Qed.

Lemma executeStep_replay_witness :
  executeStep tagged_echo_step initial_context warm_world
  = (Normal (VObj [("success", VBool true); ("result", VStr "hi")]), tick warm_world).
Proof.
  destruct (executeStep_replays_a_live_entry warm_world echo_step initial_context echo_entry
              reachable_warm_world eq_refl eq_refl eq_refl)
    as (v & Hv & _ & _ & _ & Hany).
  rewrite (Hany tagged_echo_step initial_context eq_refl eq_refl eq_refl).
  vm_compute in Hv. injection Hv as <-. reflexivity.
Defined.

(** ** A chain whose first step is refused *)

Lemma get_tools key w : tools (snd (Cache.get key w)) = tools w.
Proof.
  destruct (get_cases key w) as [[_ E]|[(e & _ & _ & E)|(e & _ & _ & E)]];
    rewrite E; reflexivity.
Qed.

Lemma get_calls key w : calls (snd (Cache.get key w)) = calls w.
Proof.
  destruct (get_cases key w) as [[_ E]|[(e & _ & _ & E)|(e & _ & _ & E)]];
    rewrite E; reflexivity.
Qed.

Lemma executeChain_rejected chain w step rest e :
  steps chain = step :: rest ->
  fst (Cache.get (Cache.generateChainKey (steps chain)) w) = Normal None ->
  rejection w step initial_context = Some e ->
  executeChain chain w
  = (Normal (VArr [VObj (chain_failure e)]),
     snd (Cache.get (Cache.generateChainKey (steps chain)) w)).
Proof.
  intros Hsteps Hmiss Hr.
  rewrite (executeChain_on_miss _ _ Hmiss).
  set (w1 := snd (Cache.get (Cache.generateChainKey (steps chain)) w)).
  assert (Hr1 : rejection w1 step initial_context = Some e)
    by (rewrite (rejection_same_setting w w1); [exact Hr | apply get_tools]).
  unfold compute_chain. rewrite Hsteps. cbn [loop]. unfold bind at 1 2.
  rewrite (loop_body_throw step initial_locals w1 e w1 (executeStep_rejects _ _ _ _ Hr1)).
  reflexivity.
Qed.

(** X11. When the first step of a chain does not pass the checks of
    [executeStep], and the chain is not served from the cache,
    [executeChain] returns the one result [{success: false, result:
    null, error}], without metadata, with the message of the failed
    check; no tool is invoked and nothing is stored.  So it is for
    every chain that starts with a tool that requires previous
    results. *)
Theorem first_step_rejected
    (w : World) (chain : ToolChain) (step : ToolChainStep) (rest : list ToolChainStep)
    (e : exn) :
  steps chain = step :: rest ->
  fst (Cache.get (Cache.generateChainKey (steps chain)) w) = Normal None ->
  rejection w step initial_context = Some e ->
  executeChain chain w
  = (Normal (VArr [VObj (chain_failure e)]),
     snd (Cache.get (Cache.generateChainKey (steps chain)) w))
  /\ calls (snd (executeChain chain w)) = calls w
  /\ (forall tool,
        tools w !! toolName step = Some tool ->
        requiresPrevious tool = Some true ->
        e = JsError ("Tool " +:+ toolName step +:+ " requires previous results")).
Proof.
  intros Hsteps Hmiss Hr.
  pose proof (executeChain_rejected _ _ _ _ _ Hsteps Hmiss Hr) as E.
  split_and!.
  - exact E.
  - rewrite E. apply get_calls.
  - intros tool Htool Hreq. unfold rejection, lacks_previous in Hr.
    rewrite Htool, Hreq in Hr.
    change (Some (JsError ("Tool " +:+ toolName step +:+ " requires previous results"))
            = Some e) in Hr.
    congruence.
Qed.

Lemma first_step_rejected_witness :
  executeChain (chain_of [optimize_step]) (DeepSeekServer.chainManager demo_server)
  = (Normal (VArr [VObj (chain_failure
                           (JsError "Tool optimize_code requires previous results"))]),
     DeepSeekServer.chainManager demo_server).
Proof.
  exact (proj1 (first_step_rejected (DeepSeekServer.chainManager demo_server)
                  (chain_of [optimize_step]) optimize_step []
                  (JsError "Tool optimize_code requires previous results")
                  eq_refl eq_refl eq_refl)).
Defined.

(** ** Chains that share a key *)

Lemma executeChain_hit chain w entry :
  cache_ok w ->
  store w !! Cache.generateChainKey (steps chain) = Some entry ->
  Cache.expired (clock w (ticks w)) entry = false ->
  exists v, JSON.parse (result entry) = Some v
            /\ executeChain chain w = (Normal v, tick w).
Proof.
  intros Hok He Hx.
  destruct (get_cases (Cache.generateChainKey (steps chain)) w)
    as [(Hnone & _)|[(e & He' & Hx' & _)|(e & He' & Hx' & Hget)]]; try congruence.
  assert (e = entry) as -> by congruence.
  destruct (parse_cached_entry _ _ "Error parsing cached chain result:" (tick w) (Hok _ _ He))
    as (v & Hp & Hv & _).
  exists v. split; [exact Hv|].
  unfold executeChain, bind. rewrite Hget, Hp. reflexivity.
Qed.

(** X12. A cached chain result is served by key alone: two chains
    with the same chain key, such as chains that differ only in the
    metadata of their steps, get the same value from a live entry, what
    its text parses to, and neither runs a step. *)
Theorem cached_chain_is_served_by_key (w : World) (c1 c2 : ToolChain) (entry : CacheEntry) :
  reachable w ->
  Cache.generateChainKey (steps c2) = Cache.generateChainKey (steps c1) ->
  store w !! Cache.generateChainKey (steps c1) = Some entry ->
  Cache.expired (clock w (ticks w)) entry = false ->
  exists v,
    JSON.parse (result entry) = Some v
    /\ executeChain c1 w = (Normal v, tick w)
    /\ executeChain c2 w = (Normal v, tick w).
Proof.
  intros Hw Hkey He Hx. apply reachable_cache_ok in Hw.
  destruct (executeChain_hit c1 w entry Hw He Hx) as (v & Hv & E1).
  rewrite <- Hkey in He.
  destruct (executeChain_hit c2 w entry Hw He Hx) as (v' & Hv' & E2).
  exists v. split_and!; [exact Hv | exact E1 | rewrite E2; congruence].
Qed.

Lemma served_by_key_witness :
  exists v,
    executeChain (chain_of [echo_step]) cached_world = (Normal v, tick cached_world)
    /\ executeChain (chain_of [tagged_echo_step]) cached_world = (Normal v, tick cached_world).
Proof.
  destruct (cached_chain_is_served_by_key cached_world (chain_of [echo_step])
              (chain_of [tagged_echo_step])
              echo_chain_entry
              reachable_cached_world eq_refl eq_refl eq_refl)
    as (v & _ & H1 & H2).
  exists v. split; assumption.
Defined.

(** ** Step keys and chain keys share the cache *)

Lemma get_other key key' w :
  key' <> key -> store (snd (Cache.get key w)) !! key' = store w !! key'.
Proof.
  intros Hne.
  destruct (get_cases key w) as [[_ E]|[(e & _ & _ & E)|(e & _ & _ & E)]];
    rewrite E; try reflexivity.
  cbn. apply lookup_delete_ne. congruence.
Qed.

Lemma loop_body_list step l w elems w1 :
  executeStep step (loop_context l) w = (Normal (VArr elems), w1) ->
  loop_body step l w = (Normal (false, push (VArr elems) l), w1).
Proof. intros H. unfold loop_body. rewrite H. reflexivity. Qed.

(** X13. The key of a one-step chain is the key of its step, and the
    result list of the chain is written over the result of the step.
    After a one-step chain [[A]] has succeeded, a longer chain that
    starts with [A] and is not itself cached gets, for as long as that
    entry lives, the cached list where the result of [A] is expected:
    the loop stops at it, no tool is invoked, and the call returns the
    list wrapped in a list, which is not cached. *)
Theorem one_step_chain_shadows_its_step
    (w w1 : World) (c1 c2 : ToolChain) (A B : ToolChainStep) (rest : list ToolChainStep)
    (rs : list value) :
  reachable w ->
  steps c1 = [A] ->
  steps c2 = A :: B :: rest ->
  fst (Cache.get (Cache.generateChainKey (steps c1)) w) = Normal None ->
  executeChain c1 w = (Normal (VArr rs), w1) ->
  Forall succeeded rs ->
  fst (Cache.get (Cache.generateChainKey (steps c2)) w1) = Normal None ->
  (forall entry,
      store w1 !! stepKey A = Some entry ->
      Cache.expired
        (clock (snd (Cache.get (Cache.generateChainKey (steps c2)) w1))
               (ticks (snd (Cache.get (Cache.generateChainKey (steps c2)) w1))))
        entry = false) ->
  executeChain c2 w1
  = (Normal (VArr [JSON.roundtrip (VArr rs)]),
     tick (snd (Cache.get (Cache.generateChainKey (steps c2)) w1)))
  /\ calls (snd (executeChain c2 w1)) = calls w1
  /\ store (snd (executeChain c2 w1)) !! Cache.generateChainKey (steps c2) = None.
Proof.
  intros Hw H1 H2 Hmiss1 E1 Hall Hmiss2 Hlive.
  pose proof (reachable_cache_ok _ Hw) as Hok.
  destruct (executeChain_spec _ _ _ _ Hok E1) as (Hout & Hok1 & Hsame).
  (* the first call has stored its list under the key of the step *)
  assert (Hentry : exists now, store w1 !! stepKey A = Some (chain_entry rs now)).
  { inversion Hout as [entry v He Hx Hv|rs' w' now _ _ _ Hst _|rs' w' _ _ Hfail _ _]; subst.
    - pose proof (miss_not_live _ _ _ Hmiss1 He). congruence.
    - exists now. rewrite H1 in Hst. exact Hst.
    - contradiction. }
  destruct Hentry as (now & Hentry).
  (* the step passed its checks then, and passes them now *)
  assert (Hr : rejection w A initial_context = None).
  { destruct (rejection w A initial_context) as [e|] eqn:R; [|reflexivity].
    rewrite (executeChain_rejected c1 w A [] e H1 Hmiss1 R) in E1.
    injection E1 as <- _. inversion Hall as [|? ? Hs _]. discriminate Hs. }
  set (w2 := snd (Cache.get (Cache.generateChainKey (steps c2)) w1)) in *.
  destruct (get_miss_world _ _ Hmiss2 Hok1) as (Hok2 & Hcalls2 & _ & Hnone2).
  fold w2 in Hok2, Hcalls2, Hnone2.
  assert (Hne : stepKey A <> Cache.generateChainKey (steps c2)).
  { intros Heq. apply (chain_key_not_step_key (steps c2) A).
    - rewrite H2. simpl. lia.
    - rewrite H2. left. reflexivity.
    - congruence. }
  assert (Hentry2 : store w2 !! stepKey A = Some (chain_entry rs now))
    by (unfold w2; rewrite get_other; assumption).
  assert (Hr2 : rejection w2 A initial_context = None).
  { rewrite (rejection_same_setting w w2); [exact Hr|].
    unfold w2. rewrite get_tools. apply Hsame. }
  destruct (executeStep_hit A initial_context w2 _ Hok2 Hr2 Hentry2 (Hlive _ Hentry))
    as (v & Hv & Estep).
  cbn [result chain_entry] in Hv. rewrite parse_stringify_array in Hv.
  injection Hv as <-.
  assert (E2 : executeChain c2 w1
               = (Normal (VArr [JSON.roundtrip (VArr rs)]), tick w2)).
  { rewrite (executeChain_on_miss _ _ Hmiss2). fold w2.
    unfold compute_chain. rewrite H2. cbn [loop]. unfold bind at 1 2.
    rewrite (loop_body_list A initial_locals w2 _ _ Estep). reflexivity. }
  rewrite E2. split_and!.
  - reflexivity.
  - exact Hcalls2.
  - exact Hnone2.
Qed.

Lemma shadowing_witness :
  fst (executeChain (chain_of [echo_step; second_echo_step]) cached_world)
  = Normal (VArr [VArr [VObj [("success", VBool true); ("result", VStr "hi")]]]).
Proof.
  destruct (one_step_chain_shadows_its_step echo_world cached_world
              (chain_of [echo_step]) (chain_of [echo_step; second_echo_step])
              echo_step second_echo_step []
              [VObj (success_result (VStr "hi") echo_step)]
              reachable_echo_world eq_refl eq_refl eq_refl) as (E & _).
  - rewrite (surjective_pairing (executeChain (chain_of [echo_step]) echo_world)) at 1.
    f_equal; vm_compute; reflexivity.
  - repeat constructor.
  - reflexivity.
  - intros entry He. vm_compute in He. injection He as <-. reflexivity.
  - rewrite E. reflexivity.
Defined.

(** ** Retrying a failed chain *)

Lemma succeeded_step_failure e step : ~ succeeded (VObj (step_failure e step)).
Proof. discriminate. Qed.

Lemma succeeded_chain_failure e : ~ succeeded (VObj (chain_failure e)).
Proof. discriminate. Qed.

(** A step that succeeds leaves its result in the cache. *)
Lemma executeStep_success_stored step context w v w' :
  cache_ok w ->
  executeStep step context w = (Normal v, w') ->
  succeeded v ->
  rejection w step context = None
  /\ exists entry v',
       store w' !! stepKey step = Some entry
       /\ JSON.parse (result entry) = Some v'
       /\ succeeded v'.
Proof.
  intros Hok E Hv.
  pose proof (executeStep_normal_passes _ _ _ _ _ E) as R. split; [exact R|].
  destruct (executeStep_passes _ _ _ R) as (tool & Htool & Eq). rewrite Eq in E. clear Eq.
  unfold bind, try_catch, executeTool in E.
  destruct (get_cases (stepKey step) w)
    as [(Hnone & Hget)|[(entry & He & Hx & Hget)|(entry & He & Hx & Hget)]];
    rewrite Hget in E; clear Hget.
  - rewrite parse_cached_miss in E.
    destruct (handlers w (length (calls w)) tool (params step) context) as [r|e];
      simpl in E; injection E as <- <-; [|elim (succeeded_step_failure _ _ Hv)].
    destruct (success_result_replayed r step) as (fields & Hp & Hs).
    eexists _, (VObj fields). simpl. rewrite lookup_insert_eq. split_and!; eauto.
    unfold succeeded. cbn [prop]. rewrite Hs. reflexivity.
  - rewrite parse_cached_miss in E.
    destruct (handlers _ _ tool (params step) context) as [r|e];
      simpl in E; injection E as <- <-; [|elim (succeeded_step_failure _ _ Hv)].
    destruct (success_result_replayed r step) as (fields & Hp & Hs).
    eexists _, (VObj fields). simpl. rewrite lookup_insert_eq. split_and!; eauto.
    unfold succeeded. cbn [prop]. rewrite Hs. reflexivity.
  - destruct (parse_cached_entry _ _ "Error parsing cached step result:" (tick w) (Hok _ _ He))
      as (v0 & Hp & Hparse & _).
    rewrite Hp in E. injection E as <- <-.
    exists entry, v0. split_and!; auto.
Qed.

Lemma compute_chain_failed chain w rs w1 :
  cache_ok w ->
  compute_chain chain w = (Normal (VArr rs), w1) ->
  ~ Forall succeeded rs ->
  exists l', loop (steps chain) initial_locals w = (Normal l', w1) /\ results l' = rs.
Proof.
  intros Hok E Hfail. unfold compute_chain, bind, lift, ret in E.
  destruct (loop (steps chain) initial_locals w) as [o wl] eqn:El.
  destruct (loop_spec _ _ _ _ _ Hok El) as (l' & new & -> & Hres & Hshape & _).
  cbn [results initial_locals app] in Hres. rewrite <- Hres in Hshape.
  destruct (run_shape_every _ _ Hshape) as [(Hall & _ & Hev)|(_ & Hev)];
    rewrite Hev in E; cbn in E; injection E as <- <-.
  - contradiction.
  - exists l'. auto.
Qed.

Lemma compute_chain_from_loop chain w l' wl :
  loop (steps chain) initial_locals w = (Normal l', wl) ->
  run_shape (steps chain) (results l') ->
  exists w', compute_chain chain w = (Normal (VArr (results l')), w')
             /\ calls w' = calls wl.
Proof.
  intros El Hshape. unfold compute_chain, bind, lift, ret. rewrite El.
  destruct (run_shape_every _ _ Hshape) as [(_ & _ & Hev)|(_ & Hev)]; rewrite Hev; cbn;
    eexists; split; reflexivity.
Qed.


Lemma loop_two A B l w l' w' :
  cache_ok w ->
  loop [A; B] l w = (Normal l', w') ->
  (exists entry, results l' = (results l ++ [entry])%list /\ halting entry
                 /\ loop_body A l w = (Normal (false, l'), w'))
  \/ (exists la wa go entryA entryB,
        loop_body A l w = (Normal (true, la), wa)
        /\ loop_body B la wa = (Normal (go, l'), w')
        /\ results la = (results l ++ [entryA])%list
        /\ results l' = (results l ++ [entryA; entryB])%list
        /\ succeeded entryA
        /\ (if go then succeeded entryB else halting entryB)).
Proof.
  intros Hok H. cbn [loop] in H. unfold bind, ret in H.
  destruct (loop_body A l w) as [oa wa] eqn:EA.
  destruct (loop_body_spec _ _ _ _ _ Hok EA) as (go & la & entryA & -> & Hla & HA & Hoka & _).
  cbn [fst snd] in H. destruct go.
  - right. destruct (loop_body B la wa) as [ob wb] eqn:EB.
    destruct (loop_body_spec _ _ _ _ _ Hoka EB) as (go & lb & entryB & -> & Hlb & HB & _).
    cbn [fst snd] in H.
    assert (lb = l' /\ wb = w') as [-> ->] by (destruct go; injection H; auto).
    exists la, wa, go, entryA, entryB. split_and!; auto.
    rewrite Hlb, Hla, <- app_assoc. reflexivity.
  - left. injection H as <- <-. exists entryA. auto.
Qed.

(** X14. A failed chain is not cached, but the steps that succeeded
    are.  After a two-step chain whose first step succeeded and whose
    second did not, a retry within the lifetime of the first step's
    entry replays that entry, a success, and invokes at most the tool
    of the second step. *)
Theorem retry_replays_the_first_step
    (w w1 : World) (chain : ToolChain) (A B : ToolChainStep) (r f : value) :
  reachable w ->
  steps chain = [A; B] ->
  stepKey B <> stepKey A ->
  fst (Cache.get (Cache.generateChainKey (steps chain)) w) = Normal None ->
  executeChain chain w = (Normal (VArr [r; f]), w1) ->
  succeeded r ->
  ~ succeeded f ->
  (forall entry,
      store w1 !! stepKey A = Some entry ->
      Cache.expired (clock w1 (ticks w1)) entry = false) ->
  exists entry v b w2,
    store w1 !! stepKey A = Some entry
    /\ JSON.parse (result entry) = Some v
    /\ succeeded v
    /\ executeChain chain w1 = (Normal (VArr [v; b]), w2)
    /\ (calls w2 = calls w1
        \/ exists tool, calls w2 = (calls w1 ++ [(name tool, params B)])%list).
Proof.
  intros Hw Hsteps Hkeys Hmiss E1 Hr Hf Hlive.
  pose proof (reachable_cache_ok _ Hw) as Hok.
  destruct (get_miss_world _ _ Hmiss Hok) as (Hok0 & _ & _ & Hnone0).
  rewrite (executeChain_on_miss _ _ Hmiss) in E1.
  set (w0 := snd (Cache.get (Cache.generateChainKey (steps chain)) w)) in *.
  assert (Hfail : ~ Forall succeeded [r; f]).
  { intros H. inversion H as [|? ? _ H']. inversion H'. contradiction. }
  destruct (compute_chain_failed _ _ _ _ Hok0 E1 Hfail) as (l1 & El & Hres).
  destruct (loop_spec _ _ _ _ _ Hok0 El) as (? & ? & [= <-] & _ & _ & Hok1 & Hsame & Hframe & _).
  rewrite Hsteps in El.
  destruct (loop_two _ _ _ _ _ _ Hok0 El)
    as [(entry & Hone & _)|(la & wa & go & eA & eB & EA & EB & Hla & Hl1 & HA & HB)];
    [rewrite Hres in Hone; discriminate|].
  rewrite Hres in Hl1. injection Hl1 as <- <-.
  (* the first step succeeded and left an entry *)
  assert (EstepA : executeStep A initial_context w0 = (Normal r, wa)).
  { destruct (loop_body_spec _ _ _ _ _ Hok0 EA)
      as (? & ? & entry & [= <- <-] & Hla' & _ & _ & _ & Hentry).
    assert (entry = r) as -> by (rewrite Hla in Hla'; injection Hla'; auto).
    cbn [loop_context initial_locals] in Hentry.
    unfold loop_body in EA. cbn [loop_context initial_locals] in EA.
    destruct (executeStep A initial_context w0) as [[v|e] w'] eqn:Es; cbn [fst] in Hentry.
    - subst v. destruct (after_push r (push r initial_locals)) as [[go' l']|e];
        injection EA as _ _ <-; reflexivity.
    - subst r. elim (succeeded_chain_failure _ Hr). }
  destruct (executeStep_success_stored _ _ _ _ _ Hok0 EstepA Hr)
    as (RA & entry & v & Hentry & Hparse & Hv).
  destruct (loop_body_spec _ _ _ _ _ Hok0 EA) as (? & ? & ? & _ & _ & _ & Hoka & _).
  destruct (loop_body_spec _ _ _ _ _ Hoka EB) as (? & ? & ? & _ & _ & _ & _ & HoutB & _).
  apply step_outcome_setting in HoutB as (_ & HframeB & _).
  assert (Hentry1 : store w1 !! stepKey A = Some entry)
    by (rewrite HframeB; [exact Hentry | congruence]).
  (* the retry *)
  assert (Hnone1 : store w1 !! Cache.generateChainKey (steps chain) = None).
  { rewrite Hframe; [exact Hnone0|]. intros step Hin.
    apply chain_key_not_step_key; [rewrite Hsteps; simpl; lia | exact Hin]. }
  pose proof (get_absent _ _ Hnone1) as Hget1.
  assert (R1 : rejection w1 A initial_context = None).
  { rewrite (rejection_same_setting w0 w1); [exact RA | apply Hsame]. }
  destruct (executeStep_hit A initial_context w1 entry Hok1 R1 Hentry1 (Hlive _ Hentry1))
    as (v' & Hparse' & Estep1).
  assert (v' = v) as -> by congruence.
  destruct (after_push_succeeded v (push v initial_locals) Hv) as (la1 & Ha1 & Hla1).
  assert (EA1 : loop_body A initial_locals w1 = (Normal (true, la1), tick w1)).
  { unfold loop_body. cbn [loop_context initial_locals]. rewrite Estep1, Ha1. reflexivity. }
  destruct (loop_body B la1 (tick w1)) as [ob wb] eqn:EB1.
  destruct (loop_body_spec _ _ _ _ _ (Hok1 : cache_ok (tick w1)) EB1)
    as (go1 & lb1 & b & -> & Hlb1 & Hb & _ & HoutB1 & _).
  apply step_outcome_setting in HoutB1 as (_ & _ & HcallsB).
  assert (El1 : loop (steps chain) initial_locals w1 = (Normal lb1, wb)).
  { rewrite Hsteps. cbn [loop]. unfold bind, ret. rewrite EA1. cbn [fst snd].
    rewrite EB1. cbn [fst snd]. destruct go1; reflexivity. }
  assert (Hlist : results lb1 = [v; b]).
  { rewrite Hlb1, Hla1. reflexivity. }
  assert (Hshape : run_shape (steps chain) (results lb1)).
  { rewrite Hlist, Hsteps. destruct go1.
    - left. split; [repeat constructor; assumption | reflexivity].
    - right. exists [v], b. split_and!; auto. }
  destruct (compute_chain_from_loop _ _ _ _ El1 Hshape) as (w2 & E2 & Hcalls2).
  exists entry, v, b, w2. split_and!; auto.
  - rewrite executeChain_on_miss by (rewrite Hget1; reflexivity).
    rewrite Hget1. cbn [snd]. rewrite E2, Hlist. reflexivity.
  - rewrite Hcalls2. exact HcallsB.
Qed.

Lemma retry_witness :
  exists b w2,
    executeChain (chain_of [echo_step; step_t]) warm_world
    = (Normal (VArr [VObj [("success", VBool true); ("result", VStr "hi")]; b]), w2)
    /\ calls w2 = calls warm_world.
Proof.
  destruct (retry_replays_the_first_step echo_world warm_world
              (chain_of [echo_step; step_t]) echo_step step_t
              (VObj (success_result (VStr "hi") echo_step))
              (VObj (chain_failure (JsError "Tool not found: t")))
              reachable_echo_world eq_refl)
    as (entry & v & b & w2 & He & Hv & _ & E & Hcalls).
  - discriminate.
  - reflexivity.
  - rewrite (surjective_pairing (executeChain (chain_of [echo_step; step_t]) echo_world)) at 1.
    f_equal; vm_compute; reflexivity.
  - reflexivity.
  - discriminate.
  - intros entry He. vm_compute in He. injection He as <-. reflexivity.
  - vm_compute in He. injection He as <-. vm_compute in Hv. injection Hv as <-.
    exists b, w2. split; [exact E|].
    assert (Hw2 : calls w2 = calls (snd (executeChain (chain_of [echo_step; step_t]) warm_world)))
      by (rewrite E; reflexivity).
    rewrite Hw2. vm_compute. reflexivity.
Defined.

(** * Failures and the returned list *)














(** * The context of the loop *)

Lemma loop_body_context step l w go l' w' :
  loop_body step l w = (Normal (go, l'), w') ->
  if go
  then exists r,
         results l' = (results l ++ [r])%list
         /\ loop_context l'
            = {| previousResults := previousResults (loop_context l) ++ [r];
                 context_metadata := absorb (context_metadata (loop_context l)) r |}
  else loop_context l' = loop_context l.
Proof.
  unfold loop_body.
  destruct (executeStep step (loop_context l) w) as [[r|e] w1];
    [|intros [= <- <- <-]; reflexivity].
  unfold after_push, absorb.
  destruct (prop "success" r) as [s|e]; [|intros [= <- <- <-]; reflexivity].
  destruct (truthy s); cbn [negb]; [|intros [= <- <- <-]; reflexivity].
  destruct (prop "metadata" r) as [m|e] eqn:Hm; [|intros [= <- <- <-]; reflexivity].
  intros [= <- <- <-]. exists r. rewrite Hm. split; reflexivity.
Qed.

(** X15. The loop keeps [context.previousResults] equal to the
    successes collected so far: when it ends, the results are those the
    context holds, all successes, one per step, or those followed by the
    one entry at which the loop stopped; and [context.metadata] is what
    the successes have added to it, in their order. *)
Theorem loop_context_tracks_results (steps : list ToolChainStep) :
  forall (l l' : Locals) (w w' : World),
  cache_ok w ->
  loop steps l w = (Normal l', w') ->
  exists done,
    previousResults (loop_context l') = (previousResults (loop_context l) ++ done)%list
    /\ context_metadata (loop_context l')
       = fold_left absorb done (context_metadata (loop_context l))
    /\ Forall succeeded done
    /\ (results l' = (results l ++ done)%list /\ length done = length steps
        \/ exists last, results l' = (results l ++ done ++ [last])%list /\ halting last).
Proof.
  induction steps as [|step rest IH]; intros l l' w w' Hok H.
  - injection H as <- <-. exists []. rewrite !app_nil_r. split_and!; auto.
  - cbn [loop] in H. unfold bind in H.
    destruct (loop_body step l w) as [o w1] eqn:E.
    destruct (loop_body_spec _ _ _ _ _ Hok E)
      as (go & l1 & entry & -> & Hres & Hgo & Hok1 & _ & _).
    pose proof (loop_body_context _ _ _ _ _ _ E) as Hctx.
    cbn [fst snd] in H. destruct go.
    + destruct Hctx as (r & Hres' & Hc).
      assert (r = entry) as -> by (rewrite Hres in Hres'; apply app_inj_tail in Hres'; easy).
      destruct (IH _ _ _ _ Hok1 H) as (done & Hp & Hm & Hall & Hshape).
      exists (entry :: done). rewrite Hc in Hp, Hm. cbn [previousResults context_metadata] in *.
      rewrite <- !app_assoc in *. cbn [app] in *. split_and!; auto.
      destruct Hshape as [[Hr Hlen]|(last & Hr & Hlast)]; rewrite Hres in Hr;
        rewrite <- !app_assoc in Hr; cbn [app] in Hr.
      * left. split; [exact Hr | simpl; lia].
      * right. exists last. auto.
    + injection H as <- <-. exists []. rewrite Hctx, !app_nil_r. split_and!; auto.
      right. exists entry. auto.
Qed.

Lemma loop_context_witness :
  exists l' w',
    loop [tagged_echo_step] initial_locals echo_world = (Normal l', w')
    /\ previousResults (loop_context l') = results l'
    /\ context_metadata (loop_context l') = [("tag", VNum 1)].
Proof.
  destruct (loop [tagged_echo_step] initial_locals echo_world) as [[l'|e] w'] eqn:E.
  - destruct (loop_context_tracks_results [tagged_echo_step] initial_locals l' echo_world w'
                (reachable_cache_ok _ reachable_echo_world) E)
      as (done & Hp & Hm & _ & _).
    exists l', w'. vm_compute in E. injection E as <- <-. split_and!; reflexivity.
  - vm_compute in E. discriminate E.
Defined.

Lemma own_obj_set_eq k v fields : own k (obj_set k v fields) = Some v.
Proof.
  induction fields as [|[k0 v0] fields IH]; simpl.
  - rewrite String.eqb_refl. reflexivity.
  - destruct (String.eqb_spec k k0) as [->|Hne]; simpl.
    + rewrite String.eqb_refl. reflexivity.
    + destruct (String.eqb_spec k k0); [contradiction | exact IH].
Qed.

Lemma own_absent k (fields : PlainObject) :
  existsb (String.eqb k) (map fst fields) = false -> own k fields = None.
Proof.
  induction fields as [|[k0 v0] fields IH]; simpl; [reflexivity|].
  destruct (String.eqb k k0); [discriminate | exact IH].
Qed.

Lemma own_fold_set k (l acc : PlainObject) :
  distinct (map fst l) = true ->
  own k (fold_left (fun acc kx => obj_set (fst kx) (snd kx) acc) l acc)
  = match own k l with
    | Some v => Some v
    | None => own k acc
    end.
Proof.
  revert acc. induction l as [|[k0 v0] l IH]; intros acc Hd; [reflexivity|].
  cbn [map fst distinct] in Hd. apply andb_true_iff in Hd as [Hfresh Hd].
  apply negb_true_iff in Hfresh.
  cbn [fold_left fst snd own]. rewrite (IH _ Hd).
  destruct (String.eqb_spec k k0) as [->|Hne].
  - rewrite (own_absent _ _ Hfresh). apply own_obj_set_eq.
  - rewrite own_obj_set_ne by assumption. reflexivity.
Qed.

Lemma own_merge k (a b : PlainObject) :
  distinct (map fst a) = true -> distinct (map fst b) = true ->
  own k (merge a b) = match own k b with Some v => Some v | None => own k a end.
Proof.
  intros Ha Hb. unfold merge. rewrite fold_left_app.
  rewrite (own_fold_set k b _ Hb), (own_fold_set k a [] Ha).
  destruct (own k b); [reflexivity|]. destruct (own k a); reflexivity.
Qed.

(** X16. What a successful result with metadata adds to
    [context.metadata]: under each key the value the result's metadata
    has for it, and the value that was there for the keys it does not
    have. *)
Theorem absorb_later_wins (md m : PlainObject) (fields : PlainObject) (k : string) :
  distinct (map fst md) = true ->
  distinct (map fst m) = true ->
  own "metadata" fields = Some (VObj m) ->
  own k (absorb md (VObj fields))
  = match own k m with
    | Some v => Some v
    | None => own k md
    end.
Proof.
  intros Hd Hd' Hm. unfold absorb. cbn [prop]. rewrite Hm.
  change (own k (merge md m) = match own k m with Some v => Some v | None => own k md end).
  apply own_merge; assumption.
Qed.

Lemma absorb_witness :
  own "tag" (absorb [("tag", VNum 0); ("lang", VStr "c")]
               (VObj (success_result (VStr "hi") tagged_echo_step)))
  = Some (VNum 1)
  /\ own "lang" (absorb [("tag", VNum 0); ("lang", VStr "c")]
                  (VObj (success_result (VStr "hi") tagged_echo_step)))
     = Some (VStr "c").
Proof.
  split.
  - exact (absorb_later_wins [("tag", VNum 0); ("lang", VStr "c")] [("tag", VNum 1)]
             (success_result (VStr "hi") tagged_echo_step) "tag" eq_refl eq_refl eq_refl).
  - exact (absorb_later_wins [("tag", VNum 0); ("lang", VStr "c")] [("tag", VNum 1)]
             (success_result (VStr "hi") tagged_echo_step) "lang" eq_refl eq_refl eq_refl).
Defined.

(** * The manager as shipped *)

Lemma stepKey_nonempty step : stepKey step <> "".
Proof.
  intros H. rewrite <- (append_nil_r (stepKey step)) in H.
  exact (stepKey_not_empty _ _ H).
Qed.

Lemma chain_key_nonempty step rest : Cache.generateChainKey (step :: rest) <> "".
Proof.
  rewrite generateChainKey_stepKeys. cbn [map]. rewrite join_cons.
  apply stepKey_not_empty.
Qed.

Lemma bare_absent w key : bare w -> key <> "" -> store w !! key = None.
Proof.
  intros Hb Hne. destruct (store w !! key) as [entry|] eqn:E; [|reflexivity].
  elim Hne. exact (Hb _ _ E).
Qed.

Lemma executeStep_shipped step context w tool :
  shipped w -> bare w ->
  tools w !! toolName step = Some tool ->
  rejection w step context = None ->
  executeStep step context w
  = (Normal (VObj (step_failure (JsError "Tool execution not implemented") step)),
     invoked tool (params step) w).
Proof.
  intros Hs Hb Htool Hr.
  destruct (executeStep_passes _ _ _ Hr) as (tool' & Htool' & ->).
  assert (tool' = tool) as -> by congruence.
  unfold bind at 1. rewrite (get_absent _ _ (bare_absent _ _ Hb (stepKey_nonempty step))).
  unfold bind at 1. rewrite parse_cached_miss.
  unfold try_catch, bind at 1, executeTool. rewrite Hs. reflexivity.
Qed.

Lemma shipped_miss chain w step rest :
  bare w -> steps chain = step :: rest ->
  Cache.get (Cache.generateChainKey (steps chain)) w = (Normal None, w).
Proof.
  intros Hb Hsteps. apply get_absent, bare_absent; [exact Hb|].
  rewrite Hsteps. apply chain_key_nonempty.
Qed.

Lemma executeChain_shipped_rejects chain w step rest e :
  bare w -> steps chain = step :: rest ->
  rejection w step initial_context = Some e ->
  executeChain chain w = (Normal (VArr [VObj (chain_failure e)]), w).
Proof.
  intros Hb Hsteps R. pose proof (shipped_miss _ _ _ _ Hb Hsteps) as Hget.
  rewrite (executeChain_rejected chain w step rest e Hsteps); rewrite ?Hget; auto.
Qed.

Lemma executeChain_shipped_invokes chain w step rest tool :
  shipped w -> bare w ->
  steps chain = step :: rest ->
  tools w !! toolName step = Some tool ->
  rejection w step initial_context = None ->
  executeChain chain w
  = (Normal (VArr [VObj (step_failure (JsError "Tool execution not implemented") step)]),
     invoked tool (params step) w).
Proof.
  intros Hs Hb Hsteps Htool R. pose proof (shipped_miss _ _ _ _ Hb Hsteps) as Hget.
  rewrite executeChain_on_miss by (rewrite Hget; reflexivity).
  rewrite Hget. cbn [snd].
  unfold compute_chain. rewrite Hsteps. cbn [loop]. unfold bind at 1 2.
  rewrite (loop_body_failure step initial_locals w _ _
             (executeStep_shipped step initial_context w tool Hs Hb Htool R)).
  reflexivity.
Qed.

Lemma executeChain_shipped_store chain w :
  cache_ok w -> shipped w -> bare w -> bare (snd (executeChain chain w)).
Proof.
  intros Hok Hs Hb.
  destruct (steps chain) as [|step rest] eqn:Hsteps.
  - (* the empty chain *)
    assert (Hkey : Cache.generateChainKey (steps chain) = "") by (rewrite Hsteps; reflexivity).
    destruct (get_cases "" w) as [[Hnone E]|[(e & He & Hx & E)|(e & He & Hx & E)]].
    + rewrite executeChain_on_miss by (rewrite Hkey, E; reflexivity).
      rewrite Hkey, E. unfold compute_chain. rewrite Hkey, Hsteps. cbn.
      intros key entry. unfold with_store; cbn [store].
      destruct (decide ("" = key)) as [<-|Hne]; [reflexivity|].
      rewrite lookup_insert_ne by assumption. apply Hb.
    + rewrite executeChain_on_miss by (rewrite Hkey, E; reflexivity).
      rewrite Hkey, E. unfold compute_chain. rewrite Hkey, Hsteps. cbn.
      intros key entry. unfold with_store; cbn [store].
      destruct (decide ("" = key)) as [<-|Hne]; [reflexivity|].
      rewrite lookup_insert_ne, lookup_delete_ne by assumption. apply Hb.
    + rewrite <- Hkey in He.
      destruct (executeChain_hit chain w e Hok He Hx) as (v & _ & ->). exact Hb.
  - destruct (rejection w step initial_context) as [e|] eqn:R.
    + rewrite (executeChain_shipped_rejects _ _ _ _ _ Hb Hsteps R). exact Hb.
    + destruct (executeStep_passes _ _ _ R) as (tool & Htool & _).
      rewrite (executeChain_shipped_invokes _ _ _ _ _ Hs Hb Hsteps Htool R). exact Hb.
Qed.

Lemma reachable_shipped_bare w : reachable w -> shipped w -> bare w.
Proof.
  induction 1 as [clock handlers|w config Hw IH|w chain Hw IH]; intros Hs.
  - intros key entry. cbn. rewrite lookup_empty. discriminate.
  - exact (IH Hs).
  - pose proof (reachable_cache_ok _ Hw) as Hok.
    destruct (executeChain chain w) as [o w'] eqn:E.
    destruct (executeChain_spec _ _ _ _ Hok E) as (_ & _ & _ & _ & Hh).
    assert (Hs0 : shipped w) by (intros i; rewrite <- Hh; apply Hs).
    pose proof (executeChain_shipped_store chain w Hok Hs0 (IH Hs0)) as Hb.
    rewrite E in Hb. exact Hb.
Qed.

(** X17. With [executeTool] as the source has it, a placeholder that
    throws, no step ever succeeds: whatever has been registered and
    run before, a chain that has steps returns one failed result, for
    its first step, with the error of the failed check or, when the
    step passes the checks and the tool is invoked, [Tool execution not
    implemented]; nothing is stored, and the cache never holds more
    than the entry of the empty chain. *)
Theorem shipped_chain_never_succeeds
    (w : World) (chain : ToolChain) (step : ToolChainStep) (rest : list ToolChainStep) :
  reachable w ->
  shipped w ->
  steps chain = step :: rest ->
  exists w',
    executeChain chain w = (Normal (VArr [VObj (shipped_failure w step)]), w')
    /\ store w' = store w
    /\ (w' = w
        \/ exists tool, tools w !! toolName step = Some tool
                        /\ w' = invoked tool (params step) w)
    /\ (forall key entry, store w !! key = Some entry -> key = "" /\ result entry = "[]").
Proof.
  intros Hw Hs Hsteps.
  pose proof (reachable_shipped_bare _ Hw Hs) as Hb.
  assert (Hstore : forall key entry,
             store w !! key = Some entry -> key = "" /\ result entry = "[]").
  { intros key entry He. pose proof (Hb _ _ He) as ->. split; [reflexivity|].
    apply entry_ok_empty_key. exact (reachable_cache_ok _ Hw _ _ He). }
  unfold shipped_failure.
  destruct (rejection w step initial_context) as [e|] eqn:R.
  - exists w. rewrite (executeChain_shipped_rejects _ _ _ _ _ Hb Hsteps R).
    split_and!; auto.
  - destruct (executeStep_passes _ _ _ R) as (tool & Htool & _).
    exists (invoked tool (params step) w).
    rewrite (executeChain_shipped_invokes _ _ _ _ _ Hs Hb Hsteps Htool R).
    split_and!; eauto.
Qed.

Lemma shipped_witness :
  exists w',
    executeChain (chain_of [step_t; step_u]) stub_world
    = (Normal (VArr [VObj (step_failure (JsError "Tool execution not implemented") step_t)]),
       w')
    /\ store w' = store stub_world.
Proof.
  destruct (shipped_chain_never_succeeds stub_world (chain_of [step_t; step_u]) step_t [step_u]
              reachable_stub_world (fun _ => eq_refl) eq_refl)
    as (w' & E & Hstore & _).
  exists w'. split; assumption.
Defined.

(** * Chain manipulation *)

Lemma splice_at {A} (i : nat) (l : list A) :
  splice (Z.of_nat i) 1 l = (take i l ++ drop (S i) l)%list.
Proof.
  unfold splice.
  assert ((Z.of_nat i <? 0) = false) as -> by (apply Z.ltb_ge; lia).
  destruct (Nat.lt_ge_cases i (length l)) as [Hlt|Hge].
  - rewrite Z.min_l by lia. rewrite (Z.min_l (Z.max 1 0)) by lia.
    rewrite Nat2Z.id. replace (Z.to_nat (Z.of_nat i + Z.max 1 0)) with (S i) by lia.
    reflexivity.
  - rewrite Z.min_r by lia. rewrite Z.min_r by lia.
    rewrite Z.sub_diag, Z.add_0_r, Nat2Z.id.
    rewrite !take_ge, !drop_ge by lia. reflexivity.
Qed.

Lemma splice_from_the_end {A} (index : Z) (l : list A) :
  - Z.of_nat (length l) <= index < 0 ->
  splice index 1 l = splice (Z.of_nat (length l) + index) 1 l.
Proof.
  intros Hi. unfold splice.
  assert ((index <? 0) = true) as -> by (apply Z.ltb_lt; lia).
  assert ((Z.of_nat (length l) + index <? 0) = false) as -> by (apply Z.ltb_ge; lia).
  f_equal; f_equal; lia.
Qed.

(** X18. [removeStep(chain, index)] removes the step at [index] when
    there is one, and nothing when [index] is at or beyond the end; a
    negative index counts from the end, and one below minus the length
    removes the first step.  The context of the chain stays. *)
Theorem removeStep_by_index (chain : ToolChain) (index : Z) :
  (0 <= index < Z.of_nat (length (steps chain)) ->
     steps (removeStep chain index)
     = (take (Z.to_nat index) (steps chain) ++ drop (S (Z.to_nat index)) (steps chain))%list
     /\ length (steps (removeStep chain index)) = pred (length (steps chain)))
  /\ (Z.of_nat (length (steps chain)) <= index -> removeStep chain index = chain)
  /\ (- Z.of_nat (length (steps chain)) <= index < 0 ->
      removeStep chain index
      = removeStep chain (Z.of_nat (length (steps chain)) + index))
  /\ (index < - Z.of_nat (length (steps chain)) ->
      removeStep chain index = removeStep chain 0)
  /\ context (removeStep chain index) = context chain.
Proof.
  unfold removeStep. split_and!.
  - intros Hi. cbn [steps].
    assert (Hsp : splice index 1 (steps chain)
                  = (take (Z.to_nat index) (steps chain)
                     ++ drop (S (Z.to_nat index)) (steps chain))%list).
    { rewrite <- (Z2Nat.id index) at 1 by lia. apply splice_at. }
    rewrite Hsp. split; [reflexivity|].
    rewrite length_app, length_take, length_drop. lia.
  - intros Hi. destruct chain as [l c]. cbn [steps context] in *. f_equal.
    rewrite <- (Z2Nat.id index) by lia. rewrite splice_at.
    rewrite take_ge, drop_ge by lia. apply app_nil_r.
  - intros Hi. f_equal. apply splice_from_the_end, Hi.
  - intros Hi. cbn [steps]. f_equal. unfold splice.
    assert ((index <? 0) = true) as -> by (apply Z.ltb_lt; lia).
    change (0 <? 0) with false.
    f_equal; f_equal; lia.
  - reflexivity.
Qed.

(** X19. [addStep] puts the step last: removing the step at the old
    length, or at index -1, gives the chain back.  The chain has one
    step more, and its key is the old key, a bar and the key of the
    step, or the key of the step alone when the chain was empty.
    [clearChain] leaves a chain that [executeChain] runs as the empty
    one. *)
Theorem removeStep_undoes_addStep (chain : ToolChain) (step : ToolChainStep) :
  removeStep (addStep chain step) (Z.of_nat (length (steps chain))) = chain
  /\ removeStep (addStep chain step) (-1) = chain
  /\ length (steps (addStep chain step)) = S (length (steps chain))
  /\ Cache.generateChainKey (steps (addStep chain step))
     = match steps chain with
       | [] => stepKey step
       | _ => Cache.generateChainKey (steps chain) +:+ "|" +:+ stepKey step
       end
  /\ clearChain (addStep chain step) = chain_of []
  /\ (forall w, executeChain (clearChain chain) w = executeChain (chain_of []) w).
Proof.
  assert (Hat : removeStep (addStep chain step) (Z.of_nat (length (steps chain))) = chain).
  { destruct chain as [l c]. unfold removeStep, addStep. cbn [steps context]. f_equal.
    rewrite splice_at. rewrite take_app_length, drop_ge by (rewrite length_app; simpl; lia).
    apply app_nil_r. }
  split_and!.
  - exact Hat.
  - rewrite <- Hat at 2. unfold removeStep. f_equal.
    rewrite splice_from_the_end by (unfold addStep; cbn [steps]; rewrite length_app; simpl; lia).
    f_equal. unfold addStep. cbn [steps]. rewrite length_app. simpl. lia.
  - unfold addStep. cbn [steps]. rewrite length_app. simpl. lia.
  - unfold addStep. cbn [steps]. rewrite !generateChainKey_stepKeys, map_app, join_app.
    destruct (steps chain); reflexivity.
  - reflexivity.
  - reflexivity.
Qed.

(** * The parser reads back what is written with indentation *)

Module IndentedFacts.
Import JSON.

Lemma blank_app a b : blank a = true -> blank b = true -> blank (a +:+ b) = true.
Proof.
  induction a as [|c a IH]; [auto|]. cbn [blank String.append].
  intros H Hb. apply andb_true_iff in H as [-> Ha]. cbn. auto.
Qed.

Lemma skip_blank indent s : blank indent = true -> skip_ws (indent +:+ s) = skip_ws s.
Proof.
  induction indent as [|c a IH]; [reflexivity|]. cbn [blank String.append].
  intros H. apply andb_true_iff in H as [Hc Ha]. apply Ascii.eqb_eq in Hc. subst c.
  cbn [skip_ws]. change (is_ws " ") with true. cbn iota. auto.
Qed.

Lemma skip_line indent s :
  blank indent = true -> skip_ws (newline +:+ indent +:+ s) = skip_ws s.
Proof.
  intros H. unfold newline. cbn [String.append skip_ws].
  change (is_ws "010") with true. cbn iota. apply skip_blank, H.
Qed.

Lemma serialize_indented_none indent v :
  serialize_indented indent v = None <-> v = VUndefined.
Proof.
  destruct v as [| |b|z|s|l|fs]; cbn [serialize_indented]; split; intros H;
    try congruence.
  - destruct (map _ l); discriminate.
  - destruct (omap _ fs); discriminate.
Qed.

Lemma serialize_indented_starts indent v t :
  serialize_indented indent v = Some t -> starts_value t.
Proof.
  destruct v as [| |[]|z|s|l|fs]; cbn [serialize_indented]; intros H;
    try discriminate; try (injection H as <-; simpl; repeat split; reflexivity).
  - injection H as <-. destruct (number_head z) as (c & r & -> & Hc).
    apply number_dispatch in Hc. simpl. tauto.
  - destruct (map _ l); injection H as <-; simpl; repeat split; reflexivity.
  - destruct (omap _ fs); injection H as <-; simpl; repeat split; reflexivity.
Qed.

Lemma item_indented_starts indent e : starts_value (item_indented indent e).
Proof.
  unfold item_indented. destruct (serialize_indented indent e) eqn:E; simpl.
  - eapply serialize_indented_starts; eauto.
  - repeat split; reflexivity.
Qed.

Lemma parse_item_indented (e : value) :
  parses_back_indented e ->
  forall indent n rest, blank indent = true ->
  (String.length (item_indented indent e) < n)%nat -> ends_number rest = true ->
  parse_value n (item_indented indent e +:+ rest) = Some (element_roundtrip e, rest).
Proof.
  intros He indent n rest Hb Hn Hrest. unfold item_indented in *.
  destruct (serialize_indented indent e) as [t|] eqn:E.
  - simpl in *. rewrite (He indent t Hb E n rest Hn Hrest).
    destruct e; try reflexivity. discriminate.
  - apply serialize_indented_none in E. subst e. simpl in *.
    destruct n as [|n]; [lia|]. reflexivity.
Qed.

Lemma parse_value_ws n s s' : skip_ws s = skip_ws s' -> parse_value n s = parse_value n s'.
Proof. intros H. destruct n; [reflexivity|]. cbn [parse_value]. rewrite H. reflexivity. Qed.

Lemma parse_elements_ws n s s' :
  skip_ws s = skip_ws s' -> parse_elements n s = parse_elements n s'.
Proof.
  intros H. destruct n; [reflexivity|]. rewrite !elements_step.
  rewrite (parse_value_ws n s s' H). reflexivity.
Qed.

Lemma parse_members_ws n acc s s' :
  skip_ws s = skip_ws s' -> parse_members n acc s = parse_members n acc s'.
Proof. intros H. destruct n; [reflexivity|]. cbn [parse_members]. rewrite H. reflexivity. Qed.

Lemma skip_ws_idem s : skip_ws (skip_ws s) = skip_ws s.
Proof.
  induction s as [|c r IH]; [reflexivity|]. cbn [skip_ws].
  destruct (is_ws c) eqn:E; [exact IH|]. cbn [skip_ws]. rewrite E. reflexivity.
Qed.

Lemma join_two sep (x y : string) (l : list string) :
  join sep (x :: y :: l) = x +:+ sep +:+ join sep (y :: l).
Proof. reflexivity. Qed.

Lemma parse_elements_indented (l : list value) :
  Forall parses_back_indented l -> l <> [] ->
  forall indent inner n rest,
  blank indent = true -> blank inner = true ->
  (String.length (join (separator inner) (map (item_indented inner) l)) + 2 <= n)%nat ->
  parse_elements n (join (separator inner) (map (item_indented inner) l)
                    +:+ newline +:+ indent +:+ String "]" rest)
  = Some (map element_roundtrip l, rest).
Proof.
  induction 1 as [|e l He Hl IH]; [congruence|]. intros _ indent inner n rest Hb Hb' Hn.
  destruct n as [|n]; [lia|]. rewrite elements_step.
  destruct l as [|e' l'].
  - cbn [map join] in *.
    rewrite (parse_item_indented e He inner); [|assumption|lia|reflexivity].
    rewrite (skip_line indent _ Hb). cbn [skip_ws]. change (is_ws "]") with false.
    cbn iota. change (Ascii.eqb "]" ",") with false. change (Ascii.eqb "]" "]") with true.
    reflexivity.
  - cbn [map] in *. rewrite join_two in *.
    rewrite !length_append in Hn. unfold separator in *.
    cbn [String.append String.length] in Hn.
    rewrite !append_assoc. cbn [String.append].
    rewrite (parse_item_indented e He inner); [|assumption|lia|reflexivity].
    cbn [skip_ws]. change (is_ws ",") with false. cbn iota.
    change (Ascii.eqb "," ",") with true. cbn iota.
    rewrite (parse_elements_ws n _ _ (skip_line inner _ Hb')).
    change (String "," (newline +:+ inner)) with ("," +:+ newline +:+ inner) in *.
    rewrite (IH ltac:(congruence) indent inner n rest Hb Hb'); [reflexivity|].
    rewrite !length_append in *. cbn [String.length] in *. lia.
Qed.

Lemma omap_member_indented_cons inner (k : string) (x : value) (fs : PlainObject) :
  omap (member_indented inner) ((k, x) :: fs) =
  match serialize_indented inner x with
  | Some t => (quote k +:+ ": " +:+ t) :: omap (member_indented inner) fs
  | None => omap (member_indented inner) fs
  end.
Proof.
  cbn [omap list_omap]. unfold member_indented at 1. cbn [fst snd].
  destruct (serialize_indented inner x); reflexivity.
Qed.

Lemma members_indented_all_undefined inner (fs : PlainObject) (acc : PlainObject) :
  omap (member_indented inner) fs = [] -> fold_left member_roundtrip fs acc = acc.
Proof.
  induction fs as [|[k x] fs IH]; [reflexivity|]. rewrite omap_member_indented_cons. simpl.
  destruct (serialize_indented inner x) eqn:E; [discriminate|].
  apply serialize_indented_none in E. subst x. exact IH.
Qed.

Lemma members_step_spaced (n : nat) (acc : PlainObject) (k s : string) :
  parse_members (S n) acc (quote k +:+ ": " +:+ s) =
  match parse_value n s with
  | Some (v, r3) =>
      match skip_ws r3 with
      | String d r4 =>
          if Ascii.eqb d "," then parse_members n (obj_set k v acc) r4
          else if Ascii.eqb d "}" then Some (VObj (obj_set k v acc), r4)
          else None
      | EmptyString => None
      end
  | None => None
  end.
Proof.
  change (quote k +:+ ": " +:+ s) with (quote k +:+ String ":" (String " " s)).
  rewrite members_step. rewrite (parse_value_ws n (String " " s) s); reflexivity.
Qed.

Lemma parse_members_indented (fs : PlainObject) :
  Forall (fun kx => parses_back_indented (snd kx)) fs ->
  forall indent inner acc n rest,
  blank indent = true -> blank inner = true ->
  omap (member_indented inner) fs <> [] ->
  (String.length (join (separator inner) (omap (member_indented inner) fs)) + 2 <= n)%nat ->
  parse_members n acc (join (separator inner) (omap (member_indented inner) fs)
                       +:+ newline +:+ indent +:+ String "}" rest)
  = Some (VObj (fold_left member_roundtrip fs acc), rest).
Proof.
  induction 1 as [|[k x] fs Hx Hfs IH]; [simpl; congruence|].
  intros indent inner acc n rest Hb Hb' Hne Hn. simpl in Hx.
  rewrite omap_member_indented_cons in *. cbn [fold_left].
  destruct (serialize_indented inner x) as [t|] eqn:E.
  2:{ apply serialize_indented_none in E. subst x. apply IH; assumption. }
  assert (member_roundtrip acc (k, x) = obj_set k (roundtrip x) acc) as ->.
  { destruct x; try reflexivity. discriminate. }
  destruct n as [|n]; [lia|].
  destruct (omap (member_indented inner) fs) as [|m ms] eqn:Ems.
  - cbn [join] in *. rewrite !length_append in Hn. cbn [String.length] in Hn.
    rewrite !append_assoc. rewrite members_step_spaced.
    rewrite (Hx inner t Hb' E); [|lia|reflexivity].
    rewrite (skip_line indent _ Hb). cbn [skip_ws]. change (is_ws "}") with false.
    cbn iota.
    change (Ascii.eqb "}" ",") with false. change (Ascii.eqb "}" "}") with true. cbn iota.
    rewrite (members_indented_all_undefined inner) by assumption. reflexivity.
  - rewrite join_two in *.
    rewrite !length_append in Hn. unfold separator in Hn.
    cbn [String.length String.append] in Hn.
    rewrite !append_assoc. rewrite members_step_spaced.
    change (separator inner +:+ join (separator inner) (m :: ms) +:+ newline +:+ indent
            +:+ String "}" rest)
      with (String "," (newline +:+ inner +:+ join (separator inner) (m :: ms) +:+ newline
                        +:+ indent +:+ String "}" rest)).
    rewrite (Hx inner t Hb' E); [|lia|reflexivity].
    cbn [skip_ws]. change (is_ws ",") with false. cbn iota.
    change (Ascii.eqb "," ",") with true. cbn iota.
    rewrite (parse_members_ws n _ _ _ (skip_line inner _ Hb')).
    rewrite <- Ems.
    apply IH; [assumption | assumption | rewrite Ems; congruence |].
    rewrite Ems. unfold separator. cbn [String.append]. lia.
Qed.

Lemma array_open_ws (n : nat) (r s : string) :
  skip_ws r = s -> starts_value s ->
  parse_value (S n) (String "[" r) =
  match parse_elements n s with
  | Some (l, rest) => Some (VArr l, rest)
  | None => None
  end.
Proof.
  intros Hr Hs. cbn [parse_value skip_ws]. change (is_ws "[") with false. cbn iota.
  change (Ascii.eqb "[" "{") with false. change (Ascii.eqb "[" "[") with true. cbn iota.
  rewrite Hr. destruct s as [|c s']; simpl in Hs; [tauto|].
  destruct Hs as (_ & -> & _). reflexivity.
Qed.

Lemma object_open_ws (n : nat) (r s : string) :
  skip_ws r = String dquote s ->
  parse_value (S n) (String "{" r) = parse_members n [] (String dquote s).
Proof.
  intros Hr. cbn [parse_value skip_ws]. change (is_ws "{") with false. cbn iota.
  change (Ascii.eqb "{" "{") with true. cbn iota. rewrite Hr. reflexivity.
Qed.

Lemma member_indented_starts inner (fs : PlainObject) (m : string) (ms : list string) :
  omap (member_indented inner) fs = m :: ms -> exists r, m = String dquote r.
Proof.
  induction fs as [|[k x] fs IH]; [discriminate|].
  rewrite omap_member_indented_cons.
  destruct (serialize_indented inner x); [|exact IH].
  intros [= <- _]. unfold quote. cbn [String.append]. eauto.
Qed.

Lemma join_head_sep sep (m : string) (ms : list string) (r : string) :
  m = String dquote r -> exists r', join sep (m :: ms) = String dquote r'.
Proof. intros ->. destruct ms; cbn [join String.append]; eauto. Qed.

Lemma join_items_starts sep inner (e : value) (l : list value) :
  starts_value (join sep (map (item_indented inner) (e :: l))).
Proof.
  destruct l; cbn [map].
  - apply item_indented_starts.
  - rewrite join_two. apply starts_value_append, item_indented_starts.
Qed.

Lemma skip_ws_starts_value s : starts_value s -> skip_ws s = s.
Proof. apply skip_ws_starts. Qed.

Lemma serialize_indented_array indent l :
  serialize_indented indent (VArr l)
  = match map (item_indented (indent +:+ "  ")) l with
    | [] => Some "[]"
    | items =>
        Some ("[" +:+ newline +:+ indent +:+ "  "
              +:+ join (separator (indent +:+ "  ")) items
              +:+ newline +:+ indent +:+ "]")
    end.
Proof.
  cbn [serialize_indented]. unfold separator.
  change (map (fun e => default "null" (serialize_indented (indent +:+ "  ") e)) l)
    with (map (item_indented (indent +:+ "  ")) l).
  destruct (map (item_indented (indent +:+ "  ")) l); reflexivity.
Qed.

Lemma serialize_indented_object indent fs :
  serialize_indented indent (VObj fs)
  = match omap (member_indented (indent +:+ "  ")) fs with
    | [] => Some "{}"
    | members =>
        Some ("{" +:+ newline +:+ indent +:+ "  "
              +:+ join (separator (indent +:+ "  ")) members
              +:+ newline +:+ indent +:+ "}")
    end.
Proof.
  cbn [serialize_indented]. unfold separator.
  change (omap (fun kx => match serialize_indented (indent +:+ "  ") (snd kx) with
                          | Some t => Some (quote (fst kx) +:+ ": " +:+ t)
                          | None => None
                          end) fs)
    with (omap (member_indented (indent +:+ "  ")) fs).
  destruct (omap (member_indented (indent +:+ "  ")) fs); reflexivity.
Qed.

Ltac the_text Ht t :=
  match type of Ht with
  | Some ?x = Some _ =>
      let H := fresh in assert (H : x = t) by congruence; clear Ht; subst t
  end.

Theorem parse_serialize_indented (v : value) : parses_back_indented v.
Proof.
  induction v as [| |b|z|s|l IH|fs IH] using value_ind;
    intros indent t Hb Ht n rest Hn Hrest.
  - discriminate.
  - injection Ht as <-. destruct n as [|n]; [simpl in Hn; lia|]. reflexivity.
  - injection Ht as <-. destruct n as [|n]; [simpl in Hn; lia|]. destruct b; reflexivity.
  - apply (parse_serialize (VNum z) t Ht n rest Hn Hrest).
  - apply (parse_serialize (VStr s) t Ht n rest Hn Hrest).
  - rewrite serialize_indented_array in Ht.
    assert (Hinner : blank (indent +:+ "  ") = true) by (apply blank_app; auto).
    destruct l as [|e l].
    + injection Ht as <-. destruct n as [|n]; [simpl in Hn; lia|]. reflexivity.
    + set (items := map (item_indented (indent +:+ "  ")) (e :: l)) in *.
      assert (Hitems : starts_value (join (separator (indent +:+ "  ")) items))
        by apply join_items_starts.
      change (Some ("[" +:+ newline +:+ indent +:+ "  "
                    +:+ join (separator (indent +:+ "  ")) items
                    +:+ newline +:+ indent +:+ "]") = Some t) in Ht.
      the_text Ht t.
      destruct n as [|n]; [simpl in Hn; lia|].
      rewrite !length_append in Hn. cbn [String.length] in Hn.
      rewrite !append_assoc.
      change ("[" +:+ newline +:+ indent +:+ "  "
              +:+ join (separator (indent +:+ "  ")) items
              +:+ newline +:+ indent +:+ "]" +:+ rest)
        with (String "[" (newline +:+ indent +:+ "  "
                          +:+ join (separator (indent +:+ "  ")) items
                          +:+ newline +:+ indent +:+ String "]" rest)).
      rewrite (array_open_ws n _ (join (separator (indent +:+ "  ")) items
                                  +:+ newline +:+ indent +:+ String "]" rest)).
      * unfold items.
        rewrite (parse_elements_indented (e :: l) IH ltac:(congruence) indent
                   (indent +:+ "  ") n rest Hb Hinner); [reflexivity|].
        fold items. lia.
      * rewrite (skip_line indent _ Hb).
        change ("  " +:+ join (separator (indent +:+ "  ")) items
                +:+ newline +:+ indent +:+ String "]" rest)
          with (String " " (String " " (join (separator (indent +:+ "  ")) items
                +:+ newline +:+ indent +:+ String "]" rest))).
        cbn [skip_ws]. change (is_ws " ") with true. cbn iota.
        apply skip_ws_starts, starts_value_append, Hitems.
      * apply starts_value_append, Hitems.
  - rewrite serialize_indented_object in Ht.
    assert (Hinner : blank (indent +:+ "  ") = true) by (apply blank_app; auto).
    change (roundtrip (VObj fs)) with (VObj (fold_left member_roundtrip fs [])).
    pose proof (parse_members_indented fs IH indent (indent +:+ "  ") [] (pred n) rest
                  Hb Hinner) as Hp.
    destruct (omap (member_indented (indent +:+ "  ")) fs) as [|m ms] eqn:Ems.
    + injection Ht as <-. destruct n as [|n]; [simpl in Hn; lia|].
      rewrite (members_indented_all_undefined _ _ _ Ems). reflexivity.
    + destruct (member_indented_starts _ _ _ _ Ems) as (r & Hm).
      destruct (join_head_sep (separator (indent +:+ "  ")) m ms r Hm) as (r' & Hj).
      set (members := join (separator (indent +:+ "  ")) (m :: ms)) in *.
      the_text Ht t.
      destruct n as [|n]; [simpl in Hn; lia|].
      rewrite !length_append in Hn. cbn [String.length] in Hn.
      rewrite !append_assoc.
      change ("{" +:+ newline +:+ indent +:+ "  " +:+ members
              +:+ newline +:+ indent +:+ "}" +:+ rest)
        with (String "{" (newline +:+ indent +:+ "  " +:+ members
                          +:+ newline +:+ indent +:+ String "}" rest)).
      rewrite (object_open_ws n _ (r' +:+ newline +:+ indent +:+ String "}" rest)).
      * change (String dquote (r' +:+ newline +:+ indent +:+ String "}" rest))
          with (String dquote r' +:+ newline +:+ indent +:+ String "}" rest).
        rewrite <- Hj. apply Hp; [congruence | cbn [pred]; lia].
      * rewrite (skip_line indent _ Hb).
        change ("  " +:+ members +:+ newline +:+ indent +:+ String "}" rest)
          with (String " " (String " " (members +:+ newline +:+ indent +:+ String "}" rest))).
        cbn [skip_ws]. change (is_ws " ") with true. cbn iota.
        rewrite Hj. reflexivity.
Qed.

Theorem parse_stringify_indented (v : value) (t : string) :
  stringify_indented v = Some t -> parse t = Some (roundtrip v).
Proof.
  intros Ht. unfold parse.
  pose proof (parse_serialize_indented v "" t eq_refl Ht (S (String.length t)) ""
                (Nat.lt_succ_diag_r _) eq_refl) as H.
  rewrite append_nil_r in H. rewrite H. reflexivity.
Qed.

End IndentedFacts.
Import IndentedFacts.

(** * The server *)

Module ServerFacts.
Import DeepSeekServer.

Lemma not_known name :
  ~ In name known_names ->
  String.eqb name "execute_chain" = false
  /\ String.eqb name "generate_code" = false
  /\ String.eqb name "complete_code" = false
  /\ String.eqb name "optimize_code" = false.
Proof.
  intros H. unfold known_names in H. cbn [In] in H.
  split_and!; apply String.eqb_neq; intros ->; tauto.
Qed.

(** X20. A call of a tool the server does not know is answered with
    the error text [Error: Unknown tool: name], flagged [isError]: no
    request goes to the API and the chain manager is not touched. *)
Theorem unknown_tool_is_refused
    (name : string) (args : option PlainObject) (s : Server) :
  name <> "" ->
  ~ In name known_names ->
  callTool (tool_request name args) s
  = Some ({| text := Some ("Error: Unknown tool: " +:+ name); isError := true |}, s).
Proof.
  intros Hne Hunknown.
  destruct (not_known _ Hunknown) as (H1 & H2 & H3 & H4).
  apply String.eqb_neq in Hne.
  unfold callTool, tool_request. cbn [request_name arguments].
  rewrite Hne, H1. unfold handleToolCall, buildPrompt. rewrite H2, H3, H4.
  reflexivity.
Qed.

Lemma unknown_tool_witness :
  callTool (tool_request "explain_code" None) demo_server
  = Some ({| text := Some "Error: Unknown tool: explain_code"; isError := true |},
          demo_server).
Proof.
  refine (unknown_tool_is_refused "explain_code" None demo_server _ _).
  - discriminate.
  - cbn [In known_names]. intros [H|[H|[H|[H|[]]]]]; discriminate H.
Defined.

Lemma handleToolCall_effect name params s :
  chainManager (snd (handleToolCall name params s)) = chainManager s
  /\ api (snd (handleToolCall name params s)) = api s
  /\ match buildPrompt name params with
     | Normal text =>
         exists body,
           posted (snd (handleToolCall name params s)) = (posted s ++ [body])%list
           /\ prompt body = text /\ max_tokens body = 2000 /\ sendable (temperature body)
     | Throw error =>
         handleToolCall name params s = (Throw error, s)
     end.
Proof.
  unfold handleToolCall.
  destruct (buildPrompt name params) as [text|error] eqn:Hb; [|auto].
  assert (Ht : exists t, prop "temperature" params = Normal t).
  { destruct params; cbn; eauto.
    - unfold buildPrompt in Hb. cbn [prop and_then] in Hb.
      repeat (destruct (String.eqb name _); [discriminate|]). discriminate.
    - unfold buildPrompt in Hb. cbn [prop and_then] in Hb.
      repeat (destruct (String.eqb name _); [discriminate|]). discriminate. }
  destruct Ht as (t & ->). unfold post.
  set (body := {| prompt := text; temperature := _; max_tokens := 2000 |}).
  assert (Hbody : sendable (temperature body)).
  { unfold body. cbn. destruct (truthy t) eqn:E; cbn; auto. }
  destruct (api s (length (posted s)) body) as [[|first choices]|response_error message|error];
    try destruct (or_else response_error message); cbn [fst snd chainManager api posted];
    split_and!; try reflexivity; exists body; auto.
Qed.

(** X21. The two kinds of call do not mix.  A chain request never
    reaches the API; a call of a single tool never reaches the chain
    manager, so that its arguments are not validated, nothing is
    cached and no prerequisite is checked, and it sends at most one
    request. *)
Theorem chain_and_tool_calls_are_separate
    (request : CallToolRequest) (s s' : Server) (result : CallToolResult) :
  callTool request s = Some (result, s') ->
  api s' = api s
  /\ (request_name request = Some "execute_chain" -> posted s' = posted s)
  /\ (request_name request <> Some "execute_chain" ->
      chainManager s' = chainManager s
      /\ (posted s' = posted s
          \/ exists body, posted s' = (posted s ++ [body])%list)).
Proof.
  unfold callTool. destruct (request_name request) as [name|];
    [|intros [= <- <-]; split_and!; auto].
  destruct (String.eqb name "") eqn:Hempty; [intros [= <- <-]; split_and!; auto|].
  destruct (String.eqb_spec name "execute_chain") as [->|Hne].
  - destruct (negb (truthy _)); [intros [= <- <-]; split_and!; auto; congruence|].
    destruct (as_steps _) as [typed|]; [|discriminate].
    destruct (executeChain _ (chainManager s)) as [[results|error] w'];
      intros [= <- <-]; split_and!; auto; congruence.
  - set (params := match arguments request with Some args => VObj args | None => VUndefined end).
    destruct (handleToolCall_effect name params s) as (Hm & Ha & Hp).
    destruct (handleToolCall name params s) as [[text|error] s1] eqn:E; cbn [snd] in *;
      intros [= <- <-]; (split_and!; [exact Ha | congruence |]); intros _;
      (split; [exact Hm|]);
      destruct (buildPrompt name params); try (destruct Hp as (body & Hp & _); eauto);
      try (injection Hp as <- <-; auto); try discriminate.
Qed.

Lemma separate_witness :
  exists result s',
    callTool optimize_request demo_server = Some (result, s')
    /\ posted s' = posted demo_server.
Proof.
  destruct (callTool optimize_request demo_server) as [[result s']|] eqn:E;
    [|vm_compute in E; discriminate E].
  exists result, s'. split; [reflexivity|].
  exact (proj1 (proj2 (chain_and_tool_calls_are_separate optimize_request demo_server s'
                         result E)) eq_refl).
Defined.

(** X22. A call of a single tool sends the prompt built from its
    arguments whenever the prompt can be built, with [max_tokens] 2000
    and the temperature given, or the default when that is falsy.  The
    input schema of the tool plays no part: a call that leaves out a
    required parameter is sent all the same. *)
Theorem direct_call_posts_the_prompt
    (name : string) (args : PlainObject) (text : string) (s : Server) :
  name <> "" ->
  name <> "execute_chain" ->
  buildPrompt name (VObj args) = Normal text ->
  exists result body s',
    callTool (tool_request name (Some args)) s = Some (result, s')
    /\ posted s' = (posted s ++ [body])%list
    /\ prompt body = text
    /\ max_tokens body = 2000
    /\ temperature body
       = (if truthy (default VUndefined (own "temperature" args))
          then Given (default VUndefined (own "temperature" args))
          else Default)
    /\ chainManager s' = chainManager s.
Proof.
  intros Hne Hchain Hb.
  apply String.eqb_neq in Hne. apply String.eqb_neq in Hchain.
  unfold callTool, tool_request. cbn [request_name arguments].
  rewrite Hne, Hchain. unfold handleToolCall. rewrite Hb. cbn [prop]. unfold post.
  set (body := {| prompt := text; temperature := _; max_tokens := 2000 |}).
  destruct (api s (length (posted s)) body) as [[|first choices]|response_error message|error];
    try destruct (or_else response_error message);
    eexists _, body, _; (split; [reflexivity|]); split_and!; reflexivity.
Qed.

Lemma direct_call_witness :
  validateParams [] (inputSchema generateCodeConfig)
  = Throw (JsError "Missing required parameter: prompt")
  /\ exists result body s',
       callTool (tool_request "generate_code" (Some [])) demo_server = Some (result, s')
       /\ posted s' = [body]
       /\ temperature body = Default.
Proof.
  split; [reflexivity|].
  destruct (direct_call_posts_the_prompt "generate_code" [] _ demo_server
              ltac:(discriminate) ltac:(discriminate) eq_refl)
    as (result & body & s' & E & Hposted & _ & _ & Ht & _).
  exists result, body, s'. split_and!; assumption.
Defined.

(** X23. No request is ever sent with a falsy temperature: a
    temperature of 0 is replaced by the default, like a missing one.
    Every request has [max_tokens] 2000. *)
Theorem posted_temperature_is_never_falsy (s : Server) :
  serving s ->
  Forall (fun body => sendable (temperature body) /\ max_tokens body = 2000) (posted s).
Proof.
  induction 1 as [clock api|s request result s' Hs IH Hcall]; [constructor|].
  unfold callTool in Hcall. destruct (request_name request) as [name|];
    [|injection Hcall as <- <-; exact IH].
  destruct (String.eqb name ""); [injection Hcall as <- <-; exact IH|].
  destruct (String.eqb name "execute_chain").
  - destruct (negb (truthy _)); [injection Hcall as <- <-; exact IH|].
    destruct (as_steps _) as [typed|]; [|discriminate].
    destruct (executeChain _ (chainManager s)) as [[results|error] w'];
      injection Hcall as <- <-; exact IH.
  - set (params := match arguments request with Some args => VObj args | None => VUndefined end)
      in Hcall.
    destruct (handleToolCall_effect name params s) as (_ & _ & Hp).
    assert (Hs' : s' = snd (handleToolCall name params s))
      by (destruct (handleToolCall name params s) as [[?|?] ?];
          injection Hcall as <- <-; reflexivity).
    destruct (buildPrompt name params).
    + destruct Hp as (body & Hp & _ & Hmax & Hsend). rewrite Hs', Hp.
      apply Forall_app. split; [exact IH|]. repeat constructor; assumption.
    + rewrite Hs', Hp. exact IH.
Qed.

Lemma serving_served_once : serving served_once.
Proof.
  unfold served_once.
  destruct (callTool zero_temperature_request demo_server) as [[result s']|] eqn:E.
  - exact (serving_callTool _ _ _ _ (serving_new _ _) E).
  - exact (serving_new _ _).
Qed.

Lemma temperature_witness :
  Forall (fun body => sendable (temperature body) /\ max_tokens body = 2000)
    (posted served_once)
  /\ map temperature (posted served_once) = [Default].
Proof.
  split.
  - exact (posted_temperature_is_never_falsy _ serving_served_once).
  - reflexivity.
Defined.

Lemma shipped_failure_tools w w' step :
  tools w' = tools w -> shipped_failure w' step = shipped_failure w step.
Proof.
  intros H. unfold shipped_failure. rewrite (rejection_same_setting w w' step _ H).
  reflexivity.
Qed.

Lemma serving_manager s :
  serving s ->
  reachable (chainManager s)
  /\ shipped (chainManager s)
  /\ forall clock api, tools (chainManager s) = tools (chainManager (new clock api)).
Proof.
  induction 1 as [clock api|s request result s' Hs (Hr & Hsh & Ht) Hcall].
  - split_and!.
    + unfold new. cbn [chainManager]. repeat constructor.
    + intros i. reflexivity.
    + reflexivity.
  - unfold callTool in Hcall. destruct (request_name request) as [name|];
      [|injection Hcall as <- <-; auto].
    destruct (String.eqb name ""); [injection Hcall as <- <-; auto|].
    destruct (String.eqb name "execute_chain").
    + destruct (negb (truthy _)); [injection Hcall as <- <-; auto|].
      destruct (as_steps _) as [typed|]; [|discriminate].
      match type of Hcall with
      | context [executeChain ?c (chainManager s)] => set (chain := c) in Hcall
      end.
      pose proof (reachable_executeChain _ chain Hr) as Hr'.
      destruct (executeChain chain (chainManager s)) as [o w'] eqn:E.
      destruct (executeChain_spec _ _ _ _ (reachable_cache_ok _ Hr) E)
        as (_ & _ & Htools & _ & Hh).
      cbn [snd] in Hr'.
      assert (s' = with_manager w' s) as ->
        by (destruct o; injection Hcall as <- <-; reflexivity).
      cbn [chainManager with_manager]. split_and!.
      * exact Hr'.
      * intros i. rewrite Hh. apply Hsh.
      * intros clock api. rewrite Htools. apply Ht.
    + set (params := match arguments request with Some args => VObj args | None => VUndefined end)
        in Hcall.
      destruct (handleToolCall_effect name params s) as (Hm & _ & _).
      assert (Hs' : s' = snd (handleToolCall name params s))
        by (destruct (handleToolCall name params s) as [[?|?] ?];
            injection Hcall as <- <-; reflexivity).
      rewrite Hs', Hm. auto.
Qed.

Lemma as_steps_array given typed : as_steps given = Some typed -> truthy given = true.
Proof. destruct given; try discriminate. reflexivity. Qed.

(** X24. On the server, whose chain manager has the placeholder for
    [executeTool], a chain request with steps is answered, not flagged
    as an error, with the indented list of one failed result, that of
    its first step; no request goes to the API and nothing is cached.
    A chain that starts with [optimize_code] fails for lack of previous
    results, and one that starts with a tool other than the three
    registered, for the tool not being found. *)
Theorem chain_request_on_the_server
    (s : Server) (request : CallToolRequest) (args : PlainObject) (given : value)
    (step : ToolChainStep) (rest : list ToolChainStep) :
  serving s ->
  request_name request = Some "execute_chain" ->
  arguments request = Some args ->
  own "steps" args = Some given ->
  as_steps given = Some (step :: rest) ->
  exists s',
    callTool request s
    = Some ({| text := JSON.stringify_indented
                         (VArr [VObj (shipped_failure (chainManager s) step)]);
               isError := false |}, s')
    /\ posted s' = posted s
    /\ store (chainManager s') = store (chainManager s)
    /\ (toolName step = "optimize_code" ->
        shipped_failure (chainManager s) step
        = chain_failure (JsError "Tool optimize_code requires previous results"))
    /\ (~ In (toolName step) ["generate_code"; "complete_code"; "optimize_code"] ->
        shipped_failure (chainManager s) step
        = chain_failure (JsError ("Tool not found: " +:+ toolName step))).
Proof.
  intros Hs Hname Hargs Hgiven Hsteps.
  destruct (serving_manager _ Hs) as (Hr & Hsh & Ht).
  pose proof (reachable_shipped_bare _ Hr Hsh) as Hb.
  unfold callTool. rewrite Hname, Hargs, Hgiven.
  change (String.eqb "execute_chain" "") with false.
  change (String.eqb "execute_chain" "execute_chain") with true.
  cbv beta iota zeta. change (default VUndefined (Some given)) with given.
  rewrite (as_steps_array _ _ Hsteps), Hsteps. cbn [negb].
  set (chain := {| steps := step :: rest; context := _ |}).
  assert (Hfail : exists w',
             executeChain chain (chainManager s)
             = (Normal (VArr [VObj (shipped_failure (chainManager s) step)]), w')
             /\ store w' = store (chainManager s)).
  { unfold shipped_failure.
    destruct (rejection (chainManager s) step initial_context) as [e|] eqn:R.
    - exists (chainManager s). split; [|reflexivity].
      exact (executeChain_shipped_rejects chain _ step rest e Hb eq_refl R).
    - destruct (executeStep_passes _ _ _ R) as (tool & Htool & _).
      exists (invoked tool (params step) (chainManager s)). split; [|reflexivity].
      exact (executeChain_shipped_invokes chain _ step rest tool Hsh Hb eq_refl Htool R). }
  destruct Hfail as (w' & -> & Hstore).
  exists (with_manager w' s). split_and!; try reflexivity; try exact Hstore.
  - intros Htool. unfold shipped_failure, rejection.
    rewrite (Ht (fun _ => 0) (fun _ _ => Response [])), Htool. reflexivity.
  - intros Hnot. unfold shipped_failure, rejection.
    rewrite (Ht (fun _ => 0) (fun _ _ => Response [])).
    cbn [In] in Hnot.
    assert (Hnone : tools (chainManager (new (fun _ => 0)
                                           (fun _ _ => Response [])))
                    !! toolName step = None).
    { cbn. rewrite !lookup_insert_ne by (intros Heq; apply Hnot; auto).
      apply lookup_empty. }
    rewrite Hnone. reflexivity.
Qed.

Lemma chain_request_witness :
  exists s',
    callTool optimize_request demo_server
    = Some ({| text := JSON.stringify_indented
                         (VArr [VObj (chain_failure
                                        (JsError "Tool optimize_code requires previous results"))]);
               isError := false |}, s')
    /\ posted s' = posted demo_server.
Proof.
  destruct (chain_request_on_the_server demo_server optimize_request _ _ optimize_step []
              (serving_new _ _) eq_refl eq_refl eq_refl eq_refl)
    as (s' & E & Hposted & _ & Hopt & _).
  exists s'. rewrite (Hopt eq_refl) in E. split; assumption.
Defined.

Lemma executeChain_defined chain w :
  cache_ok w ->
  exists v w', executeChain chain w = (Normal v, w') /\ v <> VUndefined.
Proof.
  intros Hok. destruct (executeChain chain w) as [o w'] eqn:E.
  destruct (executeChain_spec _ _ _ _ Hok E) as (Hout & _).
  destruct Hout as [entry v He Hx Hv|rs w' now _ _ _ _ _|rs w' _ _ _ _ _].
  - exists v, (tick w). split; [reflexivity|].
    destruct (entry_ok_parse _ _ (Hok _ _ He)) as (_ & v' & Hv' & [(fs & -> & _)|(l & ->)]);
      congruence.
  - exists (VArr rs), w'. split; [reflexivity | discriminate].
  - exists (VArr rs), w'. split; [reflexivity | discriminate].
Qed.

(** X25. The text of the answer to a chain request is what
    [JSON.stringify(results, null, 2)] writes, and [JSON.parse] reads
    it back: to the list [executeChain] returned, short of the
    properties that were [undefined], which are not written. *)
Theorem chain_response_parses_back
    (s : Server) (request : CallToolRequest) (args : PlainObject) (given : value)
    (typed : list ToolChainStep) :
  serving s ->
  request_name request = Some "execute_chain" ->
  arguments request = Some args ->
  own "steps" args = Some given ->
  as_steps given = Some typed ->
  exists results t s',
    callTool request s = Some ({| text := Some t; isError := false |}, s')
    /\ executeChain {| steps := typed; context := initial_context |} (chainManager s)
       = (Normal results, chainManager s')
    /\ JSON.parse t = Some (JSON.roundtrip results).
Proof.
  intros Hs Hname Hargs Hgiven Hsteps.
  destruct (serving_manager _ Hs) as (Hr & _ & _).
  destruct (executeChain_defined {| steps := typed; context := initial_context |}
              (chainManager s) (reachable_cache_ok _ Hr)) as (v & w' & E & Hv).
  destruct (JSON.stringify_indented v) as [t|] eqn:Ht.
  2:{ apply serialize_indented_none in Ht. contradiction. }
  exists v, t, (with_manager w' s).
  unfold callTool. rewrite Hname, Hargs, Hgiven.
  change (String.eqb "execute_chain" "") with false.
  change (String.eqb "execute_chain" "execute_chain") with true.
  cbv beta iota zeta. change (default VUndefined (Some given)) with given.
  rewrite (as_steps_array _ _ Hsteps), Hsteps. cbn [negb].
  change {| previousResults := []; context_metadata := [] |} with initial_context.
  rewrite E, Ht. split_and!; [reflexivity | reflexivity |].
  apply parse_stringify_indented, Ht.
Qed.

Lemma parses_back_witness :
  exists t s',
    callTool optimize_request demo_server = Some ({| text := Some t; isError := false |}, s')
    /\ JSON.parse t
       = Some (VArr [VObj (chain_failure
                             (JsError "Tool optimize_code requires previous results"))]).
Proof.
  destruct (chain_response_parses_back demo_server optimize_request _ _ [optimize_step]
              (serving_new _ _) eq_refl eq_refl eq_refl eq_refl)
    as (results & t & s' & E & Hrun & Hparse).
  exists t, s'. split; [exact E|].
  assert (Hresults : fst (executeChain {| steps := [optimize_step]; context := initial_context |}
                            (chainManager demo_server))
                     = Normal (VArr [VObj (chain_failure
                                             (JsError "Tool optimize_code requires previous results"))]))
    by (vm_compute; reflexivity).
  rewrite Hrun in Hresults. cbn [fst] in Hresults. injection Hresults as ->.
  exact Hparse.
Defined.

(** X26. A failed post of a direct tool call is answered, not thrown:
    the request is sent once and the result is flagged as an error.
    Its text is [Error: DeepSeek API error: ] followed by the [error]
    field of the response body when that field is truthy, and by the
    message of the axios error otherwise. A string field is shown as
    it is; an object field without a [toString] of its own is shown
    as [[object Object]], whatever it holds. *)
Theorem api_error_is_reported
    (name : string) (args : PlainObject) (built : string) (s : Server)
    (response_error : value) (message : string) :
  name <> "" ->
  name <> "execute_chain" ->
  buildPrompt name (VObj args) = Normal built ->
  (forall body, api s (length (posted s)) body = AxiosError response_error message) ->
  exists result s',
    callTool (tool_request name (Some args)) s = Some (result, s')
    /\ isError result = true
    /\ length (posted s') = S (length (posted s))
    /\ (truthy response_error = false ->
        text result = Some ("Error: DeepSeek API error: " +:+ message))
    /\ (forall detail,
          response_error = VStr detail -> detail <> "" ->
          text result = Some ("Error: DeepSeek API error: " +:+ detail))
    /\ (forall fields,
          response_error = VObj fields -> own "toString" fields = None ->
          text result = Some "Error: DeepSeek API error: [object Object]").
Proof.
  intros Hne Hchain Hb Hapi.
  apply String.eqb_neq in Hne. apply String.eqb_neq in Hchain.
  unfold callTool, tool_request. cbn [request_name arguments].
  rewrite Hne, Hchain. unfold handleToolCall. rewrite Hb. cbn [prop]. unfold post.
  rewrite Hapi. unfold or_else.
  destruct (truthy response_error) eqn:Ht.
  - destruct (to_string response_error) as [detail|error] eqn:Hd;
      eexists _, _; (split; [reflexivity|]); cbn [isError text posted error_result];
      (split_and!; [reflexivity | rewrite length_app; simpl; lia | discriminate | |]).
    + intros d -> _. cbn in Hd. injection Hd as <-. reflexivity.
    + intros fields -> Hown. cbn [to_string] in Hd. rewrite Hown in Hd.
      injection Hd as <-. reflexivity.
    + intros d -> _. discriminate Hd.
    + intros fields -> Hown. cbn [to_string] in Hd. rewrite Hown in Hd. discriminate Hd.
  - eexists _, _. split; [reflexivity|]. cbn [isError text posted error_result].
    split_and!; [reflexivity | rewrite length_app; simpl; lia | reflexivity | |].
    + intros d -> Hd. cbn in Ht. apply negb_false_iff, String.eqb_eq in Ht. contradiction.
    + intros fields ->. discriminate Ht.
Qed.

Lemma api_error_witness :
  exists s',
    callTool (tool_request "generate_code" (Some [("prompt", VStr "sort")])) failing_server
    = Some ({| text := Some "Error: DeepSeek API error: [object Object]"; isError := true |},
            s').
Proof.
  destruct (api_error_is_reported "generate_code" [("prompt", VStr "sort")] _ failing_server
              _ _ ltac:(discriminate) ltac:(discriminate) eq_refl (fun _ => eq_refl))
    as (result & s' & E & Herr & _ & _ & _ & Hobj).
  exists s'. rewrite E. f_equal. f_equal.
  destruct result as [t b]. cbn in *. rewrite Herr, (Hobj _ eq_refl eq_refl). reflexivity.
Defined.

End ServerFacts.
